(** * Chunked authenticated stream encryption of sodium-wrapper

    A shallow embedding of [FileCryptor::encrypt] and [FileCryptor::decrypt]
    (filecryptor.cpp), of the constructor of [StreamCryptor]
    (streamcryptor.h) and of the interface of [CryptorAEAD] (cryptoraead.h),
    together with the C++ stream operations these functions rely on.

    Bytes are [Byte.byte], a [data_t] (std::vector<unsigned char>) is a list
    of bytes, stream positions are [Z] where the code compares them with -1,
    and the two methods are written in a state-and-exception monad over the
    object, its input stream and its output stream. *)

From Stdlib Require Import List Arith ZArith Lia Bool NArith.
From Stdlib Require Import Strings.Byte.
Import ListNotations.

Set Implicit Arguments.

(* ================================================================= *)
(** ** Bytes and byte vectors *)

Definition data_t := list byte.

Fixpoint data_eqb (a b : data_t) : bool :=
  match a, b with
  | [], [] => true
  | x :: a', y :: b' => Byte.eqb x y && data_eqb a' b'
  | _, _ => false
  end.

(** [std::vector::resize(n)]: truncate, or pad with value-initialised bytes. *)
Definition resize (v : data_t) (n : nat) : data_t :=
  firstn n v ++ repeat x00 (n - length v).

(** Raw stores through [v.data()]: the first [length got] cells of the
    buffer are overwritten, the others and the size of the vector stay. *)
Definition store (v got : data_t) : data_t :=
  firstn (length v) (got ++ skipn (length got) v).

(* ================================================================= *)
(** ** Exceptions and outcomes *)

(** One constructor per [throw] site of the embedded code. *)
Inductive exn : Type :=
| StreamCryptor_wrong_blocksize
| Encrypt_write_full_chunk
| Encrypt_write_final_chunk
| Encrypt_write_hash
| Decrypt_seek_hash
| Decrypt_partial_hash
| Decrypt_write_full_chunk
| Decrypt_write_final_chunk
| Decrypt_hash_mismatch
| CryptorAEAD_decrypt_failed
| Vector_length_error.

(** The error taxonomy of the specification. *)
Inductive error_kind : Type :=
| ConfigurationError | AuthFailure | IntegrityFailure | IOFailure.

Definition classify (e : exn) : option error_kind :=
  match e with
  | StreamCryptor_wrong_blocksize => Some ConfigurationError
  | CryptorAEAD_decrypt_failed => Some AuthFailure
  | Decrypt_hash_mismatch => Some IntegrityFailure
  | Encrypt_write_full_chunk | Encrypt_write_final_chunk | Encrypt_write_hash
  | Decrypt_seek_hash | Decrypt_partial_hash
  | Decrypt_write_full_chunk | Decrypt_write_final_chunk => Some IOFailure
  | Vector_length_error => None
  end.

(** [Diverge] is the answer of a loop whose fuel ran out; it is not an
    exception of the program. *)
Inductive outcome (A : Type) : Type :=
| Ok (a : A)
| Throw (e : exn)
| Diverge.
Arguments Throw {A} e.
Arguments Diverge {A}.

(* ================================================================= *)
(** ** Keys and nonces *)

Inductive protection : Type := ReadWrite | ReadOnly | NoAccess.

(** Modelled from the spec: the secret-key container of key.h (not among
    the sources), "a secret-key container with read-only/no-access
    memory-protection transitions".  [key_type] fixes the number of bytes in
    its C++ type; the embedding keeps the bytes as a list. *)
Record Key : Type := mkKey { keydata : data_t; prot : protection }.

Definition Key_copy (k : Key) : Key := mkKey (keydata k) ReadWrite.
Definition Key_readonly (k : Key) : Key := mkKey (keydata k) ReadOnly.
Definition Key_noaccess (k : Key) : Key := mkKey (keydata k) NoAccess.

Definition nonce_type := data_t.

Definition byte_succ (b : byte) : byte :=
  match Byte.of_N (N.modulo (Byte.to_N b + 1) 256) with
  | Some b' => b'
  | None => x00
  end.

(** Counter addition of one, least significant byte first, with carry. *)
Fixpoint incr_lsb_first (l : data_t) : data_t :=
  match l with
  | [] => []
  | b :: l' =>
      if Byte.eqb b xff then x00 :: incr_lsb_first l'
      else byte_succ b :: l'
  end.

(** Modelled from the spec: [Nonce::increment] of nonce.h (not among the
    sources), "a big-endian counter addition over the full nonce width",
    wrapping around at the end of the range. *)
Definition increment (n : nonce_type) : nonce_type :=
  rev (incr_lsb_first (rev n)).

Fixpoint increments (i : nat) (n : nonce_type) : nonce_type :=
  match i with
  | 0 => n
  | S i' => increments i' (increment n)
  end.

(* ================================================================= *)
(** ** The primitives of libsodium *)

(** The AEAD construction and the keyed digest are external; the embedding
    is parametric in them. *)
Class Libsodium : Type := {
  (** crypto_aead_chacha20poly1305_ABYTES *)
  MACSIZE : nat;
  (** header, plaintext, key bytes, nonce: the MAC and the ciphertext *)
  aead_seal : data_t -> data_t -> data_t -> nonce_type -> data_t;
  (** header, MAC and ciphertext, key bytes, nonce: the plaintext if the
      MAC verifies *)
  aead_open : data_t -> data_t -> data_t -> nonce_type -> option data_t;
  (** key, output size, message: crypto_generichash *)
  generichash : data_t -> nat -> data_t -> data_t
}.

(** What the construction guarantees and the stream protocol relies on. *)
Class LibsodiumLaws (L : Libsodium) : Prop := {
  MACSIZE_pos : 0 < MACSIZE;
  aead_seal_length : forall h p k n,
      length (aead_seal h p k n) = MACSIZE + length p;
  aead_open_seal : forall h p k n,
      aead_open h (aead_seal h p k n) k n = Some p;
  aead_open_short : forall h c k n,
      length c < MACSIZE -> aead_open h c k n = None;
  generichash_length : forall k n m, length (generichash k n m) = n
}.

(** crypto_generichash_state with init, update and final: the streaming
    interface computes the one-shot digest of everything it was fed. *)
Record generichash_state : Type := mkHash {
  hs_key : data_t;
  hs_outlen : nat;
  hs_fed : data_t
}.

Definition crypto_generichash_init (key : data_t) (outlen : nat)
  : generichash_state := mkHash key outlen [].

Definition crypto_generichash_update (st : generichash_state) (m : data_t)
  : generichash_state := mkHash (hs_key st) (hs_outlen st) (hs_fed st ++ m).

Definition crypto_generichash_final `{L : Libsodium} (st : generichash_state)
  (out : data_t) : data_t :=
  store out (generichash (hs_key st) (length out) (hs_fed st)).

(* ================================================================= *)
(** ** CryptorAEAD *)

(** Modelled from the spec: [CryptorAEAD::encrypt], declared in
    cryptoraead.h and defined in a file that is not among the sources:
    "encryptChunk(header, plaintext_chunk, key, nonce) -> tag||ciphertext". *)
Definition CryptorAEAD_encrypt `{L : Libsodium} (header plaintext : data_t)
  (key : Key) (nonce : nonce_type) : data_t :=
  aead_seal header plaintext (keydata key) nonce.

(** Modelled from the spec: [CryptorAEAD::decrypt], declared in
    cryptoraead.h and defined in a file that is not among the sources:
    "decryptChunk(header, tag||ciphertext, key, nonce) -> plaintext_chunk |
    AuthFailure: fails with AuthFailure when the tag does not verify against
    the given header, ciphertext, key and nonce". *)
Definition CryptorAEAD_decrypt `{L : Libsodium} (header ciphertext_with_mac : data_t)
  (key : Key) (nonce : nonce_type) : outcome data_t :=
  match aead_open header ciphertext_with_mac (keydata key) nonce with
  | Some plaintext => Ok plaintext
  | None => Throw CryptorAEAD_decrypt_failed
  end.

(* ================================================================= *)
(** ** StreamCryptor and FileCryptor objects *)

(** The private members of [StreamCryptor] (streamcryptor.h). *)
Record StreamCryptor : Type := mkStreamCryptor {
  key_ : Key;
  nonce_ : nonce_type;
  header_ : data_t;
  blocksize_ : nat
}.

(** [StreamCryptor::StreamCryptor]: the members are initialised from the
    arguments ([header_ {}] is the empty vector), the blocksize is checked
    and the stored copy of the key is made read-only. *)
Definition StreamCryptor_ctor (key : Key) (nonce : nonce_type)
  (blocksize : nat) : outcome StreamCryptor :=
  let this := mkStreamCryptor (Key_copy key) nonce [] blocksize in
  if blocksize <? 1 then Throw StreamCryptor_wrong_blocksize
  else Ok (mkStreamCryptor (Key_readonly (key_ this)) (nonce_ this)
             (header_ this) (blocksize_ this)).

(** The members [FileCryptor::encrypt] and [FileCryptor::decrypt] use: those
    of a [StreamCryptor], the key of the digest and the size of the digest.
    The declaration of the class (filecryptor.h) is not among the sources. *)
Record FileCryptor : Type := mkFileCryptor {
  cryptor : StreamCryptor;
  hashkey_ : Key;
  hashsize_ : nat
}.

(* ================================================================= *)
(** ** Streams *)

(** A [std::istream] over a fixed sequence of bytes: the get position, the
    state bits that the code tests, and the count of the last unformatted
    read. *)
Record istream : Type := mkIstream {
  content : data_t;
  gpos : nat;
  eofbit : bool;
  failbit : bool;
  gcount_ : nat
}.

Definition fresh_istream (c : data_t) : istream := mkIstream c 0 false false 0.

Definition igood (s : istream) : bool := negb (eofbit s) && negb (failbit s).

(** [istream::read(buf, n)]: if the stream is not good the read fails at
    once; otherwise up to [n] bytes are stored, and end of file before [n]
    bytes sets eofbit and failbit. *)
Definition istream_read (s : istream) (buf : data_t) (n : nat)
  : istream * data_t :=
  if igood s then
    let got := firstn n (skipn (gpos s) (content s)) in
    let short := length got <? n in
    (mkIstream (content s) (gpos s + length got) short short (length got),
     store buf got)
  else (mkIstream (content s) (gpos s) (eofbit s) true 0, buf).

(** [istream::tellg()]: -1 on a stream that is not good (the sentry sets
    failbit then), the get position otherwise. *)
Definition istream_tellg (s : istream) : istream * Z :=
  if igood s then (s, Z.of_nat (gpos s))
  else (mkIstream (content s) (gpos s) (eofbit s) true (gcount_ s), (-1)%Z).

(** [istream::seekg(off, dir)] since C++11: eofbit is cleared first; a
    stream with failbit ignores the request; a position before the start of
    the file is refused and sets failbit. *)
Definition istream_seekg_to (s : istream) (target : Z) : istream :=
  if failbit s then mkIstream (content s) (gpos s) false true (gcount_ s)
  else if (target <? 0)%Z
       then mkIstream (content s) (gpos s) false true (gcount_ s)
       else mkIstream (content s) (Z.to_nat target) false false (gcount_ s).

Definition istream_seekg_end (s : istream) (off : Z) : istream :=
  istream_seekg_to s (Z.of_nat (length (content s)) + off)%Z.

Definition istream_seekg_beg (s : istream) (off : Z) : istream :=
  istream_seekg_to s off.

(** A [std::ostream] as the two methods see it: the bytes it has taken so
    far, the bad state, and [room], the number of bytes it still takes
    before a write leaves it bad.  [room] is [None] for a stream that no
    write leaves bad: a sink that never fills up, and also a buffered file
    stream on a full device, whose writes all succeed and whose failure
    shows only when it is flushed or closed, after the methods have
    returned.  [Some r] is a sink without such a buffer: the write that does
    not fit stores the [r] bytes that do and leaves the stream bad. *)
Record ostream : Type := mkOstream {
  written : data_t;
  room : option nat;
  obad : bool
}.

Definition fresh_ostream : ostream := mkOstream [] None false.

Definition ostream_write (o : ostream) (bytes : data_t) : ostream :=
  if obad o then o
  else match room o with
       | None => mkOstream (written o ++ bytes) None false
       | Some r =>
           if length bytes <=? r
           then mkOstream (written o ++ bytes) (Some (r - length bytes)) false
           else mkOstream (written o ++ firstn r bytes) (Some 0) true
       end.

(* ================================================================= *)
(** ** The monad of the two methods *)

(** The calls of the chunk codec and of the digest, in the order in which a
    run makes them, and the point of [decrypt] where the trimmed final read
    turns out to be empty.  The log is ghost state: no branch of the code
    reads it. *)
Inductive event : Type :=
| EvSeal (nonce : nonce_type) (plaintext : data_t)
| EvOpen (nonce : nonce_type) (ciphertext : data_t)
| EvUpdate (bytes : data_t)
| EvNoFinalChunk.

Record world : Type := mkWorld {
  self : FileCryptor;
  istr : istream;
  ostr : ostream;
  trace : list event
}.

Definition M (A : Type) : Type := world -> outcome A * world.

Definition ret {A} (a : A) : M A := fun w => (Ok a, w).
Definition throw {A} (e : exn) : M A := fun w => (Throw e, w).
Definition diverge {A} : M A := fun w => (Diverge, w).

Definition bind {A B} (c : M A) (k : A -> M B) : M B :=
  fun w => match c w with
           | (Ok a, w') => k a w'
           | (Throw e, w') => (Throw e, w')
           | (Diverge, w') => (Diverge, w')
           end.

Declare Scope monad_scope.
Delimit Scope monad_scope with monad.
Notation "x <- c ;; k" := (bind c (fun x => k))
  (at level 61, c at next level, right associativity) : monad_scope.
Notation "' pat <- c ;; k" := (bind c (fun x => match x with pat => k end))
  (at level 61, pat pattern, c at next level, right associativity) : monad_scope.
Notation "c ;; k" := (bind c (fun _ => k))
  (at level 61, right associativity) : monad_scope.
Open Scope monad_scope.

Definition lift {A} (o : outcome A) : M A := fun w => (o, w).

Definition this : M FileCryptor := fun w => (Ok (self w), w).

(** [istr.read(buf, n)] followed by the test of the stream. *)
Definition read (buf : data_t) (n : nat) : M (bool * data_t) :=
  fun w => let (s, buf') := istream_read (istr w) buf n in
           (Ok (negb (failbit s), buf'), mkWorld (self w) s (ostr w) (trace w)).

Definition gcount : M nat := fun w => (Ok (gcount_ (istr w)), w).

Definition tellg : M Z :=
  fun w => let (s, p) := istream_tellg (istr w) in
           (Ok p, mkWorld (self w) s (ostr w) (trace w)).

(** [ifs.seekg(off, std::ios_base::end)] followed by the test of the stream. *)
Definition seekg_end (off : Z) : M bool :=
  fun w => let s := istream_seekg_end (istr w) off in
           (Ok (negb (failbit s)), mkWorld (self w) s (ostr w) (trace w)).

Definition seekg_beg (off : Z) : M bool :=
  fun w => let s := istream_seekg_beg (istr w) off in
           (Ok (negb (failbit s)), mkWorld (self w) s (ostr w) (trace w)).

(** [ostr.write(bytes)] followed by the test of the stream. *)
Definition write (bytes : data_t) : M bool :=
  fun w => let o := ostream_write (ostr w) bytes in
           (Ok (negb (obad o)), mkWorld (self w) (istr w) o (trace w)).

(** [v.resize(n)] for a size computed with signed stream offsets: a negative
    value is a huge std::size_t, which resize refuses. *)
Definition resize_to (v : data_t) (n : Z) : M data_t :=
  if (n <? 0)%Z then throw Vector_length_error
  else ret (resize v (Z.to_nat n)).

Definition log (e : event) : M unit :=
  fun w => (Ok tt, mkWorld (self w) (istr w) (ostr w) (trace w ++ [e])).

(** [sc_aead_.encrypt(header_, plaintext, key_, running_nonce)] *)
Definition sc_aead_encrypt `{L : Libsodium} (plaintext : data_t)
  (running_nonce : nonce_type) : M data_t :=
  fc <- this ;;
  log (EvSeal running_nonce plaintext) ;;
  ret (CryptorAEAD_encrypt (header_ (cryptor fc)) plaintext
         (key_ (cryptor fc)) running_nonce).

(** [sc_aead_.decrypt(header_, ciphertext, key_, running_nonce)] *)
Definition sc_aead_decrypt `{L : Libsodium} (ciphertext : data_t)
  (running_nonce : nonce_type) : M data_t :=
  fc <- this ;;
  log (EvOpen running_nonce ciphertext) ;;
  lift (CryptorAEAD_decrypt (header_ (cryptor fc)) ciphertext
          (key_ (cryptor fc)) running_nonce).

(** [crypto_generichash_update(&state, ciphertext.data(), ciphertext.size())] *)
Definition hash_update (state : generichash_state) (ciphertext : data_t)
  : M generichash_state :=
  log (EvUpdate ciphertext) ;;
  ret (crypto_generichash_update state ciphertext).

(** The fuel of the two loops.  With a blocksize of at least 1 every turn
    reads at least one byte, so that neither loop makes more turns than the
    input has bytes ([encrypt_total] and [decrypt_total] below); with a
    blocksize of 0 the loop of the C++ code does not end either. *)
Definition loop_bound : M nat :=
  fun w => (Ok (S (length (content (istr w)))), w).

(* ================================================================= *)
(** ** FileCryptor::encrypt *)

(** The [while (istr.read(plaintext.data(), blocksize_))] loop; the locals
    it changes are threaded through. *)
Fixpoint encrypt_loop `{L : Libsodium} (fuel : nat) (state : generichash_state)
  (plaintext : data_t) (running_nonce : nonce_type)
  : M (generichash_state * data_t * nonce_type) :=
  match fuel with
  | 0 => diverge
  | S fuel' =>
      fc <- this ;;
      '(more, plaintext) <- read plaintext (blocksize_ (cryptor fc)) ;;
      if more then
        ciphertext <- sc_aead_encrypt plaintext running_nonce ;;
        let running_nonce := increment running_nonce in
        good <- write ciphertext ;;
        if negb good then throw Encrypt_write_full_chunk
        else
          state <- hash_update state ciphertext ;;
          encrypt_loop fuel' state plaintext running_nonce
      else ret (state, plaintext, running_nonce)
  end.

(** The body of [FileCryptor::encrypt]; the answer is the value the local
    [running_nonce] has when the method returns. *)
Definition encrypt_body `{L : Libsodium} : M nonce_type :=
  fc <- this ;;
  let hash := repeat x00 (hashsize_ fc) in
  let state :=
    crypto_generichash_init (keydata (hashkey_ fc)) (hashsize_ fc) in
  let plaintext := repeat x00 (blocksize_ (cryptor fc)) in
  let running_nonce := nonce_ (cryptor fc) in
  fuel <- loop_bound ;;
  '(state, plaintext, running_nonce) <-
     encrypt_loop fuel state plaintext running_nonce ;;
  s <- gcount ;;
  state <-
    (if negb (s =? 0) then
       let plaintext :=
         if negb (s =? length plaintext) then resize plaintext s
         else plaintext in
       ciphertext <- sc_aead_encrypt plaintext running_nonce ;;
       good <- write ciphertext ;;
       if negb good then throw Encrypt_write_final_chunk
       else hash_update state ciphertext
     else ret state) ;;
  let hash := crypto_generichash_final state hash in
  good <- write hash ;;
  if negb good then throw Encrypt_write_hash
  else ret running_nonce.

Definition encrypt `{L : Libsodium} : M unit := encrypt_body ;; ret tt.

(* ================================================================= *)
(** ** FileCryptor::decrypt *)

(** The [while (ifs.read(ciphertext.data(), MACSIZE + blocksize_) &&
    !in_hash)] loop. *)
Fixpoint decrypt_loop `{L : Libsodium} (fuel : nat) (hash_pos : Z)
  (state : generichash_state) (ciphertext : data_t)
  (running_nonce : nonce_type) (current_pos : Z) (in_hash : bool)
  : M (generichash_state * data_t * nonce_type * Z * bool) :=
  match fuel with
  | 0 => diverge
  | S fuel' =>
      fc <- this ;;
      '(more, ciphertext) <-
         read ciphertext (MACSIZE + blocksize_ (cryptor fc)) ;;
      if more && negb in_hash then
        current_pos <- tellg ;;
        '(ciphertext, in_hash) <-
           (if (current_pos >? hash_pos)%Z then
              ciphertext <-
                resize_to ciphertext
                  (Z.of_nat (length ciphertext) - (current_pos - hash_pos)) ;;
              ret (ciphertext, true)
            else ret (ciphertext, in_hash)) ;;
        plaintext <- sc_aead_decrypt ciphertext running_nonce ;;
        let running_nonce := increment running_nonce in
        good <- write plaintext ;;
        if negb good then throw Decrypt_write_full_chunk
        else
          state <- hash_update state ciphertext ;;
          decrypt_loop fuel' hash_pos state ciphertext running_nonce
            current_pos in_hash
      else ret (state, ciphertext, running_nonce, current_pos, in_hash)
  end.

(** The [if (!in_hash)] block after the loop. *)
Definition decrypt_final `{L : Libsodium} (hash_pos : Z)
  (state : generichash_state) (ciphertext : data_t)
  (running_nonce : nonce_type) (in_hash : bool) : M generichash_state :=
  fc <- this ;;
  if negb in_hash then
    s <- gcount ;;
    if negb (s =? 0) then
      let ciphertext :=
        if negb (s =? length ciphertext) then resize ciphertext s
        else ciphertext in
      current_pos <- tellg ;;
      ciphertext <-
        (if (current_pos >? hash_pos)%Z then
           resize_to ciphertext
             (Z.of_nat (length ciphertext) - (current_pos - hash_pos))
         else if (current_pos =? -1)%Z then
           if hashsize_ fc <? length ciphertext
           then ret (resize ciphertext (length ciphertext - hashsize_ fc))
           else ret []
         else ret ciphertext) ;;
      match ciphertext with
      | _ :: _ =>
          plaintext <- sc_aead_decrypt ciphertext running_nonce ;;
          good <- write plaintext ;;
          if negb good then throw Decrypt_write_final_chunk
          else hash_update state ciphertext
      | [] => log EvNoFinalChunk ;; ret state
      end
    else ret state
  else ret state.

(** The body of [FileCryptor::decrypt].  [-hashsize_] is the negated size
    as a stream offset. *)
Definition decrypt `{L : Libsodium} : M unit :=
  fc <- this ;;
  let hash := repeat x00 (hashsize_ fc) in
  let state :=
    crypto_generichash_init (keydata (hashkey_ fc)) (hashsize_ fc) in
  let ciphertext := repeat x00 (MACSIZE + blocksize_ (cryptor fc)) in
  let running_nonce := nonce_ (cryptor fc) in
  let hash_saved := repeat x00 (hashsize_ fc) in
  sought <- seekg_end (- Z.of_nat (hashsize_ fc)) ;;
  if negb sought then throw Decrypt_seek_hash
  else
    hash_pos <- tellg ;;
    '(whole, hash_saved) <- read hash_saved (length hash_saved) ;;
    (if negb whole then
       s <- gcount ;;
       if negb (s =? 0) && negb (s =? hashsize_ fc)
       then throw Decrypt_partial_hash
       else ret tt
     else ret tt) ;;
    seekg_beg 0 ;;
    current_pos <- tellg ;;
    fuel <- loop_bound ;;
    '(state, ciphertext, running_nonce, current_pos, in_hash) <-
       decrypt_loop fuel hash_pos state ciphertext running_nonce
         current_pos false ;;
    state <- decrypt_final hash_pos state ciphertext running_nonce in_hash ;;
    let hash := crypto_generichash_final state hash in
    if negb (data_eqb hash hash_saved) then throw Decrypt_hash_mismatch
    else ret tt.

(* ================================================================= *)
(** ** What a run shows *)



(** The chunks handed to [CryptorAEAD::encrypt], with their nonces. *)
Fixpoint sealed (t : list event) : list (nonce_type * data_t) :=
  match t with
  | [] => []
  | EvSeal n p :: t' => (n, p) :: sealed t'
  | _ :: t' => sealed t'
  end.

(** The chunks handed to [CryptorAEAD::decrypt], with their nonces. *)
Fixpoint opened (t : list event) : list (nonce_type * data_t) :=
  match t with
  | [] => []
  | EvOpen n c :: t' => (n, c) :: opened t'
  | _ :: t' => opened t'
  end.

(** The bytes folded into the digest, in order. *)
Fixpoint folded (t : list event) : data_t :=
  match t with
  | [] => []
  | EvUpdate c :: t' => c ++ folded t'
  | _ :: t' => folded t'
  end.

Definition opened_bytes (t : list event) : data_t := concat (map snd (opened t)).

(** Whether the run met a final short read that was empty once trimmed. *)
Fixpoint no_final_chunk (t : list event) : bool :=
  match t with
  | [] => false
  | EvNoFinalChunk :: _ => true
  | _ :: t' => no_final_chunk t'
  end.

(** The first [k] blocks of [bs] bytes of [p]. *)
Fixpoint blocks_of (k bs : nat) (p : data_t) : list data_t :=
  match k with
  | 0 => []
  | S k' => firstn bs p :: blocks_of k' bs (skipn bs p)
  end.

(** The plaintext chunks [encrypt] makes of [p]: the full blocks, and the
    bytes after them if there are any. *)
Definition chunks_of (bs : nat) (p : data_t) : list data_t :=
  blocks_of (length p / bs) bs p ++
  (if length p mod bs =? 0 then [] else [skipn (bs * (length p / bs)) p]).

(** The i-th chunk is sealed under the i-th successor of the nonce. *)
Fixpoint seal_chunks `{L : Libsodium} (header : data_t) (key : Key)
  (n : nonce_type) (l : list data_t) : list data_t :=
  match l with
  | [] => []
  | b :: l' =>
      CryptorAEAD_encrypt header b key n ::
      seal_chunks header key (increment n) l'
  end.

(** The chunks of a stream as the primitive makes them: the i-th is what
    the AEAD construction answers for the i-th plaintext chunk under the
    i-th successor of the nonce. *)
Fixpoint aead_chunks `{L : Libsodium} (header keybytes : data_t)
  (n : nonce_type) (l : list data_t) : list data_t :=
  match l with
  | [] => []
  | b :: l' =>
      aead_seal header b keybytes n ::
      aead_chunks header keybytes (increment n) l'
  end.

(** The calls [encrypt] makes for a list of plaintext chunks. *)
Fixpoint encrypt_events `{L : Libsodium} (header : data_t) (key : Key)
  (n : nonce_type) (l : list data_t) : list event :=
  match l with
  | [] => []
  | b :: l' =>
      EvSeal n b :: EvUpdate (CryptorAEAD_encrypt header b key n) ::
      encrypt_events header key (increment n) l'
  end.

Fixpoint with_nonces (n : nonce_type) (l : list data_t)
  : list (nonce_type * data_t) :=
  match l with
  | [] => []
  | b :: l' => (n, b) :: with_nonces (increment n) l'
  end.

(** The number of chunks the specification announces for a plaintext of
    [len] bytes. *)
Definition announced_chunks (len bs : nat) : nat :=
  if len mod bs =? 0
  then (if len =? 0 then 1 else len / bs + 1)
  else Nat.max 1 ((len + bs - 1) / bs).

(** A stream with its last chunk removed and its trailer kept: [chunks] are
    the sealed chunks, [trailer] the digest. *)
Definition drop_last_chunk (chunks : list data_t) (trailer : data_t) : data_t :=
  concat (removelast chunks) ++ trailer.

(** A world in which [fc] is about to read [input] and to write to a sink
    that never fills up. *)
Definition start (fc : FileCryptor) (input : data_t) : world :=
  mkWorld fc (fresh_istream input) fresh_ostream [].

(** A sink that never refuses a write. *)
Definition unbounded (o : ostream) : Prop := room o = None /\ obad o = false.

(** A computation that leaves the object as it found it, whatever its
    outcome. *)
Definition frames {A} (c : M A) : Prop :=
  forall w, self (snd (c w)) = self w.

(** The bytes before the trailer that a run has opened and folded so far
    are prefixes of the bytes before the trailer. *)
Definition within (h : nat) (c : data_t) (t : list event) : Prop :=
  (exists a, a <= h /\ folded t = firstn a c) /\
  (exists b, b <= h /\ opened_bytes t = firstn b c).

(** The state of the [decrypt] loop when it tests its condition. *)
Definition loop_head (hk : data_t) (ol h : nat) (c : data_t) (C : nat)
  (w : world) (st : generichash_state) (ct : data_t) (in_hash : bool) : Prop :=
  content (istr w) = c /\
  st = mkHash hk ol (folded (trace w)) /\
  if in_hash
  then folded (trace w) = firstn h c /\ opened_bytes (trace w) = firstn h c
  else igood (istr w) = true /\ gpos (istr w) <= h /\ length ct = C /\
       folded (trace w) = firstn (gpos (istr w)) c /\
       opened_bytes (trace w) = firstn (gpos (istr w)) c.

(** The state in which the loop ends: either the trailer was reached inside
    the loop, or the last read came short, at position [p]. *)
Definition loop_exit (hk : data_t) (ol h : nat) (c : data_t) (C : nat)
  (w : world) (st : generichash_state) (ct : data_t) (in_hash : bool) : Prop :=
  content (istr w) = c /\
  st = mkHash hk ol (folded (trace w)) /\
  if in_hash
  then folded (trace w) = firstn h c /\ opened_bytes (trace w) = firstn h c
  else exists p, p <= h /\
       folded (trace w) = firstn p c /\ opened_bytes (trace w) = firstn p c /\
       igood (istr w) = false /\ gcount_ (istr w) = length c - p /\
       length c - p < C /\ length ct = C /\
       firstn (length c - p) ct = skipn p c.

(** What a run of [decrypt] on the input [c] shows: only bytes before the
    trailer are opened and folded, and a run that gets as far as comparing
    the digests has opened and folded all of them, and compares the digest
    of exactly these bytes with the trailer. *)
Definition regions `{L : Libsodium} (hk : data_t) (hs : nat) (c : data_t)
  (r : outcome unit * world) : Prop :=
  let h := length c - hs in
  within h c (trace (snd r)) /\
  (fst r = Ok tt \/ fst r = Throw Decrypt_hash_mismatch ->
   folded (trace (snd r)) = firstn h c /\
   opened_bytes (trace (snd r)) = firstn h c /\
   (data_eqb (crypto_generichash_final (mkHash hk hs (firstn h c))
                (repeat x00 hs))
      (skipn h c) = true <-> fst r = Ok tt)).

(** Everything before the trailer has been opened and folded. *)
Definition complete (h : nat) (c : data_t) (t : list event) : Prop :=
  folded t = firstn h c /\ opened_bytes t = firstn h c.

(** One chunk, inside the loop or after it: opened, written, folded. *)
Definition process `{L : Libsodium} (e : exn) (st : generichash_state)
  (chunk : data_t) (n : nonce_type) : M generichash_state :=
  plaintext <- sc_aead_decrypt chunk n ;;
  good <- write plaintext ;;
  if negb good then throw e else hash_update st chunk.

(** The calls [decrypt] makes for a list of sealed chunks. *)
Fixpoint decrypt_events (n : nonce_type) (chunks : list data_t) : list event :=
  match chunks with
  | [] => []
  | c :: l => EvOpen n c :: EvUpdate c :: decrypt_events (increment n) l
  end.

(** The result of the comparison of the digests. *)
Definition verdict (same : bool) : outcome unit :=
  if same then Ok tt else Throw Decrypt_hash_mismatch.

(** What a run returns, writes and logs. *)
Definition observe {A} (r : outcome A * world)
  : outcome A * data_t * list event :=
  (fst r, written (ostr (snd r)), trace (snd r)).

(** What [decrypt] is to return, write and log for a stream made of the
    sealed [blocks], of [last] (fewer bytes than a whole chunk, possibly
    none) and of [trailer], when it appends to a sink holding [o]. *)
Definition stream_outcome `{L : Libsodium} (fc : FileCryptor) (o : data_t)
  (blocks : list data_t) (last trailer : data_t)
  : outcome unit * data_t * list event :=
  let bs := blocksize_ (cryptor fc) in
  let C := MACSIZE + bs in
  let header := header_ (cryptor fc) in
  let key := key_ (cryptor fc) in
  let n0 := nonce_ (cryptor fc) in
  let nk := increments (length blocks) n0 in
  let chunks := seal_chunks header key n0 blocks in
  let same :=
    data_eqb
      (generichash (keydata (hashkey_ fc)) (hashsize_ fc)
         (concat chunks ++ last))
      trailer in
  if (C <=? length last + hashsize_ fc) || negb (length last =? 0) then
    match aead_open header last (keydata key) nk with
    | Some pl =>
        (verdict same, o ++ concat blocks ++ pl,
         decrypt_events n0 chunks ++ [EvOpen nk last; EvUpdate last])
    | None =>
        (Throw CryptorAEAD_decrypt_failed, o ++ concat blocks,
         decrypt_events n0 chunks ++ [EvOpen nk last])
    end
  else
    (verdict same, o ++ concat blocks,
     decrypt_events n0 chunks ++
     (if hashsize_ fc =? 0 then [] else [EvNoFinalChunk])).

(** The stream [encrypt] writes for the plaintext [p]. *)
Definition ciphertext_stream `{L : Libsodium} (fc : FileCryptor) (p : data_t)
  : data_t :=
  written (ostr (snd (encrypt (start fc p)))).

(** The whole blocks of the plaintext [p]. *)
Definition whole_blocks (fc : FileCryptor) (p : data_t) : list data_t :=
  blocks_of (length p / blocksize_ (cryptor fc)) (blocksize_ (cryptor fc)) p.

(** The sealed final chunk of the stream of [p], empty when [p] ends on a
    block boundary. *)
Definition last_chunk `{L : Libsodium} (fc : FileCryptor) (p : data_t) : data_t :=
  let bs := blocksize_ (cryptor fc) in
  if length p mod bs =? 0 then []
  else CryptorAEAD_encrypt (header_ (cryptor fc))
         (skipn (bs * (length p / bs)) p) (key_ (cryptor fc))
         (increments (length p / bs) (nonce_ (cryptor fc))).

(** The digest of the sealed chunks of [p]. *)
Definition trailer_of `{L : Libsodium} (fc : FileCryptor) (p : data_t) : data_t :=
  generichash (keydata (hashkey_ fc)) (hashsize_ fc)
    (concat (seal_chunks (header_ (cryptor fc)) (key_ (cryptor fc))
               (nonce_ (cryptor fc)) (chunks_of (blocksize_ (cryptor fc)) p))).

(* ================================================================= *)
(** ** A small instance of the primitives, to run the embedding *)

Module Toy.

Definition of_N (n : N) : byte :=
  match Byte.of_N (N.modulo n 256) with
  | Some b => b
  | None => x00
  end.

Definition checksum (l : data_t) : N :=
  fold_left (fun acc b => N.modulo (acc * 31 + Byte.to_N b + 1) 256) l 7%N.

Definition tag (h c k : data_t) (n : nonce_type) : data_t :=
  let s := checksum (h ++ x00 :: k ++ x01 :: n ++ x02 :: c) in
  map (fun i => of_N (s + N.of_nat i)) (seq 0 16).

Definition seal (h p k : data_t) (n : nonce_type) : data_t := tag h p k n ++ p.

Definition open (h c k : data_t) (n : nonce_type) : option data_t :=
  if length c <? 16 then None
  else if data_eqb (firstn 16 c) (tag h (skipn 16 c) k n)
       then Some (skipn 16 c) else None.

Definition hash (k : data_t) (outlen : nat) (m : data_t) : data_t :=
  let s := checksum (k ++ x00 :: m) in
  map (fun i => of_N (s + N.of_nat (length m) + N.of_nat i)) (seq 0 outlen).

#[export] Instance sodium : Libsodium :=
  {| MACSIZE := 16; aead_seal := seal; aead_open := open;
     generichash := hash |}.

Definition key : Key := mkKey (repeat x2a 32) ReadWrite.
Definition hashkey : Key := mkKey (repeat x17 32) ReadWrite.
Definition nonce : nonce_type := repeat x00 7 ++ [xfe].

(** A [FileCryptor] whose keys are read-only. *)
Definition cryptor_of (blocksize hashsize : nat) : FileCryptor :=
  mkFileCryptor (mkStreamCryptor (Key_readonly key) nonce [] blocksize)
    (Key_readonly hashkey) hashsize.

End Toy.

(* ================================================================= *)
(** ** The one-shot wrappers of the library *)

(** One constructor per [throw] site of auth.cpp, signorpk.cpp, keypair.h
    and streamverifierpk.h. *)
Inductive wrapper_exn : Type :=
| Auth_auth_key_wrong_size
| Auth_verify_mac_wrong_size
| Auth_verify_key_wrong_size
| SignorPK_sign_failed
| SignorPK_sign_detached_failed
| SignorPK_sign_detached_wrong_signature_size
| SignorPK_verify_wrong_pubkey_size
| SignorPK_verify_too_small
| SignorPK_verify_signature
| SignorPK_verify_wrong_plaintext_size
| SignorPK_verify_detached_wrong_pubkey_size
| SignorPK_verify_detached_wrong_signature_size
| KeyPair_wrong_seed_size
| KeyPair_wrong_privkey_size
| StreamVerifierPK_wrong_key_size
| StreamVerifierPK_wrong_blocksize.

(** A call that returns a value or throws. *)
Inductive result (A : Type) : Type :=
| Returns (a : A)
| Raises (e : wrapper_exn).
Arguments Raises {A} e.

(** The functions of libsodium answer an [int] and store bytes through the
    pointers they are given.  The embedding gives a primitive that stores
    bytes the type [Z * data_t]: the answer and the bytes stored; a length
    stored through a pointer ([siglen_p], [mlen_p]) is the length of these
    bytes. *)

(** *** Auth (auth.cpp) *)

Module Auth.

Class Primitives : Type := {
  (** [Auth::KEYSIZE_AUTH] and [Auth::MACSIZE] *)
  KEYSIZE_AUTH : nat;
  MACSIZE : nat;
  (** message, key: the bytes stored at [out] *)
  crypto_auth : data_t -> data_t -> data_t;
  (** MAC, message, key: the answer *)
  crypto_auth_verify : data_t -> data_t -> data_t -> Z
}.

(** [Auth::auth] *)
Definition auth `{P : Primitives} (plaintext : data_t) (key : Key)
  : result data_t :=
  let key_size := KEYSIZE_AUTH in
  let mac_size := MACSIZE in
  if negb (length (keydata key) =? key_size)
  then Raises Auth_auth_key_wrong_size
  else
    let mac := repeat x00 mac_size in
    let mac := store mac (crypto_auth plaintext (keydata key)) in
    Returns mac.

(** [Auth::verify] *)
Definition verify `{P : Primitives} (plaintext mac : data_t) (key : Key)
  : result bool :=
  let mac_size := length mac in
  let key_size := length (keydata key) in
  if negb (mac_size =? MACSIZE) then Raises Auth_verify_mac_wrong_size
  else if negb (key_size =? KEYSIZE_AUTH) then Raises Auth_verify_key_wrong_size
  else Returns (crypto_auth_verify mac plaintext (keydata key) =? 0)%Z.

End Auth.

(** *** SignorPK (signorpk.cpp) *)

Module SignorPK.

Class Primitives : Type := {
  (** [SignorPK::SIGNATURE_SIZE] and [SignorPK::KEYSIZE_PUBKEY] *)
  SIGNATURE_SIZE : nat;
  KEYSIZE_PUBKEY : nat;
  (** message, private key: the answer and the bytes stored at [sm] *)
  crypto_sign : data_t -> data_t -> Z * data_t;
  (** message, private key: the answer and the bytes stored at [sig] *)
  crypto_sign_detached : data_t -> data_t -> Z * data_t;
  (** signed message, public key: the answer and the bytes stored at [m] *)
  crypto_sign_open : data_t -> data_t -> Z * data_t;
  (** signature, message, public key: the answer *)
  crypto_sign_verify_detached : data_t -> data_t -> data_t -> Z
}.

(** [SignorPK::sign] *)
Definition sign `{P : Primitives} (plaintext : data_t) (privkey : Key)
  : result data_t :=
  let plaintext_signed := repeat x00 (SIGNATURE_SIZE + length plaintext) in
  let (rc, sm) := crypto_sign plaintext (keydata privkey) in
  if (rc =? -1)%Z then Raises SignorPK_sign_failed
  else Returns (store plaintext_signed sm).

(** [SignorPK::sign_detached] *)
Definition sign_detached `{P : Primitives} (plaintext : data_t) (privkey : Key)
  : result data_t :=
  let signature := repeat x00 SIGNATURE_SIZE in
  let (rc, sig) := crypto_sign_detached plaintext (keydata privkey) in
  let signature_size := length sig in
  if (rc =? -1)%Z then Raises SignorPK_sign_detached_failed
  else if negb (signature_size =? SIGNATURE_SIZE)
  then Raises SignorPK_sign_detached_wrong_signature_size
  else Returns (store signature sig).

(** [SignorPK::verify] *)
Definition verify `{P : Primitives} (plaintext_with_signature pubkey : data_t)
  : result data_t :=
  if negb (length pubkey =? KEYSIZE_PUBKEY)
  then Raises SignorPK_verify_wrong_pubkey_size
  else if length plaintext_with_signature <? SIGNATURE_SIZE
  then Raises SignorPK_verify_too_small
  else
    let plaintext :=
      repeat x00 (length plaintext_with_signature - SIGNATURE_SIZE) in
    let (rc, m) := crypto_sign_open plaintext_with_signature pubkey in
    let plaintext_size := length m in
    if (rc =? -1)%Z then Raises SignorPK_verify_signature
    else if negb (plaintext_size =?
                  length plaintext_with_signature - SIGNATURE_SIZE)
    then Raises SignorPK_verify_wrong_plaintext_size
    else Returns (store plaintext m).

(** [SignorPK::verify_detached] *)
Definition verify_detached `{P : Primitives}
  (plaintext signature pubkey : data_t) : result bool :=
  if negb (length pubkey =? KEYSIZE_PUBKEY)
  then Raises SignorPK_verify_detached_wrong_pubkey_size
  else if negb (length signature =? SIGNATURE_SIZE)
  then Raises SignorPK_verify_detached_wrong_signature_size
  else Returns
         (negb (crypto_sign_verify_detached signature plaintext pubkey =? -1)%Z).

End SignorPK.

(** *** KeyPair (keypair.h) *)

Module KeyPair.

Class Primitives : Type := {
  (** [KeyPair::KEYSIZE_PUBKEY], [KEYSIZE_PRIVKEY] and [KEYSIZE_SEEDBYTES] *)
  KEYSIZE_PUBKEY : nat;
  KEYSIZE_PRIVKEY : nat;
  KEYSIZE_SEEDBYTES : nat;
  (** seed: the bytes stored at [pk] and at [sk] *)
  crypto_box_seed_keypair : data_t -> data_t * data_t;
  (** scalar: the bytes stored at [q] *)
  crypto_scalarmult_base : data_t -> data_t
}.

(** The private members of [KeyPair]. *)
Record KeyPair : Type := mkKeyPair {
  pubkey_ : data_t;
  privkey_ : Key
}.

(** The member initialisers [privkey_(false), pubkey_(KEYSIZE_PUBKEY, '\0')]
    of the three constructors.  The bytes of a key made without
    initialisation are whatever the allocation holds; the embedding takes
    zeros. *)
Definition members `{P : Primitives} : KeyPair :=
  mkKeyPair (repeat x00 KEYSIZE_PUBKEY)
    (mkKey (repeat x00 KEYSIZE_PRIVKEY) ReadWrite).

(** Stores through [privkey_.setdata()]. *)
Definition Key_setdata (k : Key) (bytes : data_t) : Key :=
  mkKey (store (keydata k) bytes) (prot k).

(** [KeyPair::KeyPair(const data_t &seed)] *)
Definition from_seed `{P : Primitives} (seed : data_t) : result KeyPair :=
  let this := members in
  if negb (length seed =? KEYSIZE_SEEDBYTES)
  then Raises KeyPair_wrong_seed_size
  else
    let (pk, sk) := crypto_box_seed_keypair seed in
    let this :=
      mkKeyPair (store (pubkey_ this) pk) (Key_setdata (privkey_ this) sk) in
    Returns (mkKeyPair (pubkey_ this) (Key_readonly (privkey_ this))).

(** [KeyPair::KeyPair(const unsigned char *privkey_data, const std::size_t
    privkey_size)]; [privkey_data] stands for the bytes from the pointer
    on. *)
Definition from_privkey `{P : Primitives} (privkey_data : data_t)
  (privkey_size : nat) : result KeyPair :=
  let this := members in
  if negb (privkey_size =? KEYSIZE_PRIVKEY)
  then Raises KeyPair_wrong_privkey_size
  else
    let this :=
      mkKeyPair (pubkey_ this)
        (Key_setdata (privkey_ this) (firstn privkey_size privkey_data)) in
    let this :=
      mkKeyPair
        (store (pubkey_ this) (crypto_scalarmult_base (keydata (privkey_ this))))
        (privkey_ this) in
    Returns (mkKeyPair (pubkey_ this) (Key_readonly (privkey_ this))).

(** [KeyPair::privkey] and [KeyPair::pubkey] *)
Definition privkey (kp : KeyPair) : Key := privkey_ kp.
Definition pubkey (kp : KeyPair) : data_t := pubkey_ kp.

End KeyPair.

(** *** StreamVerifierPK (streamverifierpk.h) *)

Module StreamVerifierPK.

(** The private members of [StreamVerifierPK]; [state_] holds the bytes
    folded into the signature state so far. *)
Record StreamVerifierPK : Type := mkStreamVerifierPK {
  pubkey_ : data_t;
  blocksize_ : nat;
  state_ : data_t
}.

(** [crypto_sign_init(&state_)] *)
Definition crypto_sign_init (v : StreamVerifierPK) : StreamVerifierPK :=
  mkStreamVerifierPK (pubkey_ v) (blocksize_ v) [].

(** [StreamVerifierPK::StreamVerifierPK(const data_t &pubkey, const
    std::size_t blocksize)]; [KEYSIZE_PUBKEY] is that of the signing keys. *)
Definition ctor `{P : SignorPK.Primitives} (pubkey : data_t) (blocksize : nat)
  : result StreamVerifierPK :=
  let this := mkStreamVerifierPK pubkey blocksize [] in
  if negb (length pubkey =? SignorPK.KEYSIZE_PUBKEY)
  then Raises StreamVerifierPK_wrong_key_size
  else if blocksize <? 1 then Raises StreamVerifierPK_wrong_blocksize
  else Returns (crypto_sign_init this).

End StreamVerifierPK.

(** *** Small instances of these primitives *)

Module ToyWrappers.

Definition accepted (ok : bool) : Z := if ok then 0%Z else (-1)%Z.

#[export] Instance auth : Auth.Primitives :=
  {| Auth.KEYSIZE_AUTH := 32;
     Auth.MACSIZE := 32;
     Auth.crypto_auth := fun m k => Toy.hash k 32 m;
     Auth.crypto_auth_verify :=
       fun mac m k => accepted (data_eqb mac (Toy.hash k 32 m)) |}.

(** A signature scheme in which the public key is the private key. *)
Definition signature (m k : data_t) : data_t := Toy.hash k 8 m.

#[export] Instance sign : SignorPK.Primitives :=
  {| SignorPK.SIGNATURE_SIZE := 8;
     SignorPK.KEYSIZE_PUBKEY := 4;
     SignorPK.crypto_sign := fun m sk => (0%Z, signature m sk ++ m);
     SignorPK.crypto_sign_detached := fun m sk => (0%Z, signature m sk);
     SignorPK.crypto_sign_open :=
       fun sm pk =>
         if data_eqb (firstn 8 sm) (signature (skipn 8 sm) pk)
         then (0%Z, skipn 8 sm) else ((-1)%Z, []);
     SignorPK.crypto_sign_verify_detached :=
       fun sig m pk => accepted (data_eqb sig (signature m pk)) |}.

#[export] Instance box : KeyPair.Primitives :=
  {| KeyPair.KEYSIZE_PUBKEY := 4;
     KeyPair.KEYSIZE_PRIVKEY := 4;
     KeyPair.KEYSIZE_SEEDBYTES := 2;
     KeyPair.crypto_box_seed_keypair :=
       fun seed => (Toy.hash (Toy.hash [] 4 seed) 4 [], Toy.hash [] 4 seed);
     KeyPair.crypto_scalarmult_base := fun sk => Toy.hash sk 4 [] |}.

Definition signing_key : Key := mkKey [x01; x02; x03; x04] ReadOnly.

End ToyWrappers.

(* ================================================================= *)
(** ** The driver of test_CryptorAEAD.cpp *)

(** [++v[0]] on a vector of bytes; the guards of the callers keep it away
    from the empty vector. *)
Definition incr_first (v : data_t) : data_t :=
  match v with
  | [] => []
  | b :: v' => byte_succ b :: v'
  end.

(** [test_of_correctness].  The key and the nonce, which the test draws at
    random, are arguments; the answer is the result together with the value
    left in [ciphertext_size].  The test makes its key inaccessible before
    the comparison, which nothing it answers depends on. *)
Definition test_of_correctness `{L : Libsodium} (key : Key) (nonce : nonce_type)
  (header plaintext : data_t) (falsify_header falsify_ciphertext : bool)
  : bool * nat :=
  let plainblob := plaintext in
  let headerblob := header in
  let ciphertext := CryptorAEAD_encrypt headerblob plainblob key nonce in
  let ciphertext :=
    if falsify_ciphertext && negb (length ciphertext =? 0)
    then incr_first ciphertext else ciphertext in
  let ciphertext_size := length ciphertext in
  let headerblob :=
    if falsify_header && negb (length headerblob =? 0)
    then incr_first headerblob else headerblob in
  match CryptorAEAD_decrypt headerblob ciphertext key nonce with
  | Ok decrypted => (data_eqb plainblob decrypted, ciphertext_size)
  | _ => (false, ciphertext_size)
  end.

(* ================================================================= *)
(** * Properties *)

(** ** Byte vectors *)

Lemma data_eqb_refl (a : data_t) : data_eqb a a = true.
Proof.
  induction a as [|x a IH]; simpl; [reflexivity|].
  rewrite IH, andb_true_r. now apply Byte.byte_dec_lb.
Qed.

Lemma data_eqb_eq (a b : data_t) : data_eqb a b = true <-> a = b.
Proof.
  split; [|intros ->; apply data_eqb_refl].
  revert b; induction a as [|x a IH]; intros [|y b]; simpl; try discriminate;
    [reflexivity|].
  intros H. apply andb_true_iff in H as [Hx Hab].
  apply Byte.byte_dec_bl in Hx. f_equal; auto.
Qed.

Lemma data_eqb_neq (a b : data_t) : data_eqb a b = false <-> a <> b.
Proof.
  destruct (data_eqb a b) eqn:E.
  - apply data_eqb_eq in E. split; [discriminate|contradiction].
  - split; [|reflexivity]. intros _ Hab. apply data_eqb_eq in Hab. congruence.
Qed.

Lemma firstn_exact {A} (a b : list A) n :
  length a = n -> firstn n (a ++ b) = a.
Proof.
  intros <-. rewrite firstn_app, firstn_all, Nat.sub_diag. simpl.
  apply app_nil_r.
Qed.

Lemma skipn_exact {A} (a b : list A) n :
  length a = n -> skipn n (a ++ b) = b.
Proof.
  intros <-. rewrite skipn_app, skipn_all, Nat.sub_diag. reflexivity.
Qed.

Lemma resize_length (v : data_t) (n : nat) : length (resize v n) = n.
Proof.
  unfold resize. rewrite length_app, length_firstn, repeat_length. lia.
Qed.

Lemma resize_firstn (v : data_t) (n : nat) :
  n <= length v -> resize v n = firstn n v.
Proof.
  intros H. unfold resize. replace (n - length v) with 0 by lia.
  simpl. apply app_nil_r.
Qed.

Lemma store_length (v got : data_t) : length (store v got) = length v.
Proof.
  unfold store. rewrite length_firstn, length_app, length_skipn. lia.
Qed.

Lemma store_whole (v got : data_t) : length got = length v -> store v got = got.
Proof.
  intros H. unfold store. rewrite skipn_all2 by lia. rewrite app_nil_r.
  rewrite <- H. apply firstn_all.
Qed.

Lemma store_prefix (v got : data_t) :
  length got <= length v -> firstn (length got) (store v got) = got.
Proof.
  intros H. unfold store. rewrite firstn_firstn.
  rewrite Nat.min_l by lia. rewrite firstn_app.
  rewrite firstn_all, Nat.sub_diag. simpl. apply app_nil_r.
Qed.

(* ================================================================= *)
(** ** The object is never written *)

Create HintDb frame.

Section Frame.
Context `{L : Libsodium}.

Lemma frames_ret {A} (a : A) : frames (ret a).
Proof. intros w; reflexivity. Qed.

Lemma frames_throw {A} (e : exn) : frames (@throw A e).
Proof. intros w; reflexivity. Qed.

Lemma frames_diverge {A} : frames (@diverge A).
Proof. intros w; reflexivity. Qed.

Lemma frames_lift {A} (o : outcome A) : frames (lift o).
Proof. intros w; reflexivity. Qed.

Lemma frames_bind {A B} (c : M A) (k : A -> M B) :
  frames c -> (forall a, frames (k a)) -> frames (bind c k).
Proof.
  intros Hc Hk w. unfold bind. specialize (Hc w).
  destruct (c w) as [[a| e |] w']; simpl in *; try assumption.
  now rewrite Hk.
Qed.

Lemma frames_this : frames this.
Proof. intros w; reflexivity. Qed.

Lemma frames_read buf n : frames (read buf n).
Proof.
  intros w. unfold read. now destruct (istream_read (istr w) buf n).
Qed.

Lemma frames_gcount : frames gcount.
Proof. intros w; reflexivity. Qed.

Lemma frames_tellg : frames tellg.
Proof. intros w. unfold tellg. now destruct (istream_tellg (istr w)). Qed.

Lemma frames_seekg_end off : frames (seekg_end off).
Proof. intros w; reflexivity. Qed.

Lemma frames_seekg_beg off : frames (seekg_beg off).
Proof. intros w; reflexivity. Qed.

Lemma frames_write bytes : frames (write bytes).
Proof. intros w; reflexivity. Qed.

Lemma frames_log e : frames (log e).
Proof. intros w; reflexivity. Qed.

Lemma frames_loop_bound : frames loop_bound.
Proof. intros w; reflexivity. Qed.

Lemma frames_resize_to v n : frames (resize_to v n).
Proof.
  unfold resize_to. destruct (n <? 0)%Z;
    [apply frames_throw | apply frames_ret].
Qed.

Hint Resolve frames_ret frames_throw frames_diverge frames_lift frames_this
  frames_read frames_gcount frames_tellg frames_seekg_end frames_seekg_beg
  frames_write frames_log frames_loop_bound frames_resize_to : frame.

(** Follows the shape of a computation down to its primitive steps. *)
Ltac frame :=
  repeat first
    [ progress auto with frame
    | apply frames_bind; [|intros]
    | match goal with
      | |- frames (if ?b then _ else _) => destruct b
      | |- frames (match ?x with _ => _ end) => destruct x
      end ].

Lemma frames_sc_aead_encrypt p n : frames (sc_aead_encrypt p n).
Proof. unfold sc_aead_encrypt. frame. Qed.

Lemma frames_sc_aead_decrypt c n : frames (sc_aead_decrypt c n).
Proof. unfold sc_aead_decrypt. frame. Qed.

Lemma frames_hash_update st c : frames (hash_update st c).
Proof. unfold hash_update. frame. Qed.

Hint Resolve frames_sc_aead_encrypt frames_sc_aead_decrypt
  frames_hash_update : frame.

Lemma frames_encrypt_loop fuel : forall st buf n,
  frames (encrypt_loop fuel st buf n).
Proof.
  induction fuel as [|fuel IH]; intros st buf n; simpl; frame.
Qed.

Lemma frames_decrypt_loop fuel : forall h st buf n cur inh,
  frames (decrypt_loop fuel h st buf n cur inh).
Proof.
  induction fuel as [|fuel IH]; intros h st buf n cur inh; simpl; frame.
Qed.

Hint Resolve frames_encrypt_loop frames_decrypt_loop : frame.

Lemma frames_encrypt_body : frames encrypt_body.
Proof. unfold encrypt_body. frame. Qed.

Lemma frames_encrypt : frames encrypt.
Proof. unfold encrypt. apply frames_bind; [apply frames_encrypt_body|frame]. Qed.

Lemma frames_decrypt_final h st buf n inh :
  frames (decrypt_final h st buf n inh).
Proof. unfold decrypt_final. frame. Qed.

Hint Resolve frames_decrypt_final : frame.

Lemma frames_decrypt : frames decrypt.
Proof. unfold decrypt. frame. Qed.

End Frame.

(** C8: neither [encrypt] nor [decrypt] changes the object.  Whatever the
    streams hold and whatever the outcome (a normal return, an exception or
    a failed write), the key, the base nonce, the blocksize and the empty
    header are afterwards what they were before; a [decrypt] run on the
    object that [encrypt] leaves behind therefore starts from the base nonce
    that [encrypt] started from. *)
Theorem stored_configuration_unchanged `{L : Libsodium} (w : world) :
  self (snd (encrypt w)) = self w /\
  self (snd (decrypt w)) = self w /\
  forall input sink log,
    let w' := mkWorld (self (snd (encrypt w))) input sink log in
    nonce_ (cryptor (self w')) = nonce_ (cryptor (self w)) /\
    key_ (cryptor (self w')) = key_ (cryptor (self w)) /\
    blocksize_ (cryptor (self w')) = blocksize_ (cryptor (self w)) /\
    header_ (cryptor (self w')) = header_ (cryptor (self w)) /\
    self (snd (decrypt w')) = self w.
Proof.
  pose proof (frames_encrypt w) as He.
  split; [exact He|]. split; [apply frames_decrypt|].
  intros input sink log w'.
  assert (Hw' : self w' = self w) by exact He.
  rewrite Hw'. repeat split.
  rewrite frames_decrypt. exact Hw'.
Qed.

(* ================================================================= *)
(** ** Construction *)



Lemma ctor_accepts_blocksize (key : Key) (nonce : nonce_type) (blocksize : nat) :
  1 <= blocksize ->
  StreamCryptor_ctor key nonce blocksize =
    Ok (mkStreamCryptor (Key_readonly (Key_copy key)) nonce [] blocksize).
Proof.
  intros Hb. unfold StreamCryptor_ctor.
  destruct (blocksize <? 1) eqn:E; [apply Nat.ltb_lt in E; lia|reflexivity].
Qed.

Lemma ctor_ok_inv (key : Key) (nonce : nonce_type) (blocksize : nat) sc :
  StreamCryptor_ctor key nonce blocksize = Ok sc ->
  1 <= blocksize /\
  sc = mkStreamCryptor (Key_readonly (Key_copy key)) nonce [] blocksize.
Proof.
  unfold StreamCryptor_ctor.
  destruct (blocksize <? 1) eqn:E; [discriminate|].
  apply Nat.ltb_ge in E. intros [= <-]. split; [exact E|reflexivity].
Qed.

(** C10: an object that the constructor returns holds its key read-only, and
    the key is still read-only after any [encrypt] and any [decrypt] run on
    that object. *)
Theorem key_stays_readonly `{L : Libsodium} (key : Key) (nonce : nonce_type)
  (blocksize : nat) (sc : StreamCryptor) :
  StreamCryptor_ctor key nonce blocksize = Ok sc ->
  prot (key_ sc) = ReadOnly /\
  forall w, cryptor (self w) = sc ->
    prot (key_ (cryptor (self (snd (encrypt w))))) = ReadOnly /\
    prot (key_ (cryptor (self (snd (decrypt w))))) = ReadOnly.
Proof.
  intros Hc. apply ctor_ok_inv in Hc as [_ ->].
  split; [reflexivity|]. intros w Hw.
  rewrite frames_encrypt, frames_decrypt, Hw. split; reflexivity.
Qed.

Lemma key_stays_readonly_witness :
  let sc := mkStreamCryptor (Key_readonly Toy.key) Toy.nonce [] 4 in
  StreamCryptor_ctor Toy.key Toy.nonce 4 = Ok sc /\
  prot (key_ sc) = ReadOnly.
Proof.
  split; [reflexivity|].
  apply (@key_stays_readonly Toy.sodium Toy.key Toy.nonce 4 _).
  reflexivity.
Defined.

(* ================================================================= *)
(** ** One chunk *)

(** C4: when the tag of a chunk does not verify, that is when the primitive
    rejects the header, chunk, key and nonce, [CryptorAEAD::decrypt] throws
    the authentication failure and answers no plaintext; inside a stream
    the failing call writes nothing to the sink. *)
Theorem decrypt_chunk_auth_failure `{L : Libsodium} (header chunk : data_t)
  (key : Key) (nonce : nonce_type) :
  aead_open header chunk (keydata key) nonce = None ->
  CryptorAEAD_decrypt header chunk key nonce = Throw CryptorAEAD_decrypt_failed /\
  classify CryptorAEAD_decrypt_failed = Some AuthFailure /\
  (forall p, CryptorAEAD_decrypt header chunk key nonce <> Ok p) /\
  forall w, header_ (cryptor (self w)) = header -> key_ (cryptor (self w)) = key ->
    fst (sc_aead_decrypt chunk nonce w) = Throw CryptorAEAD_decrypt_failed /\
    ostr (snd (sc_aead_decrypt chunk nonce w)) = ostr w.
Proof.
  intros Hopen.
  assert (Hthrow : CryptorAEAD_decrypt header chunk key nonce =
                   Throw CryptorAEAD_decrypt_failed)
    by (unfold CryptorAEAD_decrypt; now rewrite Hopen).
  split; [exact Hthrow|]. split; [reflexivity|].
  split; [intros p; rewrite Hthrow; discriminate|].
  intros w Hh Hk.
  unfold sc_aead_decrypt, bind, this, log, lift; simpl.
  rewrite Hh, Hk, Hthrow. split; reflexivity.
Qed.

Lemma decrypt_chunk_auth_failure_witness :
  let sealed := @aead_seal Toy.sodium [] [x41; x42] (keydata Toy.key) Toy.nonce in
  let tampered := x00 :: skipn 1 sealed in
  tampered <> sealed /\
  @aead_open Toy.sodium [] tampered (keydata Toy.key) Toy.nonce = None /\
  CryptorAEAD_decrypt (L := Toy.sodium) [] tampered Toy.key Toy.nonce =
    Throw CryptorAEAD_decrypt_failed.
Proof.
  intros sealed tampered.
  assert (Hopen : @aead_open Toy.sodium [] tampered (keydata Toy.key) Toy.nonce
                  = None) by (vm_compute; reflexivity).
  split; [vm_compute; discriminate|]. split; [exact Hopen|].
  exact (proj1 (@decrypt_chunk_auth_failure Toy.sodium [] tampered Toy.key
                  Toy.nonce Hopen)).
Defined.

(** A chunk cut short of its tag never verifies. *)
Lemma truncated_chunk_rejected `{LL : LibsodiumLaws} (header chunk : data_t)
  (key : Key) (nonce : nonce_type) :
  length chunk < MACSIZE ->
  CryptorAEAD_decrypt header chunk key nonce = Throw CryptorAEAD_decrypt_failed.
Proof.
  intros Hlen. unfold CryptorAEAD_decrypt.
  now rewrite aead_open_short.
Qed.

(* ================================================================= *)
(** ** The small instance satisfies the laws *)

Module ToyLaws.
Import Toy.

Lemma tag_length h c k n : length (tag h c k n) = 16.
Proof. unfold tag. now rewrite length_map, length_seq. Qed.

#[export] Instance laws : LibsodiumLaws Toy.sodium.
Proof.
  split; cbn [MACSIZE aead_seal aead_open generichash sodium].
  - lia.
  - intros. unfold seal. rewrite length_app, tag_length. reflexivity.
  - intros. unfold open, seal.
    assert (Ht := tag_length h p k n).
    rewrite length_app, Ht.
    replace (16 + length p <? 16) with false
      by (symmetry; apply Nat.ltb_ge; lia).
    rewrite (firstn_exact _ _ Ht), (skipn_exact _ _ Ht).
    now rewrite data_eqb_refl.
  - intros h c k n Hlen. unfold open.
    apply Nat.ltb_lt in Hlen. now rewrite Hlen.
  - intros. unfold hash. now rewrite length_map, length_seq.
Qed.

End ToyLaws.

(* ================================================================= *)
(** ** Single steps of the streams *)

Section Steps.
Context `{L : Libsodium}.

Lemma read_full w buf n :
  igood (istr w) = true ->
  gpos (istr w) + n <= length (content (istr w)) ->
  length buf = n ->
  read buf n w =
  (Ok (true, firstn n (skipn (gpos (istr w)) (content (istr w)))),
   mkWorld (self w)
     (mkIstream (content (istr w)) (gpos (istr w) + n) false false n)
     (ostr w) (trace w)).
Proof.
  intros Hg Hn Hb. unfold read, istream_read. rewrite Hg.
  set (got := firstn n (skipn (gpos (istr w)) (content (istr w)))).
  assert (Hgot : length got = n)
    by (unfold got; rewrite length_firstn, length_skipn; lia).
  rewrite Hgot, Nat.ltb_irrefl. simpl.
  rewrite store_whole by congruence. reflexivity.
Qed.

Lemma read_short w buf n :
  igood (istr w) = true ->
  length (skipn (gpos (istr w)) (content (istr w))) < n ->
  let rest := skipn (gpos (istr w)) (content (istr w)) in
  read buf n w =
  (Ok (false, store buf rest),
   mkWorld (self w)
     (mkIstream (content (istr w)) (gpos (istr w) + length rest) true true
        (length rest))
     (ostr w) (trace w)).
Proof.
  intros Hg Hn rest. unfold read, istream_read. rewrite Hg.
  assert (Hrest : length rest < n) by exact Hn.
  assert (Hall : firstn n rest = rest) by (apply firstn_all2; lia).
  unfold rest in Hall. rewrite Hall. fold rest.
  apply Nat.ltb_lt in Hrest. rewrite Hrest. reflexivity.
Qed.

Lemma read_failed w buf n :
  igood (istr w) = false ->
  read buf n w =
  (Ok (false, buf),
   mkWorld (self w)
     (mkIstream (content (istr w)) (gpos (istr w)) (eofbit (istr w)) true 0)
     (ostr w) (trace w)).
Proof.
  intros Hg. unfold read, istream_read. rewrite Hg. reflexivity.
Qed.

Lemma write_unbounded w bytes :
  unbounded (ostr w) ->
  write bytes w =
  (Ok true,
   mkWorld (self w) (istr w)
     (mkOstream (written (ostr w) ++ bytes) None false) (trace w)).
Proof.
  intros [Hr Hb]. unfold write, ostream_write. rewrite Hb, Hr. reflexivity.
Qed.

Lemma blocks_of_length k bs p : length (blocks_of k bs p) = k.
Proof. revert p; induction k; intros p; simpl; auto. Qed.

Lemma seal_chunks_app header key n a b :
  seal_chunks header key n (a ++ b) =
  seal_chunks header key n a ++
  seal_chunks header key (increments (length a) n) b.
Proof.
  revert n; induction a as [|x a IH]; intros n; simpl; [reflexivity|].
  now rewrite IH.
Qed.

Lemma encrypt_events_app header key n a b :
  encrypt_events header key n (a ++ b) =
  encrypt_events header key n a ++
  encrypt_events header key (increments (length a) n) b.
Proof.
  revert n; induction a as [|x a IH]; intros n; simpl; [reflexivity|].
  now rewrite IH.
Qed.

Lemma encrypt_loop_blocks k : forall fuel fc c q g o t st buf n,
  let bs := blocksize_ (cryptor fc) in
  let blocks := blocks_of k bs (skipn q c) in
  let E := concat (seal_chunks (header_ (cryptor fc)) (key_ (cryptor fc)) n blocks) in
  q + k * bs <= length c ->
  length buf = bs ->
  exists g' buf', length buf' = bs /\
  encrypt_loop (k + fuel) st buf n
    (mkWorld fc (mkIstream c q false false g) (mkOstream o None false) t) =
  encrypt_loop fuel (mkHash (hs_key st) (hs_outlen st) (hs_fed st ++ E))
    buf' (increments k n)
    (mkWorld fc (mkIstream c (q + k * bs) false false g')
       (mkOstream (o ++ E) None false)
       (t ++ encrypt_events (header_ (cryptor fc)) (key_ (cryptor fc)) n blocks)).
Proof.
  induction k as [|k IH]; intros fuel fc c q g o t st buf n bs blocks E Hq Hb.
  - exists g, buf. split; [exact Hb|]. subst E blocks. simpl.
    rewrite !app_nil_r, Nat.add_0_r. now destruct st.
  - subst E blocks. cbn [Nat.add encrypt_loop].
    unfold bind at 1. cbn [this self].
    unfold bind at 1.
    rewrite read_full; cbn [istr content gpos igood eofbit failbit negb andb]; try reflexivity; try lia; try assumption.

    cbn [self ostr trace].
    unfold sc_aead_encrypt, hash_update, log, bind, this, ret.
    cbn [self istr ostr trace].
    rewrite write_unbounded by (split; reflexivity).
    cbn [negb self istr ostr trace written].
    fold bs.
    destruct (IH fuel fc c (q + bs) bs (o ++ CryptorAEAD_encrypt (header_ (cryptor fc)) (firstn bs (skipn q c)) (key_ (cryptor fc)) n)
       ((t ++ [EvSeal n (firstn bs (skipn q c))]) ++ [EvUpdate (CryptorAEAD_encrypt (header_ (cryptor fc)) (firstn bs (skipn q c)) (key_ (cryptor fc)) n)])
       (crypto_generichash_update st (CryptorAEAD_encrypt (header_ (cryptor fc)) (firstn bs (skipn q c)) (key_ (cryptor fc)) n))
       (firstn bs (skipn q c)) (increment n)) as (g' & buf' & Hb' & Heq).
    { fold bs. simpl in Hq. lia. }
    { fold bs. rewrite length_firstn, length_skipn. simpl in Hq. lia. }
    exists g', buf'. split; [exact Hb'|].
    fold bs in Heq. rewrite Heq. clear Heq.
    cbn [blocks_of seal_chunks concat encrypt_events increments crypto_generichash_update hs_key hs_outlen hs_fed].
    rewrite skipn_skipn, (Nat.add_comm bs q).
    rewrite <- !app_assoc. cbn [app].
    replace (q + bs + k * bs) with (q + S k * bs) by (simpl; lia).
    reflexivity.
Qed.
End Steps.

Section EncryptSpec.
Context `{LL : LibsodiumLaws}.

Lemma final_digest st hs :
  crypto_generichash_final st (repeat x00 hs) =
  generichash (hs_key st) hs (hs_fed st).
Proof.
  unfold crypto_generichash_final. rewrite repeat_length.
  apply store_whole. now rewrite generichash_length, repeat_length.
Qed.

Lemma div_mod_facts len bs :
  1 <= bs ->
  len = (len / bs) * bs + len mod bs /\ len mod bs < bs.
Proof.
  intros Hbs. split.
  - rewrite Nat.mul_comm. apply Nat.div_mod_eq.
  - apply Nat.mod_upper_bound. lia.
Qed.

Lemma encrypt_body_spec fc p o t :
  let bs := blocksize_ (cryptor fc) in
  let header := header_ (cryptor fc) in
  let key := key_ (cryptor fc) in
  let nonce := nonce_ (cryptor fc) in
  let chunks := chunks_of bs p in
  let E := concat (seal_chunks header key nonce chunks) in
  1 <= bs ->
  encrypt_body
    (mkWorld fc (fresh_istream p) (mkOstream o None false) t) =
  (Ok (increments (length p / bs) nonce),
   mkWorld fc (mkIstream p (length p) true true (length p mod bs))
     (mkOstream
        (o ++ E ++ generichash (keydata (hashkey_ fc)) (hashsize_ fc) E)
        None false)
     (t ++ encrypt_events header key nonce chunks)).
Proof.
  destruct fc as [[key nonce header bs] hashkey hashsize].
  cbn [cryptor blocksize_ header_ key_ nonce_ hashkey_ hashsize_].
  intros Hbs.
  destruct (div_mod_facts (length p) Hbs) as [Hdm Hr].
  unfold chunks_of.
  set (k := length p / bs) in *. set (r := length p mod bs) in *.
  set (fc := mkFileCryptor (mkStreamCryptor key nonce header bs) hashkey hashsize).
  unfold encrypt_body. unfold bind at 1. cbn [this self].
  unfold bind at 1. cbn [loop_bound istr fresh_istream content].
  unfold bind at 1.
  replace (S (length p)) with (k + S (length p - k)) by nia.
  destruct (@encrypt_loop_blocks _ k (S (length p - k)) fc p 0 0 o t
              (crypto_generichash_init (keydata hashkey) hashsize)
              (repeat x00 bs) nonce)
    as (g' & buf' & Hb' & Heq).
  { cbn. lia. }
  { apply repeat_length. }
  cbn [fc cryptor blocksize_ header_ key_ nonce_ hashkey_ hashsize_] in Heq, Hb'.
  fold fc in Heq.
  cbn [fc cryptor blocksize_ header_ key_ nonce_ hashkey_ hashsize_].
  fold fc. unfold fresh_istream.
  rewrite Heq. clear Heq.
  cbn [skipn Nat.add hs_key hs_outlen hs_fed crypto_generichash_init app].
  set (blocks := blocks_of k bs p).
  set (Eb := concat (seal_chunks header key nonce blocks)).
  cbn [encrypt_loop]. unfold bind at 1. cbn [this self].
  unfold bind at 1.
  assert (Hrest : length (skipn (k * bs) p) = r)
    by (rewrite length_skipn; lia).
  rewrite read_short;
    cbn [istr content gpos igood eofbit failbit negb andb fc cryptor blocksize_];
    [|reflexivity|lia].
  rewrite Hrest.
  cbn [ret]. unfold bind at 1. cbn [gcount istr gcount_].
  unfold bind at 1.
  replace (k * bs + r) with (length p) by lia.
  destruct (r =? 0) eqn:Er; cbn [negb].
  - (* the input ends on a block boundary *)
    cbn [ret]. rewrite final_digest. cbn [hs_key hs_outlen hs_fed].
    cbn [self istr ostr trace hashsize_ fc]. unfold bind at 1.
    rewrite write_unbounded by (split; reflexivity).
    cbn [negb self istr ostr trace written ret].
    rewrite !app_nil_r. fold blocks Eb.
    rewrite <- app_assoc. reflexivity.
  - (* a partial block remains *)
    apply Nat.eqb_neq in Er.
    rewrite store_length, Hb'.
    replace (r =? bs) with false by (symmetry; apply Nat.eqb_neq; lia).
    cbn [negb].
    assert (Htail : resize (store buf' (skipn (k * bs) p)) r = skipn (k * bs) p).
    { rewrite resize_firstn by (rewrite store_length; lia).
      rewrite <- Hrest at 1. apply store_prefix. lia. }
    rewrite Htail.
    unfold sc_aead_encrypt, hash_update, log, bind, this, ret.
    cbn [self istr ostr trace].
    rewrite write_unbounded by (split; reflexivity).
    cbn [negb self istr ostr trace written].
    rewrite final_digest.
    cbn [crypto_generichash_update hs_key hs_outlen hs_fed].
    rewrite write_unbounded by (split; reflexivity).
    cbn [negb self istr ostr trace written
         fc cryptor blocksize_ header_ key_ nonce_ hashkey_ hashsize_].
    rewrite seal_chunks_app, encrypt_events_app, concat_app.
    replace (length blocks) with k by (symmetry; apply blocks_of_length).
    fold blocks. fold Eb.
    cbn [seal_chunks encrypt_events concat].
    rewrite (Nat.mul_comm bs k), !app_nil_r, <- !app_assoc.
    reflexivity.
Qed.
End EncryptSpec.

(* ================================================================= *)
(** ** The trailer is never opened nor folded *)

Section Trailer.
Context `{L : Libsodium}.

Lemma folded_app t1 t2 : folded (t1 ++ t2) = folded t1 ++ folded t2.
Proof.
  induction t1 as [|[] t1 IH]; simpl; auto. now rewrite IH, app_assoc.
Qed.

Lemma opened_app t1 t2 : opened (t1 ++ t2) = opened t1 ++ opened t2.
Proof.
  induction t1 as [|[] t1 IH]; simpl; auto. now rewrite IH.
Qed.

Lemma opened_bytes_app t1 t2 :
  opened_bytes (t1 ++ t2) = opened_bytes t1 ++ opened_bytes t2.
Proof.
  unfold opened_bytes. now rewrite opened_app, map_app, concat_app.
Qed.

Lemma firstn_step {A} (c : list A) p n :
  firstn p c ++ firstn n (skipn p c) = firstn (p + n) c.
Proof.
  revert c; induction p as [|p IH]; intros [|x c]; simpl;
    try rewrite firstn_nil; auto.
  now rewrite IH.
Qed.

Lemma complete_within h c t : complete h c t -> within h c t.
Proof. intros [Hf Ho]; split; exists h; auto. Qed.

Lemma write_shape w bytes :
  exists good o,
    write bytes w = (Ok good, mkWorld (self w) (istr w) o (trace w)).
Proof. unfold write. eauto. Qed.

Lemma read_shape w buf n :
  exists more buf' s,
    read buf n w = (Ok (more, buf'), mkWorld (self w) s (ostr w) (trace w)) /\
    content s = content (istr w).
Proof.
  unfold read, istream_read.
  destruct (igood (istr w)); eexists _, _, _; split; reflexivity.
Qed.

Lemma tellg_good w :
  igood (istr w) = true ->
  tellg w = (Ok (Z.of_nat (gpos (istr w))), w).
Proof.
  intros Hg. unfold tellg, istream_tellg. rewrite Hg. now destruct w.
Qed.

Lemma tellg_failed w :
  igood (istr w) = false ->
  tellg w =
  (Ok (-1)%Z,
   mkWorld (self w)
     (mkIstream (content (istr w)) (gpos (istr w)) (eofbit (istr w)) true
        (gcount_ (istr w)))
     (ostr w) (trace w)).
Proof.
  intros Hg. unfold tellg, istream_tellg. now rewrite Hg.
Qed.

Lemma bind_ok {A B} (c : M A) (k : A -> M B) w a w' :
  c w = (Ok a, w') -> bind c k w = k a w'.
Proof. intros H. unfold bind. now rewrite H. Qed.

Lemma bind_throw {A B} (c : M A) (k : A -> M B) w e w' :
  c w = (Throw e, w') -> bind c k w = (Throw e, w').
Proof. intros H. unfold bind. now rewrite H. Qed.

Lemma bind_diverge {A B} (c : M A) (k : A -> M B) w w' :
  c w = (Diverge, w') -> bind c k w = (Diverge, w').
Proof. intros H. unfold bind. now rewrite H. Qed.

Lemma sc_aead_decrypt_eq chunk n w :
  sc_aead_decrypt chunk n w =
  (CryptorAEAD_decrypt (header_ (cryptor (self w))) chunk
     (key_ (cryptor (self w))) n,
   mkWorld (self w) (istr w) (ostr w) (trace w ++ [EvOpen n chunk])).
Proof. reflexivity. Qed.

Lemma sc_aead_encrypt_eq p n w :
  sc_aead_encrypt p n w =
  (Ok (CryptorAEAD_encrypt (header_ (cryptor (self w))) p
         (key_ (cryptor (self w))) n),
   mkWorld (self w) (istr w) (ostr w) (trace w ++ [EvSeal n p])).
Proof. reflexivity. Qed.

Lemma hash_update_eq st c w :
  hash_update st c w =
  (Ok (crypto_generichash_update st c),
   mkWorld (self w) (istr w) (ostr w) (trace w ++ [EvUpdate c])).
Proof. reflexivity. Qed.

Lemma CryptorAEAD_decrypt_total h c k n :
  CryptorAEAD_decrypt h c k n <> Diverge.
Proof. unfold CryptorAEAD_decrypt. now destruct (aead_open h c (keydata k) n). Qed.

Lemma process_cases e st chunk n w :
  (exists w', process e st chunk n w =
              (Ok (crypto_generichash_update st chunk), w') /\
              self w' = self w /\ istr w' = istr w /\
              trace w' = trace w ++ [EvOpen n chunk; EvUpdate chunk]) \/
  (exists x w', process e st chunk n w = (Throw x, w') /\
                (x = CryptorAEAD_decrypt_failed \/ x = e) /\
                trace w' = trace w ++ [EvOpen n chunk]).
Proof.
  unfold process.
  destruct (CryptorAEAD_decrypt (header_ (cryptor (self w))) chunk
              (key_ (cryptor (self w))) n) as [pl|x|] eqn:E.
  - erewrite bind_ok by (rewrite sc_aead_decrypt_eq, E; reflexivity).
    cbv beta.
    match goal with |- context [bind (write pl) _ ?w1] =>
      destruct (write_shape w1 pl) as (good & o & Hw) end.
    cbn [self istr ostr trace] in Hw.
    erewrite bind_ok by exact Hw. cbv beta.
    destruct good; cbn [negb].
    + left. eexists. rewrite hash_update_eq. cbn [self istr ostr trace].
      split; [reflexivity|]. cbn. rewrite <- app_assoc. auto.
    + right. eexists _, _. unfold throw. split; [reflexivity|]. auto.
  - right. eexists _, _. split.
    + erewrite bind_throw by (rewrite sc_aead_decrypt_eq, E; reflexivity).
      reflexivity.
    + split; [|reflexivity]. left.
      unfold CryptorAEAD_decrypt in E.
      destruct (aead_open _ _ _ _); congruence.
  - now apply CryptorAEAD_decrypt_total in E.
Qed.

Lemma bind_ret_l {A B} (a : A) (k : A -> M B) : bind (ret a) k = k a.
Proof. reflexivity. Qed.

Lemma process_tail e st chunk n {B} (k : generichash_state -> M B) w :
  (plaintext <- sc_aead_decrypt chunk n ;;
   good <- write plaintext ;;
   if negb good then throw e
   else state <- hash_update st chunk ;; k state) w =
  bind (process e st chunk n) k w.
Proof.
  unfold process, bind.
  destruct (sc_aead_decrypt chunk n w) as [[pl|x|] w1]; auto.
  destruct (write pl w1) as [[[]|x|] w2]; auto.
Qed.

Lemma folded_pair n chunk : folded [EvOpen n chunk; EvUpdate chunk] = chunk.
Proof. simpl. apply app_nil_r. Qed.

Lemma opened_bytes_pair n chunk :
  opened_bytes [EvOpen n chunk; EvUpdate chunk] = chunk.
Proof. unfold opened_bytes. simpl. apply app_nil_r. Qed.

Lemma within_open h c t n chunk a b :
  a <= b -> b + length chunk <= h ->
  folded t = firstn a c -> opened_bytes t = firstn b c ->
  chunk = firstn (length chunk) (skipn b c) ->
  within h c (t ++ [EvOpen n chunk]).
Proof.
  intros Hab Hb Hf Ho Hc. split.
  - exists a. split; [lia|]. rewrite folded_app. simpl. now rewrite app_nil_r.
  - exists (b + length chunk). split; [lia|].
    rewrite opened_bytes_app, Ho. unfold opened_bytes. simpl.
    rewrite app_nil_r. rewrite Hc at 1. apply firstn_step.
Qed.

Lemma decrypt_loop_inv (hk : data_t) (ol h : nat) (c : data_t) fuel :
  forall w st ct n cur in_hash,
  h <= length c ->
  loop_head hk ol h c (MACSIZE + blocksize_ (cryptor (self w))) w st ct in_hash ->
  match decrypt_loop fuel (Z.of_nat h) st ct n cur in_hash w with
  | (Ok (st', ct', _, _, in_hash'), w') =>
      self w' = self w /\
      loop_exit hk ol h c (MACSIZE + blocksize_ (cryptor (self w))) w' st' ct' in_hash'
  | (Throw x, w') => x <> Decrypt_hash_mismatch /\ within h c (trace w')
  | (Diverge, w') => within h c (trace w')
  end.
Proof.
  induction fuel as [|fuel IH]; intros w st ct n cur in_hash Hh HJ.
  - (* out of fuel *)
    cbn [decrypt_loop diverge]. destruct HJ as (_ & _ & HJ).
    destruct in_hash.
    + now apply complete_within.
    + destruct HJ as (_ & Hp & _ & Hf & Ho). split; eexists; eauto.
  - cbn [decrypt_loop].
    erewrite bind_ok by reflexivity. cbv beta.
    set (C := MACSIZE + blocksize_ (cryptor (self w))) in *.
    destruct HJ as (Hc & Hst & HJ).
    destruct in_hash.
    + (* the trailer was reached in the turn before: the loop ends *)
      destruct (read_shape w ct C) as (more & buf' & s & Hr & Hcs).
      erewrite bind_ok by exact Hr. cbv beta iota.
      rewrite andb_false_r. cbn [ret self istr trace].
      split; [reflexivity|]. unfold loop_exit. cbn [istr trace].
      split; [congruence|]. split; assumption.
    + destruct HJ as (Hg & Hp & Hct & Hf & Ho).
      destruct (le_lt_dec (gpos (istr w) + C) (length c)) as [Hfull|Hshort].
      * (* a whole chunk is read *)
        erewrite bind_ok by (apply read_full; [assumption|rewrite Hc; lia|assumption]).
        cbv beta iota. cbn [andb negb].
        erewrite bind_ok by (apply tellg_good; reflexivity).
        cbv beta. cbn [istr gpos].
        set (p := gpos (istr w)) in *.
        set (chunk := firstn C (skipn p (content (istr w)))).
        assert (Hchunk : length chunk = C)
          by (unfold chunk; rewrite length_firstn, length_skipn, Hc; lia).
        destruct (Z.of_nat (p + C) >? Z.of_nat h)%Z eqn:Ecmp.
        -- (* the chunk runs into the trailer and is cut *)
           apply Z.gtb_lt in Ecmp.
           unfold resize_to.
           replace (Z.of_nat (length chunk) - (Z.of_nat (p + C) - Z.of_nat h) <? 0)%Z
             with false by (symmetry; apply Z.ltb_ge; lia).
           rewrite bind_ret_l. cbv beta. rewrite bind_ret_l. cbv beta iota zeta.
           replace (Z.to_nat (Z.of_nat (length chunk) - (Z.of_nat (p + C) - Z.of_nat h)))
             with (h - p) by lia.
           set (cut := resize chunk (h - p)).
           assert (Hcut : cut = firstn (h - p) (skipn p c)).
           { unfold cut. rewrite resize_firstn by lia.
             unfold chunk. rewrite firstn_firstn, Hc. f_equal. lia. }
           assert (Hlen : length cut = h - p)
             by (rewrite Hcut, length_firstn, length_skipn; lia).
           rewrite process_tail.
           match goal with |- context [bind (process ?e st cut n) _ ?w1] =>
             destruct (process_cases e st cut n w1)
               as [(w2 & Hpr & Hs & Hi & Ht)|(x & w2 & Hpr & Hx & Ht)] end.
           ++ erewrite bind_ok by exact Hpr. cbv beta.
              cbn [self istr trace] in Hs, Hi, Ht.
              specialize (IH w2 (crypto_generichash_update st cut) cut
                            (increment n) (Z.of_nat (p + C)) true Hh).
              rewrite Hs in IH. fold C in IH.
              assert (HJ2 : loop_head hk ol h c C w2 (crypto_generichash_update st cut) cut true).
              { split; [rewrite Hi; exact Hc|].
                rewrite Ht, folded_app, opened_bytes_app.
                rewrite folded_pair, opened_bytes_pair.
                rewrite Hst, Hf, Ho, Hcut. unfold crypto_generichash_update; cbn [hs_key hs_outlen hs_fed].
                rewrite firstn_step.
                replace (p + (h - p)) with h by lia. auto. }
              specialize (IH HJ2).
              destruct (decrypt_loop fuel (Z.of_nat h) _ cut (increment n) _ true w2)
                as [[[[[[st' ct'] n'] cur'] ih']|x|] w3]; exact IH.
           ++ erewrite bind_throw by exact Hpr.
              split; [destruct Hx; subst x; discriminate|].
              rewrite Ht. cbn [trace].
              apply within_open with (a := p) (b := p); auto; try lia.
              rewrite Hlen. exact Hcut.
        -- (* the chunk lies before the trailer *)
           rewrite Z.gtb_ltb in Ecmp. apply Z.ltb_ge in Ecmp.
           rewrite !bind_ret_l. cbv beta iota zeta.
           rewrite process_tail.
           match goal with |- context [bind (process ?e st chunk n) _ ?w1] =>
             destruct (process_cases e st chunk n w1)
               as [(w2 & Hpr & Hs & Hi & Ht)|(x & w2 & Hpr & Hx & Ht)] end.
           ++ erewrite bind_ok by exact Hpr. cbv beta.
              cbn [self istr trace] in Hs, Hi, Ht.
              specialize (IH w2 (crypto_generichash_update st chunk) chunk
                            (increment n) (Z.of_nat (p + C)) false Hh).
              rewrite Hs in IH. fold C in IH.
              assert (HJ2 : loop_head hk ol h c C w2 (crypto_generichash_update st chunk) chunk false).
              { split; [rewrite Hi; exact Hc|].
                rewrite Ht, folded_app, opened_bytes_app, Hi.
                rewrite folded_pair, opened_bytes_pair.
                cbn [igood eofbit failbit gpos negb andb].
                rewrite Hst, Hf, Ho. unfold crypto_generichash_update; cbn [hs_key hs_outlen hs_fed].
                unfold chunk. rewrite Hc, firstn_step.
                repeat split; auto. lia.
                rewrite length_firstn, length_skipn. lia. }
              specialize (IH HJ2).
              destruct (decrypt_loop fuel (Z.of_nat h) _ chunk (increment n) _ false w2)
                as [[[[[[st' ct'] n'] cur'] ih']|x|] w3]; exact IH.
           ++ erewrite bind_throw by exact Hpr.
              split; [destruct Hx; subst x; discriminate|].
              rewrite Ht. cbn [trace].
              apply within_open with (a := p) (b := p); auto; try lia.
              rewrite Hchunk. unfold chunk. now rewrite Hc.
      * (* the read comes short: the loop ends *)
        assert (Hrest : length (skipn (gpos (istr w)) (content (istr w))) = length c - gpos (istr w))
          by (rewrite length_skipn, Hc; lia).
        erewrite bind_ok by (apply read_short; [assumption|lia]).
        cbv beta iota. cbn [andb ret self istr trace content].
        split; [reflexivity|]. unfold loop_exit. cbn [istr trace content].
        split; [exact Hc|]. split; [exact Hst|].
        exists (gpos (istr w)).
        cbn [igood eofbit failbit gcount_ negb andb].
        rewrite store_length, Hrest.
        repeat split; auto; try lia.
        rewrite <- Hrest at 1. rewrite store_prefix by lia. now rewrite Hc.
Qed.

Lemma folded_skip t : folded (t ++ [EvNoFinalChunk]) = folded t.
Proof. rewrite folded_app. apply app_nil_r. Qed.

Lemma opened_bytes_skip t :
  opened_bytes (t ++ [EvNoFinalChunk]) = opened_bytes t.
Proof. rewrite opened_bytes_app. apply app_nil_r. Qed.

Lemma decrypt_final_inv (hk : data_t) (ol h : nat) (c : data_t)
  w st ct n in_hash :
  h <= length c ->
  hashsize_ (self w) = length c - h ->
  loop_exit hk ol h c (MACSIZE + blocksize_ (cryptor (self w))) w st ct in_hash ->
  match decrypt_final (Z.of_nat h) st ct n in_hash w with
  | (Ok st', w') =>
      self w' = self w /\ st' = mkHash hk ol (firstn h c) /\
      folded (trace w') = firstn h c /\ opened_bytes (trace w') = firstn h c
  | (Throw x, w') => x <> Decrypt_hash_mismatch /\ within h c (trace w')
  | (Diverge, w') => within h c (trace w')
  end.
Proof.
  intros Hh Hhs (Hc & Hst & HX).
  unfold decrypt_final.
  erewrite bind_ok by reflexivity. cbv beta.
  destruct in_hash; cbn [negb].
  - destruct HX as [Hf Ho]. cbn [ret]. repeat split; congruence.
  - destruct HX as (p & Hp & Hf & Ho & Hg & Hgc & Hlt & Hct & Hrest).
    erewrite bind_ok by reflexivity. cbv beta. rewrite Hgc.
    destruct (length c - p =? 0) eqn:Es; cbn [negb].
    + (* nothing was read *)
      apply Nat.eqb_eq in Es. assert (p = h) by lia. subst p.
      cbn [ret]. repeat split; congruence.
    + apply Nat.eqb_neq in Es.
      rewrite Hct.
      replace (length c - p =? MACSIZE + blocksize_ (cryptor (self w)))
        with false by (symmetry; apply Nat.eqb_neq; lia).
      cbn [negb].
      assert (Hshort : resize ct (length c - p) = skipn p c)
        by (rewrite resize_firstn by lia; exact Hrest).
      rewrite Hshort.
      erewrite bind_ok by (apply tellg_failed; exact Hg).
      cbv beta.
      replace (-1 >? Z.of_nat h)%Z with false
        by (symmetry; rewrite Z.gtb_ltb; apply Z.ltb_ge; lia).
      cbn [Z.eqb Pos.eqb].
      rewrite length_skipn, Hhs.
      match goal with |- context [bind _ _ ?w0] => set (w1 := w0) end.
      destruct (length c - h <? length c - p) eqn:Ecut.
      * (* ciphertext remains before the trailer *)
        apply Nat.ltb_lt in Ecut.
        rewrite bind_ret_l. cbv beta.
        replace (length c - p - (length c - h)) with (h - p) by lia.
        set (fin := resize (skipn p c) (h - p)).
        assert (Hfin : fin = firstn (h - p) (skipn p c))
          by (apply resize_firstn; rewrite length_skipn; lia).
        assert (Hlen : length fin = h - p)
          by (rewrite Hfin, length_firstn, length_skipn; lia).
        destruct fin as [|x fin'] eqn:Efin; [simpl in Hlen; lia|].
        rewrite <- Efin in *. clear Efin x fin'.
        change (match process Decrypt_write_final_chunk st fin n w1 with
                | (Ok st', w') =>
                    self w' = self w /\ st' = mkHash hk ol (firstn h c) /\
                    folded (trace w') = firstn h c /\
                    opened_bytes (trace w') = firstn h c
                | (Throw x, w') =>
                    x <> Decrypt_hash_mismatch /\ within h c (trace w')
                | (Diverge, w') => within h c (trace w')
                end).
        destruct (process_cases Decrypt_write_final_chunk st fin n w1)
          as [(w2 & Hpr & Hs & Hi & Ht)|(x & w2 & Hpr & Hx & Ht)];
          rewrite Hpr.
        -- cbn [self trace w1] in Hs, Ht.
           rewrite Ht, folded_app, opened_bytes_app.
           rewrite folded_pair, opened_bytes_pair.
           rewrite Hst, Hf, Ho, Hfin. unfold crypto_generichash_update; cbn [hs_key hs_outlen hs_fed].
           rewrite firstn_step.
           replace (p + (h - p)) with h by lia. auto.
        -- split; [destruct Hx; subst x; discriminate|].
           cbn [trace w1] in Ht. rewrite Ht.
           apply within_open with (a := p) (b := p); auto; try lia.
           rewrite Hlen. exact Hfin.
      * (* only the trailer was read *)
        apply Nat.ltb_ge in Ecut. assert (p = h) by lia. subst p.
        rewrite bind_ret_l. cbv beta iota.
        erewrite bind_ok by reflexivity. cbn [ret self trace w1].
        rewrite folded_skip, opened_bytes_skip.
        repeat split; congruence.
Qed.

Lemma within_nil h c : within h c [].
Proof. split; exists 0; split; try lia; reflexivity. Qed.

Lemma within_firstn h c t :
  h <= length c -> within h c t ->
  (exists a, opened_bytes t = firstn a (firstn h c)) /\
  (exists a, folded t = firstn a (firstn h c)).
Proof.
  intros Hh [(a & Ha & Hf) (b & Hb & Ho)]. split.
  - exists b. rewrite firstn_firstn, Nat.min_l by lia. exact Ho.
  - exists a. rewrite firstn_firstn, Nat.min_l by lia. exact Hf.
Qed.

(** What [decrypt] does to the bytes of its input, whatever they are. *)
Lemma decrypt_regions fc s o :
  regions (keydata (hashkey_ fc)) (hashsize_ fc) (content s)
    (decrypt (mkWorld fc s o [])).
Proof.
  set (h := length (content s) - hashsize_ fc).
  assert (Hstop : forall (x : exn) w',
    x <> Decrypt_hash_mismatch -> within h (content s) (trace w') ->
    regions (keydata (hashkey_ fc)) (hashsize_ fc) (content s)
      (@Throw unit x, w')).
  { intros x w' Hx Hw. split; [exact Hw|].
    cbn [fst]. intros [|[=]]; [discriminate|contradiction]. }
  assert (Hdiv : forall w', within h (content s) (trace w') ->
    regions (keydata (hashkey_ fc)) (hashsize_ fc) (content s)
      (@Diverge unit, w')).
  { intros w' Hw. split; [exact Hw|]. intros [|]; discriminate. }
  unfold decrypt.
  erewrite bind_ok by reflexivity. cbv beta zeta. cbn [self].
  destruct s as [c0 p0 e0 f0 g0]. cbn [content] in *.
  erewrite bind_ok by reflexivity. cbv beta.
  unfold istream_seekg_end, istream_seekg_to.
  cbn [self istr ostr trace failbit content gpos gcount_].
  destruct f0.
  { (* the stream had failed before *)
    cbn [failbit negb throw]. apply Hstop; [discriminate|apply within_nil]. }
  destruct (Z.of_nat (length c0) + - Z.of_nat (hashsize_ fc) <? 0)%Z eqn:Eneg.
  { (* the input is shorter than a trailer *)
    cbn [failbit negb throw]. apply Hstop; [discriminate|apply within_nil]. }
  apply Z.ltb_ge in Eneg.
  assert (Hh : h <= length c0) by (unfold h; lia).
  assert (Hhs : hashsize_ fc = length c0 - h) by (unfold h; lia).
  replace (Z.to_nat (Z.of_nat (length c0) + - Z.of_nat (hashsize_ fc)))
    with h by (unfold h; lia).
  cbn [failbit negb].
  erewrite bind_ok by (apply tellg_good; reflexivity).
  cbv beta. cbn [istr gpos].
  rewrite repeat_length.
  erewrite bind_ok
    by (apply read_full; cbn [self istr content gpos];
        [reflexivity|lia|apply repeat_length]).
  cbv beta iota. cbn [negb istr content gpos self ostr trace].
  rewrite bind_ret_l.
  erewrite bind_ok by reflexivity. cbv beta.
  cbn [seekg_beg istream_seekg_beg istream_seekg_to istr self ostr trace
       failbit content gpos gcount_ Z.ltb Z.compare Z.to_nat].
  erewrite bind_ok by (apply tellg_good; reflexivity).
  cbv beta. cbn [istr gpos].
  erewrite bind_ok by reflexivity. cbv beta.
  cbn [istr content].
  set (saved := firstn (hashsize_ fc) (skipn h c0)).
  assert (Hsaved : saved = skipn h c0).
  { unfold saved. apply firstn_all2. rewrite length_skipn. lia. }
  match goal with |- context [bind (decrypt_loop ?fuel ?hp ?st ?ct ?n ?cur ?ih) _ ?w1] =>
    pose proof (@decrypt_loop_inv (keydata (hashkey_ fc)) (hashsize_ fc)
                  h c0 fuel w1 st ct n cur ih Hh) as Hloop;
    set (w1' := w1) in * end.
  cbn [self w1'] in Hloop.
  assert (HJ : loop_head (keydata (hashkey_ fc)) (hashsize_ fc) h c0
                 (MACSIZE + blocksize_ (cryptor fc)) w1'
                 (crypto_generichash_init (keydata (hashkey_ fc)) (hashsize_ fc))
                 (repeat x00 (MACSIZE + blocksize_ (cryptor fc))) false).
  { unfold loop_head, w1'. cbn. rewrite repeat_length.
    repeat split; auto; try lia. }
  specialize (Hloop HJ). clear HJ.
  unfold bind at 1.
  destruct (decrypt_loop _ _ _ _ _ _ _ w1')
    as [[[[[[st' ct'] n'] cur'] ih']|x|] w2]; [| |now apply Hdiv].
  2:{ (* an exception inside the loop *)
    now apply Hstop. }
  destruct Hloop as [Hs2 Hexit].
  pose proof (@decrypt_final_inv (keydata (hashkey_ fc)) (hashsize_ fc)
                h c0 w2 st' ct' n' ih' Hh) as Hfin.
  rewrite Hs2 in Hfin. specialize (Hfin Hhs Hexit).
  unfold bind at 1.
  destruct (decrypt_final (Z.of_nat h) st' ct' n' ih' w2) as [[st''|x|] w3];
    [| |now apply Hdiv].
  2:{ now apply Hstop. }
  destruct Hfin as (Hs3 & Hfed & Hf & Ho).
  assert (Hwithin : within h c0 (trace w3))
    by (apply complete_within; split; assumption).
  rewrite Hfed. unfold regions. fold h. rewrite <- Hsaved.
  destruct (data_eqb _ saved); cbn [negb throw ret fst snd];
    (split; [exact Hwithin|]); intros _;
    (split; [exact Hf|split; [exact Ho|]]); split; auto; discriminate.
Qed.
End Trailer.

(* ================================================================= *)
(** ** The loops end within their bound *)

Section Termination.
Context `{L : Libsodium}.

(** What a read does to the position, whatever the state of the stream. *)
Lemma read_progress w buf n :
  exists more buf' s,
    read buf n w = (Ok (more, buf'), mkWorld (self w) s (ostr w) (trace w)) /\
    content s = content (istr w) /\
    (more = true ->
     gpos s = gpos (istr w) + n /\
     n <= length (content (istr w)) - gpos (istr w)).
Proof.
  unfold read, istream_read.
  destruct (igood (istr w)) eqn:Hg.
  - set (got := firstn n (skipn (gpos (istr w)) (content (istr w)))).
    destruct (length got <? n) eqn:Eshort; eexists _, _, _;
      (split; [reflexivity|]); cbn [content failbit negb];
      (split; [reflexivity|]); intros Hm; try discriminate.
    apply Nat.ltb_ge in Eshort.
    assert (Hlen : length got <= n) by (unfold got; apply firstn_le_length).
    assert (Hrest : length got <= length (content (istr w)) - gpos (istr w))
      by (unfold got; rewrite length_firstn, length_skipn; lia).
    cbn [gpos]. split; lia.
  - eexists _, _, _. split; [reflexivity|]. split; [reflexivity|].
    cbn [failbit negb]. discriminate.
Qed.

Lemma tellg_shape w :
  exists p s,
    tellg w = (Ok p, mkWorld (self w) s (ostr w) (trace w)) /\
    content s = content (istr w) /\ gpos s = gpos (istr w) /\
    (igood s = true -> igood (istr w) = true).
Proof.
  destruct (igood (istr w)) eqn:Hg.
  - exists (Z.of_nat (gpos (istr w))), (istr w).
    rewrite tellg_good by exact Hg. destruct w; auto.
  - eexists _, _. rewrite tellg_failed by exact Hg.
    split; [reflexivity|]. unfold igood. cbn [content gpos eofbit failbit negb].
    rewrite andb_false_r. repeat split. discriminate.
Qed.

Lemma frames_ok {A} (c : M A) w a w' :
  frames c -> c w = (Ok a, w') -> self w' = self w.
Proof. intros Hc Hw. specialize (Hc w). now rewrite Hw in Hc. Qed.

Lemma bind_total {A B} (c : M A) (k : A -> M B) w :
  fst (c w) <> Diverge ->
  (forall a w', c w = (Ok a, w') -> fst (k a w') <> Diverge) ->
  fst (bind c k w) <> Diverge.
Proof.
  intros Hc Hk. unfold bind.
  destruct (c w) as [[a|x|] w']; cbn [fst] in *;
    [now apply Hk|discriminate|contradiction].
Qed.

Lemma process_total e st chunk n w :
  fst (process e st chunk n w) <> Diverge.
Proof.
  destruct (process_cases e st chunk n w)
    as [(w' & Hp & _)|(x & w' & Hp & _)]; rewrite Hp; discriminate.
Qed.

(** The loop of [encrypt] ends within its bound. *)
Lemma encrypt_loop_total fuel : forall w st buf n,
  1 <= blocksize_ (cryptor (self w)) ->
  length (content (istr w)) - gpos (istr w) < fuel ->
  fst (encrypt_loop fuel st buf n w) <> Diverge.
Proof.
  induction fuel as [|fuel IH]; intros w st buf n Hbs Hfuel; [lia|].
  cbn [encrypt_loop].
  erewrite bind_ok by reflexivity. cbv beta.
  destruct (read_progress w buf (blocksize_ (cryptor (self w))))
    as (more & buf' & s & Hr & Hcs & Hmore).
  erewrite bind_ok by exact Hr. cbv beta iota.
  destruct more; [|discriminate].
  destruct (Hmore eq_refl) as (Hp & Hn).
  erewrite bind_ok by apply sc_aead_encrypt_eq. cbv beta zeta.
  cbn [self istr ostr trace].
  match goal with |- context [bind (write ?b) _ ?w1] =>
    destruct (write_shape w1 b) as (good & o & Hw) end.
  erewrite bind_ok by exact Hw. cbv beta. cbn [self istr ostr trace].
  destruct good; cbn [negb]; [|discriminate].
  erewrite bind_ok by apply hash_update_eq. cbv beta.
  apply IH; cbn [self istr]; [exact Hbs|]. rewrite Hcs, Hp. lia.
Qed.

(** [encrypt] returns or throws on every input and every sink. *)
Lemma encrypt_total w :
  1 <= blocksize_ (cryptor (self w)) ->
  fst (encrypt w) <> Diverge.
Proof.
  intros Hbs. unfold encrypt, encrypt_body.
  apply bind_total; [|discriminate].
  erewrite bind_ok by reflexivity. cbv beta zeta.
  erewrite bind_ok by reflexivity. cbv beta.
  apply bind_total; [apply encrypt_loop_total; [exact Hbs|lia]|].
  intros [[st buf] n] w1 _.
  erewrite bind_ok by reflexivity. cbv beta.
  apply bind_total.
  - destruct (negb _); [|discriminate].
    erewrite bind_ok by apply sc_aead_encrypt_eq. cbv beta.
    match goal with |- context [bind (write ?b) _ ?w2] =>
      destruct (write_shape w2 b) as (good & o & Hw) end.
    erewrite bind_ok by exact Hw. cbv beta.
    destruct good; discriminate.
  - intros st' w2 _.
    destruct (write_shape w2
      (crypto_generichash_final st' (repeat x00 (hashsize_ (self w)))))
      as (good & o & Hw).
    erewrite bind_ok by exact Hw. cbv beta.
    destruct good; discriminate.
Qed.

(** The loop of [decrypt] ends within its bound. *)
Lemma decrypt_loop_total fuel : forall w h st ct n cur in_hash,
  1 <= MACSIZE + blocksize_ (cryptor (self w)) ->
  length (content (istr w)) - gpos (istr w) < fuel ->
  fst (decrypt_loop fuel h st ct n cur in_hash w) <> Diverge.
Proof.
  induction fuel as [|fuel IH]; intros w h st ct n cur in_hash HC Hfuel;
    [lia|].
  cbn [decrypt_loop].
  erewrite bind_ok by reflexivity. cbv beta.
  destruct (read_progress w ct (MACSIZE + blocksize_ (cryptor (self w))))
    as (more & buf' & s & Hr & Hcs & Hmore).
  erewrite bind_ok by exact Hr. cbv beta iota.
  destruct more; [|discriminate].
  destruct in_hash; [discriminate|]. cbn [andb negb].
  destruct (Hmore eq_refl) as (Hp & Hn).
  apply bind_total.
  { match goal with |- context [tellg ?w1] =>
      destruct (tellg_shape w1) as (p & s' & Ht & _) end.
    rewrite Ht. discriminate. }
  intros cur' w1 H1.
  assert (Hw1 : self w1 = self w /\ content (istr w1) = content (istr w) /\
                gpos (istr w1) = gpos s).
  { match type of H1 with tellg ?w0 = _ =>
      destruct (tellg_shape w0) as (p & s' & Ht & Hc' & Hp' & _) end.
    rewrite Ht in H1. injection H1 as _ <-. cbn [self istr] in *.
    repeat split; congruence. }
  clear H1. destruct Hw1 as (Hs1 & Hc1 & Hp1).
  assert (Hturn : forall (B : Type) chunk
            (k : generichash_state -> M B),
            (forall st1 w2, self w2 = self w1 -> istr w2 = istr w1 ->
                            fst (k st1 w2) <> Diverge) ->
            fst ((plaintext <- sc_aead_decrypt chunk n ;;
                  good <- write plaintext ;;
                  if negb good then throw Decrypt_write_full_chunk
                  else state <- hash_update st chunk ;; k state) w1)
            <> Diverge).
  { intros B chunk k Hk. rewrite process_tail.
    destruct (process_cases Decrypt_write_full_chunk st chunk n w1)
      as [(w2 & Hpr & Hs & Hi & _)|(x & w2 & Hpr & _)].
    - erewrite bind_ok by exact Hpr. now apply Hk.
    - erewrite bind_throw by exact Hpr. discriminate. }
  assert (Hnext : forall st1 ct1 ih1 w2,
            self w2 = self w1 -> istr w2 = istr w1 ->
            fst (decrypt_loop fuel h st1 ct1 (increment n) cur' ih1 w2)
            <> Diverge).
  { intros st1 ct1 ih1 w2 Hs Hi.
    apply IH; rewrite ?Hs, ?Hi, ?Hs1, ?Hc1, ?Hp1, ?Hp; [exact HC|lia]. }
  destruct (cur' >? h)%Z.
  - apply bind_total.
    + apply bind_total; [|discriminate].
      unfold resize_to. destruct (_ <? 0)%Z; discriminate.
    + intros [ct1 ih1] w2 H2.
      assert (Hw2 : self w2 = self w1 /\ istr w2 = istr w1).
      { unfold resize_to in H2. destruct (_ <? 0)%Z; [discriminate|].
        rewrite bind_ret_l in H2. now injection H2 as _ _ <-. }
      destruct Hw2 as [Hs2 Hi2].
      rewrite process_tail.
      destruct (process_cases Decrypt_write_full_chunk st ct1 n w2)
        as [(w3 & Hpr & Hs & Hi & _)|(x & w3 & Hpr & _)].
      * erewrite bind_ok by exact Hpr. apply Hnext; congruence.
      * erewrite bind_throw by exact Hpr. discriminate.
  - rewrite bind_ret_l. cbv beta iota zeta.
    apply Hturn. intros st1 w2 Hs Hi. now apply Hnext.
Qed.

Lemma decrypt_final_total h st ct n in_hash w :
  fst (decrypt_final h st ct n in_hash w) <> Diverge.
Proof.
  unfold decrypt_final.
  erewrite bind_ok by reflexivity. cbv beta.
  destruct in_hash; cbn [negb]; [discriminate|].
  erewrite bind_ok by reflexivity. cbv beta.
  destruct (negb _); [|discriminate].
  apply bind_total.
  - destruct (tellg_shape w) as (p & s & Ht & _). rewrite Ht. discriminate.
  - intros cur w1 _. apply bind_total.
    + destruct (cur >? h)%Z.
      * unfold resize_to. destruct (_ <? 0)%Z; discriminate.
      * destruct (cur =? -1)%Z; [destruct (_ <? _)|]; discriminate.
    + intros [|x c] w2 _.
      * erewrite bind_ok by reflexivity. discriminate.
      * apply process_total.
Qed.

(** [decrypt] returns or throws on every input and every sink: the bound
    of its loop is never the reason for its answer. *)
Lemma decrypt_total w :
  1 <= MACSIZE + blocksize_ (cryptor (self w)) ->
  fst (decrypt w) <> Diverge.
Proof.
  intros HC. unfold decrypt.
  erewrite bind_ok by reflexivity. cbv beta zeta.
  erewrite bind_ok by reflexivity. cbv beta.
  destruct (negb _); [discriminate|].
  match goal with |- context [bind tellg _ ?w0] => set (w1 := w0) end.
  assert (Hs1 : self w1 = self w) by reflexivity.
  clearbody w1.
  apply bind_total.
  { destruct (tellg_shape w1) as (p & s & Ht & _). rewrite Ht. discriminate. }
  intros hash_pos w2 H2. apply frames_ok in H2; [|apply frames_tellg].
  apply bind_total.
  { match goal with |- context [read ?b ?n w2] =>
      destruct (read_progress w2 b n) as (m & b' & s & Hr & _) end.
    rewrite Hr. discriminate. }
  intros [whole saved] w3 H3. apply frames_ok in H3; [|apply frames_read].
  apply bind_total.
  { destruct whole; cbn [negb]; [discriminate|].
    erewrite bind_ok by reflexivity. destruct (_ && _); discriminate. }
  intros [] w4 H4.
  assert (Hs4 : self w4 = self w3).
  { destruct whole; cbn [negb] in H4; [now injection H4 as <-|].
    erewrite bind_ok in H4 by reflexivity.
    destruct (_ && _); [discriminate|now injection H4 as <-]. }
  clear H4.
  apply bind_total; [discriminate|].
  intros b w5 H5. apply frames_ok in H5; [|apply frames_seekg_beg].
  apply bind_total.
  { destruct (tellg_shape w5) as (p & s & Ht & _). rewrite Ht. discriminate. }
  intros cur w6 H6. apply frames_ok in H6; [|apply frames_tellg].
  apply bind_total; [discriminate|].
  intros fuel w7 H7. injection H7 as <- <-.
  apply bind_total.
  - apply decrypt_loop_total; [congruence|lia].
  - intros [[[[st' ct'] n'] cur'] ih'] w8 _.
    apply bind_total; [apply decrypt_final_total|].
    intros st'' w9 _. destruct (negb _); discriminate.
Qed.
End Termination.

(* ================================================================= *)
(** ** Decrypting a stream of sealed chunks *)

Section DecryptStream.
Context `{LL : LibsodiumLaws}.

Lemma seal_chunks_length header key n l :
  length (seal_chunks header key n l) = length l.
Proof. revert n; induction l; intros n; simpl; auto. Qed.

Lemma blocks_of_whole k bs : forall p,
  k * bs <= length p ->
  Forall (fun b => length b = bs) (blocks_of k bs p).
Proof.
  induction k as [|k IH]; intros p Hk; simpl; constructor.
  - rewrite length_firstn. simpl in Hk. lia.
  - apply IH. rewrite length_skipn. simpl in Hk. lia.
Qed.

Lemma blocks_of_concat k bs : forall p,
  k * bs <= length p ->
  concat (blocks_of k bs p) = firstn (k * bs) p.
Proof.
  induction k as [|k IH]; intros p Hk; simpl; [reflexivity|].
  rewrite IH by (rewrite length_skipn; simpl in Hk; lia).
  apply firstn_step with (p := bs).
Qed.

Lemma sealed_length header key bs : forall blocks n,
  Forall (fun b => length b = bs) blocks ->
  length (concat (seal_chunks header key n blocks)) =
  length blocks * (MACSIZE + bs).
Proof.
  induction blocks as [|b blocks IH]; intros n Hb; simpl; [reflexivity|].
  inversion Hb; subst.
  rewrite length_app, IH by assumption.
  unfold CryptorAEAD_encrypt. rewrite aead_seal_length. lia.
Qed.

(** The loop opens the whole chunks that lie before the trailer. *)
Lemma decrypt_loop_blocks (h : nat) (c : data_t) blocks :
  forall fuel fc q g o t st ct n cur rest,
  let bs := blocksize_ (cryptor fc) in
  let C := MACSIZE + bs in
  let chunks := seal_chunks (header_ (cryptor fc)) (key_ (cryptor fc)) n blocks in
  Forall (fun b => length b = bs) blocks ->
  skipn q c = concat chunks ++ rest ->
  q + length blocks * C <= h ->
  length ct = C ->
  exists g' ct' cur', length ct' = C /\
  decrypt_loop (length blocks + fuel) (Z.of_nat h) st ct n cur false
    (mkWorld fc (mkIstream c q false false g) (mkOstream o None false) t) =
  decrypt_loop fuel (Z.of_nat h)
    (mkHash (hs_key st) (hs_outlen st) (hs_fed st ++ concat chunks))
    ct' (increments (length blocks) n) cur' false
    (mkWorld fc (mkIstream c (q + length blocks * C) false false g')
       (mkOstream (o ++ concat blocks) None false)
       (t ++ decrypt_events n chunks)).
Proof.
  induction blocks as [|b blocks IH];
    intros fuel fc q g o t st ct n cur rest bs C chunks Hb Hskip Hq Hct.
  - exists g, ct, cur. split; [exact Hct|]. subst chunks. simpl.
    rewrite !app_nil_r, Nat.add_0_r. now destruct st.
  - subst chunks. inversion Hb as [|? ? Hlen Hb']; subst.
    cbn [length Nat.add decrypt_loop seal_chunks concat] in *.
    set (sealed := CryptorAEAD_encrypt (header_ (cryptor fc)) b (key_ (cryptor fc)) n) in *.
    assert (Hsl : length sealed = C)
      by (unfold sealed, CryptorAEAD_encrypt; rewrite aead_seal_length, Hlen;
          reflexivity).
    assert (Hc : length (skipn q c) >= C)
      by (rewrite Hskip, !length_app; lia).
    rewrite length_skipn in Hc.
    assert (HC : 1 <= C) by (pose proof MACSIZE_pos; unfold C; lia).
    erewrite bind_ok by reflexivity. cbv beta. cbn [self].
    fold bs. fold C.
    erewrite bind_ok
      by (apply read_full; cbn [istr content gpos igood eofbit failbit negb andb];
          [reflexivity|lia|assumption]).
    cbv beta iota. cbn [andb negb istr content gpos self ostr trace].
    rewrite Hskip, <- app_assoc, (firstn_exact _ _ Hsl).
    erewrite bind_ok by (apply tellg_good; reflexivity).
    cbv beta. cbn [istr gpos].
    replace (Z.of_nat (q + C) >? Z.of_nat h)%Z with false
      by (symmetry; rewrite Z.gtb_ltb; apply Z.ltb_ge; lia).
    rewrite bind_ret_l. cbv beta iota zeta.
    assert (Hopen : CryptorAEAD_decrypt (header_ (cryptor fc)) sealed
                      (key_ (cryptor fc)) n = Ok b)
      by (unfold CryptorAEAD_decrypt, sealed, CryptorAEAD_encrypt;
          now rewrite aead_open_seal).
    erewrite bind_ok
      by (rewrite sc_aead_decrypt_eq; cbn [self]; rewrite Hopen; reflexivity).
    cbv beta. cbn [self istr ostr trace].
    erewrite bind_ok by (apply write_unbounded; split; reflexivity).
    cbv beta. cbn [negb self istr ostr trace written].
    erewrite bind_ok by reflexivity. cbv beta.
    cbn [self istr ostr trace].
    destruct (IH fuel fc (q + C) C (o ++ b)
                ((t ++ [EvOpen n sealed]) ++ [EvUpdate sealed])
                (crypto_generichash_update st sealed) sealed (increment n)
                (Z.of_nat (q + C)) rest Hb')
      as (g' & ct' & cur' & Hct' & Heq).
    { rewrite Nat.add_comm, <- skipn_skipn, Hskip, <- app_assoc.
      apply (skipn_exact _ _ Hsl). }
    { fold bs C. lia. }
    { exact Hsl. }
    exists g', ct', cur'. split; [exact Hct'|].
    fold bs C in Heq. rewrite Heq. clear Heq.
    cbn [crypto_generichash_update hs_key hs_outlen hs_fed decrypt_events increments].
    rewrite <- !app_assoc. cbn [app].
    replace (q + C + length blocks * C) with (q + (C + length blocks * C)) by lia.
    reflexivity.
Qed.

Lemma sc_aead_decrypt_eq_bind {B} chunk n (k : data_t -> M B) w :
  bind (sc_aead_decrypt chunk n) k w =
  match aead_open (header_ (cryptor (self w))) chunk
          (keydata (key_ (cryptor (self w)))) n with
  | Some pl =>
      k pl (mkWorld (self w) (istr w) (ostr w) (trace w ++ [EvOpen n chunk]))
  | None =>
      (Throw CryptorAEAD_decrypt_failed,
       mkWorld (self w) (istr w) (ostr w) (trace w ++ [EvOpen n chunk]))
  end.
Proof.
  unfold bind. rewrite sc_aead_decrypt_eq. unfold CryptorAEAD_decrypt.
  now destruct (aead_open _ chunk _ n).
Qed.

Lemma match_nonempty {A B} (l : list A) (a b : B) :
  l <> [] -> match l with [] => a | _ :: _ => b end = b.
Proof. destruct l; [contradiction|reflexivity]. Qed.

Lemma compare_digests st hs saved w :
  (if negb (data_eqb (crypto_generichash_final st (repeat x00 hs)) saved)
   then throw Decrypt_hash_mismatch else ret tt) w =
  (verdict (data_eqb (generichash (hs_key st) hs (hs_fed st)) saved), w).
Proof.
  rewrite final_digest. now destruct (data_eqb _ saved).
Qed.

Lemma decrypt_stream fc blocks last trailer o :
  let bs := blocksize_ (cryptor fc) in
  let chunks :=
    seal_chunks (header_ (cryptor fc)) (key_ (cryptor fc))
      (nonce_ (cryptor fc)) blocks in
  Forall (fun b => length b = bs) blocks ->
  length last < MACSIZE + bs ->
  length trailer = hashsize_ fc ->
  observe
    (decrypt (mkWorld fc (fresh_istream (concat chunks ++ last ++ trailer))
                (mkOstream o None false) [])) =
  stream_outcome fc o blocks last trailer.
Proof.
  destruct fc as [[key n0 header bs] hashkey hs].
  cbn [cryptor blocksize_ header_ key_ nonce_ hashkey_ hashsize_].
  set (fc := mkFileCryptor (mkStreamCryptor key n0 header bs) hashkey hs).
  set (C := MACSIZE + bs).
  set (chunks := seal_chunks header key n0 blocks).
  set (E := concat chunks).
  set (nk := increments (length blocks) n0).
  set (c := E ++ last ++ trailer).
  intros Hb Hlast Htr.
  set (expected := stream_outcome fc o blocks last trailer).
  pose proof MACSIZE_pos as Hmac.
  assert (HC : 1 <= C) by (unfold C; lia).
  assert (HE : length E = length blocks * C)
    by (apply sealed_length; exact Hb).
  set (h := length E + length last).
  assert (Hc : length c = h + hs)
    by (unfold c, h; rewrite !length_app; lia).
  unfold decrypt.
  erewrite bind_ok by reflexivity. cbv beta zeta.
  cbn [self fc cryptor blocksize_ header_ key_ nonce_ hashkey_ hashsize_].
  fold fc C.
  erewrite bind_ok by reflexivity. cbv beta.
  unfold istream_seekg_end, istream_seekg_to, fresh_istream.
  cbn [self istr ostr trace failbit content gpos gcount_].
  fold c.
  replace (Z.of_nat (length c) + - Z.of_nat hs <? 0)%Z with false
    by (symmetry; apply Z.ltb_ge; lia).
  replace (Z.to_nat (Z.of_nat (length c) + - Z.of_nat hs)) with h by lia.
  cbn [failbit negb].
  erewrite bind_ok by (apply tellg_good; reflexivity).
  cbv beta. cbn [istr gpos].
  rewrite repeat_length.
  erewrite bind_ok
    by (apply read_full; cbn [self istr content gpos];
        [reflexivity|lia|apply repeat_length]).
  cbv beta iota. cbn [negb istr content gpos self ostr trace].
  rewrite bind_ret_l.
  erewrite bind_ok by reflexivity. cbv beta.
  cbn [seekg_beg istream_seekg_beg istream_seekg_to istr self ostr trace
       failbit content gpos gcount_ Z.ltb Z.compare Z.to_nat].
  erewrite bind_ok by (apply tellg_good; reflexivity).
  cbv beta. cbn [istr gpos].
  erewrite bind_ok by reflexivity. cbv beta.
  cbn [istr content].
  assert (Hsaved : firstn hs (skipn h c) = trailer).
  { unfold c, h. rewrite app_assoc, skipn_exact by (rewrite length_app; lia).
    rewrite <- Htr. apply firstn_all. }
  rewrite Hsaved.
  (* the whole chunks *)
  destruct (@decrypt_loop_blocks h c blocks (S (length c) - length blocks)
              fc 0 hs o [] (crypto_generichash_init (keydata hashkey) hs)
              (repeat x00 C) n0 (Z.of_nat 0) (last ++ trailer))
    as (g' & ct' & cur' & Hct' & Heq).
  { exact Hb. }
  { reflexivity. }
  { cbn [fc cryptor blocksize_]. fold C. lia. }
  { apply repeat_length. }
  replace (length blocks + (S (length c) - length blocks)) with (S (length c))
    in Heq by nia.
  cbn [fc cryptor blocksize_ header_ key_ nonce_ hashkey_ hashsize_]
    in Heq, Hct'.
  fold C in Hct'.
  fold fc C chunks E nk in Heq.
  unfold bind at 1. rewrite Heq. clear Heq.
  cbn [crypto_generichash_init hs_key hs_outlen hs_fed app Nat.add].
  rewrite <- HE.
  assert (Hskip : skipn (length E) c = last ++ trailer)
    by (unfold c; now apply skipn_exact).
  assert (Hfuel : S (length c) - length blocks = S (length c - length blocks))
    by nia.
  rewrite Hfuel. cbn [decrypt_loop].
  erewrite bind_ok by reflexivity. cbv beta. cbn [self fc cryptor blocksize_].
  fold fc C.
  unfold expected, stream_outcome.
  cbn [fc cryptor blocksize_ header_ key_ nonce_ hashkey_ hashsize_].
  fold C chunks E nk.
  destruct (C <=? length last + hs) eqn:Ein; cbn [orb].
  - (* the last read is whole: the trailer is reached inside the loop *)
    apply Nat.leb_le in Ein.
    erewrite bind_ok
      by (apply read_full; cbn [istr content gpos igood eofbit failbit negb andb];
          [reflexivity|lia|assumption]).
    cbv beta iota. cbn [andb negb istr content gpos self ostr trace].
    erewrite bind_ok by (apply tellg_good; reflexivity).
    cbv beta. cbn [istr gpos].
    replace (Z.of_nat (length E + C) >? Z.of_nat h)%Z with true
      by (symmetry; apply Z.gtb_lt; unfold h; lia).
    unfold resize_to.
    rewrite length_firstn, length_skipn.
    replace (Z.of_nat (Nat.min C (length c - length E)) -
             (Z.of_nat (length E + C) - Z.of_nat h) <? 0)%Z
      with false by (symmetry; apply Z.ltb_ge; unfold h; lia).
    rewrite bind_ret_l. cbv beta. rewrite bind_ret_l. cbv beta iota zeta.
    replace (Z.to_nat (Z.of_nat (Nat.min C (length c - length E)) -
                       (Z.of_nat (length E + C) - Z.of_nat h)))
      with (length last) by (unfold h; lia).
    assert (Hcut : resize (firstn C (skipn (length E) c)) (length last) = last).
    { rewrite resize_firstn by (rewrite length_firstn, length_skipn; lia).
      rewrite firstn_firstn, Nat.min_l by lia.
      rewrite Hskip. now apply firstn_exact. }
    rewrite Hcut.
    rewrite sc_aead_decrypt_eq_bind.
    cbn [self istr ostr trace fc cryptor header_ key_].
    destruct (aead_open header last (keydata key) nk) as [pl|];
      [|reflexivity].
    erewrite bind_ok by (apply write_unbounded; split; reflexivity).
    cbv beta. cbn [negb self istr ostr trace written].
    erewrite bind_ok by reflexivity. cbv beta.
    cbn [self istr ostr trace].
    assert (Hmore : length c - length blocks = S (length c - length blocks - 1))
      by nia.
    rewrite Hmore. cbn [decrypt_loop].
    erewrite bind_ok by reflexivity. cbv beta.
    match goal with |- context [bind (read ?b ?n) _ ?w1] =>
      destruct (read_shape w1 b n) as (more & buf' & s' & Hr & _) end.
    erewrite bind_ok by exact Hr. cbv beta iota.
    rewrite andb_false_r. unfold ret at 1. cbv beta iota.
    cbn [self istr ostr trace].
    unfold decrypt_final at 1.
    erewrite bind_ok by (erewrite bind_ok by reflexivity; reflexivity).
    cbv beta. rewrite compare_digests.
    unfold observe, crypto_generichash_update.
    cbn [fst snd self istr ostr trace written hs_key hs_outlen hs_fed].
    now rewrite <- !app_assoc.
  - (* the last read comes short: the trimming is done after the loop *)
    apply Nat.leb_gt in Ein.
    assert (Hrest : length (skipn (length E) c) = length last + hs)
      by (rewrite Hskip, length_app; lia).
    erewrite bind_ok
      by (apply read_short; cbn [istr content gpos igood eofbit failbit negb andb];
          [reflexivity|lia]).
    cbv beta iota. cbn [andb istr content gpos self ostr trace].
    unfold ret at 1. cbv beta iota.
    unfold decrypt_final at 1.
    rewrite Hrest, Hskip.
    unfold bind at 1.
    erewrite bind_ok by reflexivity. cbv beta. cbn [negb].
    erewrite bind_ok by reflexivity. cbv beta. cbn [istr gcount_].
    destruct (length last + hs =? 0) eqn:Es; cbn [negb].
    + (* neither ciphertext nor trailer *)
      apply Nat.eqb_eq in Es.
      assert (Hl : length last = 0) by lia.
      assert (Hhs0 : hs = 0) by lia.
      apply length_zero_iff_nil in Hl. subst last.
      unfold ret at 1. cbv beta iota. rewrite compare_digests.
      replace (hs =? 0) with true by (rewrite Hhs0; reflexivity).
      unfold observe.
      cbn [length Nat.eqb negb fst snd ostr written trace hs_key hs_fed].
      now rewrite !app_nil_r.
    + apply Nat.eqb_neq in Es.
      rewrite store_length, Hct'.
      replace (length last + hs =? C) with false
        by (symmetry; apply Nat.eqb_neq; lia).
      cbn [negb].
      assert (Hshort : resize (store ct' (last ++ trailer)) (length last + hs) =
                       last ++ trailer).
      { rewrite resize_firstn by (rewrite store_length; lia).
        replace (length last + hs) with (length (last ++ trailer))
          by (rewrite length_app; lia).
        apply store_prefix. rewrite length_app. lia. }
      rewrite Hshort.
      erewrite bind_ok by (apply tellg_failed; reflexivity).
      cbv beta. cbn [self istr ostr trace content gpos eofbit gcount_].
      replace (-1 >? Z.of_nat h)%Z with false
        by (symmetry; rewrite Z.gtb_ltb; apply Z.ltb_ge; lia).
      cbn [Z.eqb Pos.eqb fc hashsize_].
      rewrite length_app, Htr.
      destruct (Nat.eq_dec (length last) 0) as [Hl|Hl].
      * (* only the trailer was read *)
        apply length_zero_iff_nil in Hl. subst last.
        cbn [length Nat.add]. rewrite Nat.ltb_irrefl.
        rewrite bind_ret_l. cbv beta iota.
        erewrite bind_ok by reflexivity.
        unfold ret at 1. cbv beta iota. rewrite compare_digests.
        cbn [length Nat.add] in Es. apply Nat.eqb_neq in Es. rewrite Es.
        unfold observe.
        cbn [length Nat.eqb negb fst snd ostr written trace hs_key hs_fed].
        now rewrite !app_nil_r.
      * (* ciphertext remains before the trailer *)
        replace (hs <? length last + hs) with true
          by (symmetry; apply Nat.ltb_lt; lia).
        rewrite bind_ret_l. cbv beta.
        replace (length last + hs - hs) with (length last) by lia.
        rewrite resize_firstn by (rewrite length_app; lia).
        rewrite firstn_exact by reflexivity.
        replace (negb (length last =? 0)) with true
          by (symmetry; apply negb_true_iff, Nat.eqb_neq; exact Hl).
        rewrite match_nonempty
          by (intros ->; apply Hl; reflexivity).
        rewrite sc_aead_decrypt_eq_bind.
        cbn [self istr ostr trace fc cryptor header_ key_].
        destruct (aead_open header last (keydata key) nk) as [pl|];
          [|reflexivity].
        erewrite bind_ok by (apply write_unbounded; split; reflexivity).
        cbv beta. cbn [negb self istr ostr trace written].
        rewrite hash_update_eq. cbv iota. rewrite compare_digests.
        unfold observe, crypto_generichash_update.
        cbn [fst snd self istr ostr trace written hs_key hs_outlen hs_fed].
        now rewrite <- !app_assoc.
Qed.
End DecryptStream.

(* ================================================================= *)
(** ** Streams written by [encrypt] *)

Section Streams.
Context `{LL : LibsodiumLaws}.

Lemma encrypt_spec fc p :
  let bs := blocksize_ (cryptor fc) in
  let header := header_ (cryptor fc) in
  let key := key_ (cryptor fc) in
  let nonce := nonce_ (cryptor fc) in
  let chunks := chunks_of bs p in
  let E := concat (seal_chunks header key nonce chunks) in
  1 <= bs ->
  encrypt (start fc p) =
  (Ok tt,
   mkWorld fc (mkIstream p (length p) true true (length p mod bs))
     (mkOstream (E ++ generichash (keydata (hashkey_ fc)) (hashsize_ fc) E)
        None false)
     (encrypt_events header key nonce chunks)).
Proof.
  intros bs header key nonce chunks E Hbs.
  unfold encrypt, start, fresh_ostream.
  erewrite bind_ok by (apply encrypt_body_spec; exact Hbs).
  reflexivity.
Qed.

Lemma ciphertext_stream_eq fc p :
  let chunks :=
    seal_chunks (header_ (cryptor fc)) (key_ (cryptor fc))
      (nonce_ (cryptor fc)) (chunks_of (blocksize_ (cryptor fc)) p) in
  1 <= blocksize_ (cryptor fc) ->
  ciphertext_stream fc p =
  concat chunks ++
  generichash (keydata (hashkey_ fc)) (hashsize_ fc) (concat chunks).
Proof.
  intros chunks Hbs. unfold ciphertext_stream.
  now rewrite encrypt_spec.
Qed.

Lemma sealed_encrypt_events header key n l :
  sealed (encrypt_events header key n l) = with_nonces n l.
Proof. revert n; induction l; intros n; simpl; [|rewrite IHl]; auto. Qed.

Lemma with_nonces_nth n0 l : forall i n chunk,
  nth_error (with_nonces n0 l) i = Some (n, chunk) ->
  n = increments i n0 /\ nth_error l i = Some chunk.
Proof.
  revert n0; induction l as [|b l IH]; intros n0 [|i] n chunk; simpl;
    try discriminate.
  - intros [= <- <-]. auto.
  - apply IH.
Qed.

Lemma with_nonces_length n l : length (with_nonces n l) = length l.
Proof. revert n; induction l; intros n; simpl; auto. Qed.

Lemma chunks_of_length bs p :
  length (chunks_of bs p) =
  length p / bs + (if length p mod bs =? 0 then 0 else 1).
Proof.
  unfold chunks_of. rewrite length_app, blocks_of_length.
  now destruct (length p mod bs =? 0).
Qed.

Lemma seal_chunks_nth header key : forall l n i,
  i < length l ->
  nth i (seal_chunks header key n l) [] =
  CryptorAEAD_encrypt header (nth i l []) key (increments i n).
Proof.
  induction l as [|b l IH]; intros n [|i] Hi; simpl in *; try lia; auto.
  apply IH. lia.
Qed.

Lemma blocks_of_nth bs : forall k p i,
  k * bs <= length p -> i < k ->
  length (nth i (blocks_of k bs p) []) = bs.
Proof.
  intros k p i Hk Hi.
  pose proof (blocks_of_whole k bs p Hk) as Hall.
  rewrite Forall_forall in Hall. apply Hall, nth_In.
  now rewrite blocks_of_length.
Qed.

Lemma chunks_of_concat bs p : 1 <= bs -> concat (chunks_of bs p) = p.
Proof.
  intros Hbs. destruct (div_mod_facts (length p) Hbs) as [Hdm Hr].
  unfold chunks_of. rewrite concat_app, blocks_of_concat by lia.
  destruct (length p mod bs =? 0) eqn:E.
  - apply Nat.eqb_eq in E. simpl. rewrite app_nil_r.
    apply firstn_all2. lia.
  - simpl. rewrite app_nil_r, (Nat.mul_comm bs). apply firstn_skipn.
Qed.

Lemma sealed_chunks_split fc p :
  concat (seal_chunks (header_ (cryptor fc)) (key_ (cryptor fc))
            (nonce_ (cryptor fc)) (chunks_of (blocksize_ (cryptor fc)) p)) =
  concat (seal_chunks (header_ (cryptor fc)) (key_ (cryptor fc))
            (nonce_ (cryptor fc)) (whole_blocks fc p)) ++ last_chunk fc p.
Proof.
  unfold chunks_of, whole_blocks, last_chunk.
  rewrite seal_chunks_app, concat_app, blocks_of_length.
  destruct (length p mod blocksize_ (cryptor fc) =? 0); simpl;
    now rewrite ?app_nil_r.
Qed.

Lemma whole_blocks_whole fc p :
  1 <= blocksize_ (cryptor fc) ->
  Forall (fun b => length b = blocksize_ (cryptor fc)) (whole_blocks fc p).
Proof.
  intros Hbs. apply blocks_of_whole.
  destruct (div_mod_facts (length p) Hbs). lia.
Qed.

Lemma last_chunk_length fc p :
  1 <= blocksize_ (cryptor fc) ->
  length (last_chunk fc p) =
  if length p mod blocksize_ (cryptor fc) =? 0 then 0
  else MACSIZE + length p mod blocksize_ (cryptor fc).
Proof.
  intros Hbs. destruct (div_mod_facts (length p) Hbs) as [Hdm Hr].
  unfold last_chunk.
  destruct (length p mod blocksize_ (cryptor fc) =? 0); [reflexivity|].
  unfold CryptorAEAD_encrypt. rewrite aead_seal_length, length_skipn.
  f_equal. lia.
Qed.

(** [decrypt] on what [encrypt] wrote. *)
Lemma decrypt_ciphertext_stream fc p :
  1 <= blocksize_ (cryptor fc) ->
  observe (decrypt (start fc (ciphertext_stream fc p))) =
  stream_outcome fc [] (whole_blocks fc p) (last_chunk fc p)
    (trailer_of fc p).
Proof.
  intros Hbs. destruct (div_mod_facts (length p) Hbs) as [Hdm Hr].
  rewrite ciphertext_stream_eq by exact Hbs.
  fold (trailer_of fc p).
  rewrite sealed_chunks_split, <- app_assoc.
  apply decrypt_stream.
  - now apply whole_blocks_whole.
  - rewrite last_chunk_length by exact Hbs.
    destruct (length p mod blocksize_ (cryptor fc) =? 0);
      pose proof MACSIZE_pos; lia.
  - apply generichash_length.
Qed.

Lemma whole_blocks_concat fc p :
  1 <= blocksize_ (cryptor fc) ->
  length p mod blocksize_ (cryptor fc) = 0 ->
  concat (whole_blocks fc p) = p.
Proof.
  intros Hbs Hr. destruct (div_mod_facts (length p) Hbs) as [Hdm _].
  unfold whole_blocks. rewrite blocks_of_concat by lia.
  apply firstn_all2. lia.
Qed.

(** Away from the one case below, [decrypt] returns what [encrypt] read. *)
Lemma roundtrip_away_from_boundary fc p :
  1 <= blocksize_ (cryptor fc) ->
  length p mod blocksize_ (cryptor fc) <> 0 \/
  hashsize_ fc < MACSIZE + blocksize_ (cryptor fc) ->
  let r := decrypt (start fc (ciphertext_stream fc p)) in
  fst r = Ok tt /\ written (ostr (snd r)) = p.
Proof.
  intros Hbs Hcase r.
  pose proof (decrypt_ciphertext_stream fc p Hbs) as Hrun.
  fold r in Hrun. unfold observe in Hrun.
  destruct (div_mod_facts (length p) Hbs) as [Hdm Hr].
  unfold stream_outcome in Hrun.
  rewrite last_chunk_length in Hrun by exact Hbs.
  assert (Hsame : data_eqb
            (generichash (keydata (hashkey_ fc)) (hashsize_ fc)
               (concat (seal_chunks (header_ (cryptor fc)) (key_ (cryptor fc))
                          (nonce_ (cryptor fc)) (whole_blocks fc p)) ++
                last_chunk fc p))
            (trailer_of fc p) = true).
  { unfold trailer_of. rewrite sealed_chunks_split. apply data_eqb_refl. }
  rewrite Hsame in Hrun. cbn [verdict] in Hrun.
  destruct (length p mod blocksize_ (cryptor fc) =? 0) eqn:Er.
  - (* the plaintext ends on a block boundary *)
    apply Nat.eqb_eq in Er. destruct Hcase as [Hcase|Hcase]; [lia|].
    replace (MACSIZE + blocksize_ (cryptor fc) <=? 0 + hashsize_ fc)
      with false in Hrun by (symmetry; apply Nat.leb_gt; lia).
    cbn [orb Nat.eqb negb] in Hrun.
    injection Hrun as Hres Hout _.
    split; [exact Hres|]. rewrite Hout. simpl.
    now apply whole_blocks_concat.
  - (* a partial block closes the plaintext *)
    apply Nat.eqb_neq in Er.
    replace (MACSIZE + length p mod blocksize_ (cryptor fc) =? 0)
      with false in Hrun
      by (symmetry; apply Nat.eqb_neq; pose proof MACSIZE_pos; lia).
    rewrite orb_true_r in Hrun.
    unfold last_chunk in Hrun at 1.
    replace (length p mod blocksize_ (cryptor fc) =? 0) with false in Hrun
      by (symmetry; now apply Nat.eqb_neq).
    unfold CryptorAEAD_encrypt in Hrun at 1.
    unfold whole_blocks in Hrun at 1. rewrite blocks_of_length in Hrun.
    rewrite aead_open_seal in Hrun.
    injection Hrun as Hres Hout _.
    split; [exact Hres|]. rewrite Hout. simpl.
    unfold whole_blocks. rewrite blocks_of_concat by lia.
    rewrite (Nat.mul_comm (blocksize_ (cryptor fc))). apply firstn_skipn.
Qed.

Lemma removelast_seal_chunks header key : forall l n,
  removelast (seal_chunks header key n l) =
  seal_chunks header key n (removelast l).
Proof.
  induction l as [|b l IH]; intros n; [reflexivity|].
  destruct l as [|b' l]; [reflexivity|].
  cbn [seal_chunks removelast] in *. now rewrite IH.
Qed.

Lemma Forall_removelast {A} (P : A -> Prop) l :
  Forall P l -> Forall P (removelast l).
Proof.
  induction 1 as [|x l Hx Hl IH]; [constructor|].
  destruct l; simpl; [constructor|]. constructor; assumption.
Qed.

Lemma chunks_of_removelast_whole fc p :
  1 <= blocksize_ (cryptor fc) ->
  Forall (fun b => length b = blocksize_ (cryptor fc))
    (removelast (chunks_of (blocksize_ (cryptor fc)) p)).
Proof.
  intros Hbs. pose proof (whole_blocks_whole fc p Hbs) as Hw.
  unfold chunks_of. fold (whole_blocks fc p).
  destruct (length p mod blocksize_ (cryptor fc) =? 0).
  - rewrite app_nil_r. now apply Forall_removelast.
  - now rewrite removelast_last.
Qed.

(** [decrypt] on a stream whose last chunk was removed. *)
Lemma decrypt_truncated_stream fc p :
  let bs := blocksize_ (cryptor fc) in
  let chunks :=
    seal_chunks (header_ (cryptor fc)) (key_ (cryptor fc))
      (nonce_ (cryptor fc)) (chunks_of bs p) in
  1 <= bs ->
  observe (decrypt (start fc (drop_last_chunk chunks (trailer_of fc p)))) =
  stream_outcome fc [] (removelast (chunks_of bs p)) [] (trailer_of fc p).
Proof.
  intros bs chunks Hbs. unfold drop_last_chunk, chunks.
  rewrite removelast_seal_chunks.
  apply (@decrypt_stream _ _ fc (removelast (chunks_of bs p)) []
           (trailer_of fc p) []).
  - now apply chunks_of_removelast_whole.
  - pose proof MACSIZE_pos. simpl. lia.
  - apply generichash_length.
Qed.

Lemma no_final_chunk_app t1 t2 :
  no_final_chunk (t1 ++ t2) = no_final_chunk t1 || no_final_chunk t2.
Proof. induction t1 as [|[] t1 IH]; simpl; auto. Qed.

Lemma no_final_chunk_decrypt_events n l :
  no_final_chunk (decrypt_events n l) = false.
Proof. revert n; induction l; intros n; simpl; auto. Qed.

Lemma opened_decrypt_events n l :
  opened (decrypt_events n l) = with_nonces n l.
Proof. revert n; induction l; intros n; simpl; [|rewrite IHl]; auto. Qed.

(** With a trailer as long as a whole chunk, the stream of a plaintext that
    ends on a block boundary is read as one more whole chunk, cut to no
    bytes, and handed to [CryptorAEAD::decrypt]. *)
Lemma decrypt_at_block_boundary fc p :
  1 <= blocksize_ (cryptor fc) ->
  length p mod blocksize_ (cryptor fc) = 0 ->
  MACSIZE + blocksize_ (cryptor fc) <= hashsize_ fc ->
  observe (decrypt (start fc (ciphertext_stream fc p))) =
  (Throw CryptorAEAD_decrypt_failed, p,
   decrypt_events (nonce_ (cryptor fc))
     (seal_chunks (header_ (cryptor fc)) (key_ (cryptor fc))
        (nonce_ (cryptor fc)) (whole_blocks fc p)) ++
   [EvOpen (increments (length p / blocksize_ (cryptor fc))
              (nonce_ (cryptor fc))) []]).
Proof.
  intros Hbs Hr Hhs.
  rewrite decrypt_ciphertext_stream by exact Hbs.
  unfold stream_outcome, last_chunk. rewrite Hr.
  cbn [Nat.eqb length Nat.add].
  replace (MACSIZE + blocksize_ (cryptor fc) <=? hashsize_ fc) with true
    by (symmetry; now apply Nat.leb_le).
  cbn [orb]. rewrite aead_open_short by (apply MACSIZE_pos).
  unfold whole_blocks at 3. rewrite blocks_of_length.
  cbn [app]. now rewrite whole_blocks_concat.
Qed.
End Streams.

(* ================================================================= *)
(** ** The claims about whole streams *)

(** C2, as the code has it: for a blocksize of at least 1, [encrypt] returns
    normally and writes the sealed chunks followed by the digest of these
    chunks; there are [len / blocksize] whole chunks of [MACSIZE + blocksize]
    bytes each, followed, only when [len mod blocksize] is not 0, by one
    final chunk of [MACSIZE + len mod blocksize] bytes; the output is as long
    as the chunks together plus [hashsize]; an empty input gives the digest
    alone. *)
Theorem encrypt_chunking `{LL : LibsodiumLaws} (fc : FileCryptor) (p : data_t) :
  let bs := blocksize_ (cryptor fc) in
  let k := length p / bs in
  let r := length p mod bs in
  let chunks :=
    seal_chunks (header_ (cryptor fc)) (key_ (cryptor fc))
      (nonce_ (cryptor fc)) (chunks_of bs p) in
  1 <= bs ->
  fst (encrypt (start fc p)) = Ok tt /\
  ciphertext_stream fc p = concat chunks ++ trailer_of fc p /\
  length (trailer_of fc p) = hashsize_ fc /\
  length chunks = k + (if r =? 0 then 0 else 1) /\
  (forall i, i < k -> length (nth i chunks []) = MACSIZE + bs) /\
  (r <> 0 -> length (nth k chunks []) = MACSIZE + r) /\
  length (ciphertext_stream fc p) =
    list_sum (map (@length byte) chunks) + hashsize_ fc /\
  (p = [] -> ciphertext_stream fc p = trailer_of fc p).
Proof.
  intros bs k r chunks Hbs.
  destruct (div_mod_facts (length p) Hbs) as [Hdm Hr]. fold bs k r in Hdm, Hr.
  assert (Hlen : length (chunks_of bs p) = k + (if r =? 0 then 0 else 1))
    by apply chunks_of_length.
  assert (Hstream : ciphertext_stream fc p = concat chunks ++ trailer_of fc p)
    by (apply ciphertext_stream_eq; exact Hbs).
  assert (Htr : length (trailer_of fc p) = hashsize_ fc)
    by apply generichash_length.
  split; [now rewrite encrypt_spec|].
  split; [exact Hstream|]. split; [exact Htr|].
  split; [unfold chunks; now rewrite seal_chunks_length|].
  split; [|split; [|split]].
  - intros i Hi. unfold chunks.
    rewrite seal_chunks_nth by (rewrite Hlen; lia).
    unfold CryptorAEAD_encrypt. rewrite aead_seal_length. f_equal.
    unfold chunks_of. rewrite app_nth1 by (now rewrite blocks_of_length).
    apply blocks_of_nth; [fold k; lia|exact Hi].
  - intros Hr0. unfold chunks.
    assert (Er : (r =? 0) = false) by now apply Nat.eqb_neq.
    rewrite seal_chunks_nth by (rewrite Hlen, Er; lia).
    unfold CryptorAEAD_encrypt. rewrite aead_seal_length. f_equal.
    unfold chunks_of. fold k r. rewrite Er.
    rewrite app_nth2 by (rewrite blocks_of_length; lia).
    rewrite blocks_of_length, Nat.sub_diag. cbn [nth].
    rewrite length_skipn. lia.
  - rewrite Hstream, length_app, Htr, length_concat. reflexivity.
  - intros ->. rewrite Hstream. unfold chunks, chunks_of.
    cbn [length]. rewrite Nat.Div0.div_0_l, Nat.Div0.mod_0_l. reflexivity.
Qed.

Lemma encrypt_chunking_witness :
  let fc := Toy.cryptor_of 4 32 in
  1 <= 4 /\
  length (ciphertext_stream (L := Toy.sodium) fc
            [x41; x42; x43; x44; x45; x46; x47; x48; x49]) =
    (16 + 4) + (16 + 4) + (16 + 1) + 32.
Proof.
  split; [lia|].
  pose proof (@encrypt_chunking Toy.sodium ToyLaws.laws (Toy.cryptor_of 4 32)
                [x41; x42; x43; x44; x45; x46; x47; x48; x49]) as H.
  cbv zeta in H. specialize (H ltac:(vm_compute; lia)).
  destruct H as (_ & _ & _ & _ & _ & _ & H & _).
  rewrite H. vm_compute. reflexivity.
Defined.

(** C2, as stated, fails on the empty input and on an input of two whole
    blocks: the code seals no chunk for the first (the output is the
    32-byte digest alone, where one bare tag of 16 bytes and the digest are
    announced) and two chunks for the second (where three are announced). *)
Lemma encrypt_emits_no_bare_tag_chunk :
  let fc := Toy.cryptor_of 4 32 in
  let p8 := [x41; x42; x43; x44; x45; x46; x47; x48] in
  let chunks_for p :=
    length (sealed (trace (snd (encrypt (L := Toy.sodium) (start fc p))))) in
  chunks_for [] = 0 /\
  chunks_for [] <> announced_chunks 0 4 /\
  length (ciphertext_stream (L := Toy.sodium) fc []) = 32 /\
  length (ciphertext_stream (L := Toy.sodium) fc []) <>
    @MACSIZE Toy.sodium + hashsize_ fc /\
  chunks_for p8 = 2 /\
  chunks_for p8 <> announced_chunks 8 4.
Proof. vm_compute. repeat split; discriminate. Qed.

Lemma seal_chunks_aead `{L : Libsodium} header key : forall l n,
  seal_chunks header key n l = aead_chunks header (keydata key) n l.
Proof.
  induction l as [|b l IH]; intros n; simpl; [reflexivity|].
  now rewrite IH.
Qed.

Lemma aead_chunks_nth `{L : Libsodium} header keybytes : forall l n i,
  i < length l ->
  nth i (aead_chunks header keybytes n l) [] =
  aead_seal header (nth i l []) keybytes (increments i n).
Proof.
  induction l as [|b l IH]; intros n [|i] Hi; simpl in *; try lia; auto.
  apply IH. lia.
Qed.

(** C5, as amended: with a blocksize of at least 1, the stream [encrypt]
    writes is made of the chunks that the AEAD construction answers, the
    i-th, counting from 0, for the i-th chunk of the plaintext under the
    base nonce incremented i times, followed by the digest of these chunks;
    the calls of the chunk codec are made in this order with these nonces.
    The running nonce with which the method returns is the base nonce
    incremented once per whole block.  When a partial block closes the
    plaintext, the final chunk is made under this very nonce, which is not
    incremented after it.  When the plaintext ends on a block boundary
    there is no final chunk: every chunk is a whole one, followed by its
    increment, and the last value of the running nonce seals nothing. *)
Theorem nonce_discipline `{LL : LibsodiumLaws} (fc : FileCryptor) (p : data_t) :
  let bs := blocksize_ (cryptor fc) in
  let n0 := nonce_ (cryptor fc) in
  let header := header_ (cryptor fc) in
  let keybytes := keydata (key_ (cryptor fc)) in
  let k := length p / bs in
  let chunks := chunks_of bs p in
  let r := encrypt_body (start fc p) in
  1 <= bs ->
  fst r = Ok (increments k n0) /\
  sealed (trace (snd r)) = with_nonces n0 chunks /\
  (forall i n chunk,
     nth_error (sealed (trace (snd r))) i = Some (n, chunk) ->
     n = increments i n0) /\
  length (sealed (trace (snd r))) =
    k + (if length p mod bs =? 0 then 0 else 1) /\
  written (ostr (snd r)) =
    concat (aead_chunks header keybytes n0 chunks) ++
    generichash (keydata (hashkey_ fc)) (hashsize_ fc)
      (concat (aead_chunks header keybytes n0 chunks)) /\
  (forall i, i < length chunks ->
     nth i (aead_chunks header keybytes n0 chunks) [] =
     aead_seal header (nth i chunks []) keybytes (increments i n0)) /\
  (length p mod bs <> 0 ->
   length chunks = S k /\
   nth k (aead_chunks header keybytes n0 chunks) [] =
   aead_seal header (skipn (bs * k) p) keybytes (increments k n0)) /\
  (length p mod bs = 0 -> length chunks = k).
Proof.
  intros bs n0 header keybytes k chunks r Hbs. subst r.
  unfold start, fresh_ostream.
  rewrite encrypt_body_spec by exact Hbs.
  cbn [fst snd trace ostr written app]. rewrite sealed_encrypt_events.
  rewrite seal_chunks_aead. fold bs n0 header keybytes chunks.
  assert (Hlen : length chunks =
                 k + (if length p mod bs =? 0 then 0 else 1))
    by apply chunks_of_length.
  split; [reflexivity|]. split; [reflexivity|]. split; [|split; [|split]].
  - intros i n chunk Hnth. now apply with_nonces_nth in Hnth.
  - rewrite with_nonces_length. exact Hlen.
  - reflexivity.
  - split; [|split].
    + intros i Hi. now apply aead_chunks_nth.
    + intros Hrem.
      assert (Er : (length p mod bs =? 0) = false) by now apply Nat.eqb_neq.
      rewrite Er in Hlen.
      split; [lia|].
      rewrite aead_chunks_nth by lia. f_equal.
      unfold chunks, chunks_of. fold k. rewrite Er.
      rewrite app_nth2 by (rewrite blocks_of_length; lia).
      rewrite blocks_of_length, Nat.sub_diag. reflexivity.
    + intros Hrem. rewrite Hrem in Hlen. cbn [Nat.eqb] in Hlen. lia.
Qed.

Lemma nonce_discipline_witness :
  let fc := Toy.cryptor_of 4 32 in
  let p := [x41; x42; x43; x44; x45; x46; x47; x48; x49] in
  1 <= 4 /\
  fst (encrypt_body (L := Toy.sodium) (start fc p)) =
    Ok (increments 2 Toy.nonce) /\
  map fst (sealed (trace (snd (encrypt_body (L := Toy.sodium) (start fc p))))) =
    [Toy.nonce; increments 1 Toy.nonce; increments 2 Toy.nonce].
Proof.
  split; [lia|].
  pose proof (@nonce_discipline Toy.sodium ToyLaws.laws (Toy.cryptor_of 4 32)
                [x41; x42; x43; x44; x45; x46; x47; x48; x49]) as H.
  cbv zeta in H. specialize (H ltac:(vm_compute; lia)).
  destruct H as (H1 & H2 & _).
  split; [exact H1|]. rewrite H2. reflexivity.
Defined.

(** C5, as stated, fails on a plaintext that ends on a block boundary.  With
    a blocksize of 4 the stream of eight bytes is made of two whole chunks
    and the digest.  The last chunk of the stream is made under the base
    nonce incremented once, and the running nonce is incremented after it:
    the method returns with the base nonce incremented twice, under which no
    chunk is made.  For the empty plaintext no chunk is made at all. *)
Lemma encrypt_increments_after_last_chunk :
  let fc := Toy.cryptor_of 4 32 in
  let keybytes := keydata Toy.key in
  let r :=
    encrypt_body (L := Toy.sodium)
      (start fc [x41; x42; x43; x44; x45; x46; x47; x48]) in
  let first :=
    @aead_seal Toy.sodium [] [x41; x42; x43; x44] keybytes Toy.nonce in
  let second :=
    @aead_seal Toy.sodium [] [x45; x46; x47; x48] keybytes
      (increment Toy.nonce) in
  written (ostr (snd r)) =
    first ++ second ++
    @generichash Toy.sodium (keydata Toy.hashkey) 32 (first ++ second) /\
  map fst (sealed (trace (snd r))) = [Toy.nonce; increment Toy.nonce] /\
  fst r = Ok (increment (increment Toy.nonce)) /\
  increment (increment Toy.nonce) <> increment Toy.nonce /\
  ~ In (increment (increment Toy.nonce)) (map fst (sealed (trace (snd r)))) /\
  sealed (trace (snd (encrypt_body (L := Toy.sodium) (start fc [])))) = [].
Proof.
  vm_compute. repeat split; try discriminate.
  intros [H|[H|[]]]; discriminate.
Qed.

(** C1 fails in the code where the claim is right: when the plaintext ends
    on a block boundary (the empty plaintext included) and the trailer is at
    least as long as a whole chunk, [encrypt] succeeds, and [decrypt] of its
    output, with the same object, reads the trailer as one more whole chunk,
    cuts it to no bytes, and fails in [CryptorAEAD::decrypt] once the
    plaintext has been written. *)
Theorem roundtrip_fails_at_block_boundary `{LL : LibsodiumLaws}
  (fc : FileCryptor) (p : data_t) :
  1 <= blocksize_ (cryptor fc) ->
  length p mod blocksize_ (cryptor fc) = 0 ->
  MACSIZE + blocksize_ (cryptor fc) <= hashsize_ fc ->
  fst (encrypt (start fc p)) = Ok tt /\
  let r := decrypt (start fc (ciphertext_stream fc p)) in
  fst r = Throw CryptorAEAD_decrypt_failed /\
  fst r <> Ok tt /\
  written (ostr (snd r)) = p.
Proof.
  intros Hbs Hr Hhs.
  split; [now rewrite encrypt_spec|].
  pose proof (decrypt_at_block_boundary fc p Hbs Hr Hhs) as Hrun.
  unfold observe in Hrun. injection Hrun as Hres Hout _.
  cbv zeta. rewrite Hres, Hout. repeat split. discriminate.
Qed.

Lemma roundtrip_fails_at_block_boundary_witness :
  let fc := Toy.cryptor_of 4 32 in
  fst (encrypt (L := Toy.sodium) (start fc [])) = Ok tt /\
  fst (decrypt (L := Toy.sodium)
         (start fc (ciphertext_stream (L := Toy.sodium) fc []))) =
    Throw CryptorAEAD_decrypt_failed.
Proof.
  pose proof (@roundtrip_fails_at_block_boundary Toy.sodium ToyLaws.laws
                (Toy.cryptor_of 4 32) []) as H.
  specialize (H ltac:(vm_compute; lia) ltac:(reflexivity)
                ltac:(vm_compute; lia)).
  destruct H as (H1 & H2 & _). split; [exact H1|exact H2].
Defined.

(** C3 fails in the code where the claim is right: when the trailer is at
    least as long as a whole chunk, [decrypt] of a stream whose last chunk
    was removed opens every remaining chunk, then reads the trailer as one
    more whole chunk, cuts it to no bytes, and fails in
    [CryptorAEAD::decrypt], before the digests are compared: the failure is
    the authentication failure, not the integrity failure. *)
Theorem truncation_reported_as_auth_failure `{LL : LibsodiumLaws}
  (fc : FileCryptor) (p : data_t) :
  let bs := blocksize_ (cryptor fc) in
  let chunks :=
    seal_chunks (header_ (cryptor fc)) (key_ (cryptor fc))
      (nonce_ (cryptor fc)) (chunks_of bs p) in
  let r := decrypt (start fc (drop_last_chunk chunks (trailer_of fc p))) in
  1 <= bs ->
  p <> [] ->
  MACSIZE + bs <= hashsize_ fc ->
  ciphertext_stream fc p = concat chunks ++ trailer_of fc p /\
  fst r = Throw CryptorAEAD_decrypt_failed /\
  classify CryptorAEAD_decrypt_failed = Some AuthFailure /\
  fst r <> Throw Decrypt_hash_mismatch /\
  written (ostr (snd r)) = concat (removelast (chunks_of bs p)).
Proof.
  intros bs chunks r Hbs _ Hhs.
  split; [now apply ciphertext_stream_eq|].
  pose proof (decrypt_truncated_stream fc p Hbs) as Hrun.
  fold bs chunks r in Hrun. unfold observe, stream_outcome in Hrun.
  cbn [length Nat.add Nat.eqb negb] in Hrun. fold bs in Hrun.
  replace (MACSIZE + bs <=? hashsize_ fc) with true in Hrun
    by (symmetry; now apply Nat.leb_le).
  cbn [orb] in Hrun. rewrite aead_open_short in Hrun by apply MACSIZE_pos.
  injection Hrun as Hres Hout _.
  rewrite Hres, Hout. repeat split. discriminate.
Qed.

Lemma truncation_reported_as_auth_failure_witness :
  let fc := Toy.cryptor_of 4 32 in
  let p := [x41; x42; x43; x44; x45; x46; x47; x48; x49] in
  let chunks :=
    seal_chunks (L := Toy.sodium) [] (Key_readonly Toy.key) Toy.nonce
      (chunks_of 4 p) in
  fst (decrypt (L := Toy.sodium)
         (start fc (drop_last_chunk chunks (trailer_of (L := Toy.sodium) fc p)))) =
    Throw CryptorAEAD_decrypt_failed.
Proof.
  pose proof (@truncation_reported_as_auth_failure Toy.sodium ToyLaws.laws
                (Toy.cryptor_of 4 32)
                [x41; x42; x43; x44; x45; x46; x47; x48; x49]) as H.
  cbv zeta in H.
  specialize (H ltac:(vm_compute; lia) ltac:(discriminate)
                ltac:(vm_compute; lia)).
  destruct H as (_ & H & _). exact H.
Defined.

(** X4: with a trailer shorter than a whole chunk the removal of the last
    chunk is reported by the comparison of the digests, provided the digest
    of the remaining chunks differs from the digest of all chunks; the
    plaintext of the remaining chunks has been written by then. *)
Lemma truncation_detected_by_digest `{LL : LibsodiumLaws}
  (fc : FileCryptor) (p : data_t) :
  let bs := blocksize_ (cryptor fc) in
  let chunks :=
    seal_chunks (header_ (cryptor fc)) (key_ (cryptor fc))
      (nonce_ (cryptor fc)) (chunks_of bs p) in
  let r := decrypt (start fc (drop_last_chunk chunks (trailer_of fc p))) in
  1 <= bs ->
  hashsize_ fc < MACSIZE + bs ->
  generichash (keydata (hashkey_ fc)) (hashsize_ fc) (concat (removelast chunks))
    <> trailer_of fc p ->
  fst r = Throw Decrypt_hash_mismatch /\
  classify Decrypt_hash_mismatch = Some IntegrityFailure /\
  written (ostr (snd r)) = concat (removelast (chunks_of bs p)).
Proof.
  intros bs chunks r Hbs Hhs Hneq.
  pose proof (decrypt_truncated_stream fc p Hbs) as Hrun.
  fold bs chunks r in Hrun. unfold observe, stream_outcome in Hrun.
  cbn [length Nat.add Nat.eqb negb] in Hrun. fold bs in Hrun.
  replace (MACSIZE + bs <=? hashsize_ fc) with false in Hrun
    by (symmetry; apply Nat.leb_gt; exact Hhs).
  cbn [orb] in Hrun.
  rewrite app_nil_r, <- removelast_seal_chunks in Hrun. fold chunks in Hrun.
  apply data_eqb_neq in Hneq. rewrite Hneq in Hrun. cbn [verdict] in Hrun.
  injection Hrun as Hres Hout _.
  rewrite Hres, Hout. repeat split.
Qed.

(** C6 fails in the code where the claim is right: when the plaintext ends
    on a block boundary and the trailer is at least as long as a whole
    chunk, the last read is not short; the case of a short read that is
    empty once trimmed does not arise, and a final chunk of no bytes is
    handed to [CryptorAEAD::decrypt] under the nonce that follows the whole
    chunks. *)
Theorem boundary_stream_opens_empty_chunk `{LL : LibsodiumLaws}
  (fc : FileCryptor) (p : data_t) :
  let bs := blocksize_ (cryptor fc) in
  let r := decrypt (start fc (ciphertext_stream fc p)) in
  1 <= bs ->
  length p mod bs = 0 ->
  MACSIZE + bs <= hashsize_ fc ->
  no_final_chunk (trace (snd r)) = false /\
  In (increments (length p / bs) (nonce_ (cryptor fc)), [])
     (opened (trace (snd r))).
Proof.
  intros bs r Hbs Hr Hhs.
  pose proof (decrypt_at_block_boundary fc p Hbs Hr Hhs) as Hrun.
  fold r in Hrun. unfold observe in Hrun. injection Hrun as _ _ Htr.
  rewrite Htr. split.
  - rewrite no_final_chunk_app, no_final_chunk_decrypt_events. reflexivity.
  - rewrite opened_app. apply in_or_app. right. left. reflexivity.
Qed.

Lemma boundary_stream_opens_empty_chunk_witness :
  let fc := Toy.cryptor_of 4 32 in
  let r := decrypt (L := Toy.sodium)
             (start fc (ciphertext_stream (L := Toy.sodium) fc [])) in
  0 mod 4 = 0 /\
  no_final_chunk (trace (snd r)) = false /\
  opened (trace (snd r)) = [(Toy.nonce, [])].
Proof.
  split; [reflexivity|].
  pose proof (@boundary_stream_opens_empty_chunk Toy.sodium ToyLaws.laws
                (Toy.cryptor_of 4 32) []) as H.
  cbv zeta in H.
  specialize (H ltac:(vm_compute; lia) ltac:(reflexivity)
                ltac:(vm_compute; lia)).
  destruct H as [H _]. split; [exact H|]. vm_compute. reflexivity.
Defined.

(** The case of C6 arises exactly for the plaintexts that end on a block
    boundary when the trailer is shorter than a whole chunk. *)
Lemma no_final_chunk_iff `{LL : LibsodiumLaws} (fc : FileCryptor) (p : data_t) :
  let bs := blocksize_ (cryptor fc) in
  let r := decrypt (start fc (ciphertext_stream fc p)) in
  1 <= bs ->
  0 < hashsize_ fc ->
  no_final_chunk (trace (snd r)) = true <->
  length p mod bs = 0 /\ hashsize_ fc < MACSIZE + bs.
Proof.
  intros bs r Hbs Hhs.
  pose proof (decrypt_ciphertext_stream fc p Hbs) as Hrun.
  fold r in Hrun. unfold observe in Hrun.
  assert (Htr : trace (snd r) =
                snd (stream_outcome fc [] (whole_blocks fc p) (last_chunk fc p)
                       (trailer_of fc p)))
    by (rewrite <- Hrun; reflexivity).
  rewrite Htr. clear Htr Hrun. unfold stream_outcome.
  rewrite last_chunk_length by exact Hbs. fold bs.
  pose proof MACSIZE_pos as Hmac.
  destruct (length p mod bs =? 0) eqn:Er.
  - apply Nat.eqb_eq in Er. cbn [Nat.eqb negb Nat.add]. rewrite orb_false_r.
    destruct (MACSIZE + bs <=? hashsize_ fc) eqn:Ec.
    + apply Nat.leb_le in Ec.
      destruct (aead_open _ _ _ _); cbn [snd];
        rewrite no_final_chunk_app, no_final_chunk_decrypt_events;
        cbn; split; try discriminate; lia.
    + apply Nat.leb_gt in Ec. cbn [snd].
      replace (hashsize_ fc =? 0) with false
        by (symmetry; apply Nat.eqb_neq; lia).
      rewrite no_final_chunk_app, no_final_chunk_decrypt_events.
      cbn. split; auto.
  - apply Nat.eqb_neq in Er.
    replace (MACSIZE + length p mod bs =? 0) with false
      by (symmetry; apply Nat.eqb_neq; lia).
    rewrite orb_true_r.
    destruct (aead_open _ _ _ _); cbn [snd];
      rewrite no_final_chunk_app, no_final_chunk_decrypt_events;
      cbn; split; try discriminate; lia.
Qed.

(** C9: whatever the input and the sink, the chunks [decrypt] hands to
    [CryptorAEAD::decrypt] and the bytes it folds into the digest are, in
    order, bytes at the positions before the trailer; a run that gets as far
    as comparing the digests has opened and folded exactly the bytes at the
    positions [0, L - hashsize), and it returns normally exactly when the
    digest of these bytes is the trailer. *)
Theorem trailer_never_processed `{L : Libsodium} (fc : FileCryptor)
  (s : istream) (o : ostream) :
  let c := content s in
  let h := length c - hashsize_ fc in
  let r := decrypt (mkWorld fc s o []) in
  (exists a, opened_bytes (trace (snd r)) = firstn a (firstn h c)) /\
  (exists a, folded (trace (snd r)) = firstn a (firstn h c)) /\
  (fst r = Ok tt \/ fst r = Throw Decrypt_hash_mismatch ->
   opened_bytes (trace (snd r)) = firstn h c /\
   folded (trace (snd r)) = firstn h c /\
   (fst r = Ok tt <->
    crypto_generichash_final
      (mkHash (keydata (hashkey_ fc)) (hashsize_ fc) (firstn h c))
      (repeat x00 (hashsize_ fc)) = skipn h c)).
Proof.
  intros c h r.
  destruct (decrypt_regions fc s o) as [Hwithin Hdone].
  fold c h r in Hwithin, Hdone.
  destruct (within_firstn (h := h) (c := c)) with (t := trace (snd r))
    as [Ho Hf]; [unfold h; lia|exact Hwithin|].
  split; [exact Ho|]. split; [exact Hf|].
  intros Hres. destruct (Hdone Hres) as (Hf' & Ho' & Hiff).
  split; [exact Ho'|]. split; [exact Hf'|].
  rewrite <- Hiff. now rewrite data_eqb_eq.
Qed.

(* ================================================================= *)
(** ** Runs on small inputs *)

(** The scenario of the specification: blocksize 4 and the nine bytes
    "ABCDEFGHI" give chunks of 4, 4 and 1 plaintext bytes, sealed under three
    successive nonces, and [decrypt] gives the nine bytes back. *)
Example scenario_ABCDEFGHI :
  let fc := Toy.cryptor_of 4 32 in
  let p := [x41; x42; x43; x44; x45; x46; x47; x48; x49] in
  let stream := ciphertext_stream (L := Toy.sodium) fc p in
  map (fun c => length (snd c))
    (sealed (trace (snd (encrypt (L := Toy.sodium) (start fc p))))) = [4; 4; 1] /\
  length stream = 20 + 20 + 17 + 32 /\
  observe (decrypt (L := Toy.sodium) (start fc stream)) =
    (Ok tt, p,
     decrypt_events Toy.nonce
       (seal_chunks (L := Toy.sodium) [] (Key_readonly Toy.key) Toy.nonce
          (chunks_of 4 p))).
Proof. vm_compute. repeat split. Qed.

(** A plaintext of two whole blocks is read back when the trailer is shorter
    than a whole chunk, and is not when it is as long. *)
Example two_whole_blocks :
  let p := [x41; x42; x43; x44; x45; x46; x47; x48] in
  fst (decrypt (L := Toy.sodium)
         (start (Toy.cryptor_of 4 16)
            (ciphertext_stream (L := Toy.sodium) (Toy.cryptor_of 4 16) p))) =
    Ok tt /\
  fst (decrypt (L := Toy.sodium)
         (start (Toy.cryptor_of 4 20)
            (ciphertext_stream (L := Toy.sodium) (Toy.cryptor_of 4 20) p))) =
    Throw CryptorAEAD_decrypt_failed.
Proof. vm_compute. split; reflexivity. Qed.

(** A sink that turns bad at the write that takes it beyond ten bytes makes
    [encrypt] throw on its first write. *)
Example encrypt_into_full_sink :
  fst (encrypt (L := Toy.sodium)
         (mkWorld (Toy.cryptor_of 4 32) (fresh_istream [x41; x42; x43; x44; x45])
            (mkOstream [] (Some 10) false) [])) =
    Throw Encrypt_write_full_chunk.
Proof. vm_compute. reflexivity. Qed.

(* ================================================================= *)
(** ** FileCryptor: further properties of the two methods *)

Section SealedStreams.
Context `{LL : LibsodiumLaws}.

Lemma with_nonces_app n a b :
  with_nonces n (a ++ b) =
  with_nonces n a ++ with_nonces (increments (length a) n) b.
Proof.
  revert n; induction a as [|x a IH]; intros n; simpl; [reflexivity|].
  now rewrite IH.
Qed.

Lemma folded_decrypt_events n l : folded (decrypt_events n l) = concat l.
Proof.
  revert n; induction l as [|c l IH]; intros n; simpl; [reflexivity|].
  now rewrite IH.
Qed.

Lemma seal_chunks_bytes header key : forall l n,
  length (concat (seal_chunks header key n l)) =
  MACSIZE * length l + length (concat l).
Proof.
  induction l as [|b l IH]; intros n; simpl; [lia|].
  rewrite !length_app, IH. unfold CryptorAEAD_encrypt.
  rewrite aead_seal_length. lia.
Qed.

(** The run of [decrypt] on the sealed chunks of [p] followed by any
    trailer of the right size, away from the case in which the trailer is
    read as a chunk. *)
Lemma decrypt_sealed_chunks fc p trailer :
  let bs := blocksize_ (cryptor fc) in
  let n0 := nonce_ (cryptor fc) in
  let chunks :=
    seal_chunks (header_ (cryptor fc)) (key_ (cryptor fc)) n0 (chunks_of bs p) in
  let r := decrypt (start fc (concat chunks ++ trailer)) in
  1 <= bs ->
  length p mod bs <> 0 \/ hashsize_ fc < MACSIZE + bs ->
  length trailer = hashsize_ fc ->
  fst r = verdict (data_eqb (trailer_of fc p) trailer) /\
  written (ostr (snd r)) = p /\
  opened (trace (snd r)) = with_nonces n0 chunks /\
  folded (trace (snd r)) = concat chunks.
Proof.
  intros bs n0 chunks r Hbs Hcase Htr. subst bs n0.
  pose proof (whole_blocks_whole fc p Hbs) as Hwhole.
  pose proof (last_chunk_length fc p Hbs) as Hlast.
  destruct (div_mod_facts (length p) Hbs) as [Hdm Hr].
  pose proof MACSIZE_pos as Hmac.
  assert (Hshort : length (last_chunk fc p) <
                   MACSIZE + blocksize_ (cryptor fc))
    by (rewrite Hlast;
        destruct (length p mod blocksize_ (cryptor fc) =? 0); lia).
  pose proof (@decrypt_stream _ _ fc (whole_blocks fc p) (last_chunk fc p)
                trailer [] Hwhole Hshort Htr) as Hrun.
  cbv zeta in Hrun.
  assert (Hsplit : chunks =
            seal_chunks (header_ (cryptor fc)) (key_ (cryptor fc))
              (nonce_ (cryptor fc)) (whole_blocks fc p) ++
            (if length p mod blocksize_ (cryptor fc) =? 0 then []
             else [last_chunk fc p])).
  { unfold chunks, chunks_of, whole_blocks. rewrite seal_chunks_app.
    rewrite blocks_of_length. f_equal.
    unfold last_chunk.
    now destruct (length p mod blocksize_ (cryptor fc) =? 0). }
  assert (Hcat : concat chunks =
            concat (seal_chunks (header_ (cryptor fc)) (key_ (cryptor fc))
                      (nonce_ (cryptor fc)) (whole_blocks fc p)) ++
            last_chunk fc p)
    by apply sealed_chunks_split.
  rewrite app_assoc, <- Hcat in Hrun.
  change (mkWorld fc (fresh_istream (concat chunks ++ trailer))
            (mkOstream [] None false) [])
    with (start fc (concat chunks ++ trailer)) in Hrun.
  fold r in Hrun. unfold observe, stream_outcome in Hrun.
  rewrite <- Hcat in Hrun.
  change (generichash (keydata (hashkey_ fc)) (hashsize_ fc) (concat chunks))
    with (trailer_of fc p) in Hrun.
  rewrite Hlast in Hrun.
  assert (Hlen : length (whole_blocks fc p) =
                 length p / blocksize_ (cryptor fc))
    by apply blocks_of_length.
  destruct (length p mod blocksize_ (cryptor fc) =? 0) eqn:Er.
  - apply Nat.eqb_eq in Er. destruct Hcase as [Hcase|Hcase]; [lia|].
    replace (MACSIZE + blocksize_ (cryptor fc) <=? 0 + hashsize_ fc)
      with false in Hrun by (symmetry; apply Nat.leb_gt; lia).
    cbn [orb Nat.eqb negb] in Hrun.
    injection Hrun as Hres Hout Htrace.
    rewrite Hres, Hout, Htrace, Hsplit, app_nil_r.
    cbn [app]. split; [reflexivity|]. split.
    { now apply whole_blocks_concat. }
    rewrite opened_app, folded_app, opened_decrypt_events,
      folded_decrypt_events.
    destruct (hashsize_ fc =? 0); cbn; rewrite !app_nil_r; split; reflexivity.
  - apply Nat.eqb_neq in Er.
    replace (MACSIZE + length p mod blocksize_ (cryptor fc) =? 0)
      with false in Hrun by (symmetry; apply Nat.eqb_neq; lia).
    rewrite orb_true_r in Hrun.
    unfold last_chunk in Hrun at 1.
    replace (length p mod blocksize_ (cryptor fc) =? 0) with false in Hrun
      by (symmetry; now apply Nat.eqb_neq).
    unfold CryptorAEAD_encrypt in Hrun at 1.
    rewrite Hlen, aead_open_seal in Hrun.
    injection Hrun as Hres Hout Htrace.
    rewrite Hres, Hout, Htrace, Hsplit.
    split; [reflexivity|]. split.
    { cbn [app]. unfold whole_blocks.
      rewrite blocks_of_concat by lia.
      rewrite (Nat.mul_comm (blocksize_ (cryptor fc))). apply firstn_skipn. }
    rewrite opened_app, folded_app, opened_decrypt_events,
      folded_decrypt_events, with_nonces_app, concat_app, seal_chunks_length,
      Hlen.
    cbn. rewrite !app_nil_r. split; reflexivity.
Qed.
End SealedStreams.

(** X1: unless the plaintext ends on a block boundary while the trailer is
    at least as long as a whole chunk, [decrypt] inverts [encrypt]: run on the
    stream that [encrypt] wrote for [p], with the same object, it returns
    normally and has written [p]; it has opened the chunks of the stream one
    after the other, the i-th under the base nonce incremented i times, and
    folded the bytes of these chunks into the digest. *)
Theorem decrypt_inverts_encrypt `{LL : LibsodiumLaws} (fc : FileCryptor)
  (p : data_t) :
  let bs := blocksize_ (cryptor fc) in
  let n0 := nonce_ (cryptor fc) in
  let chunks :=
    seal_chunks (header_ (cryptor fc)) (key_ (cryptor fc)) n0 (chunks_of bs p) in
  let r := decrypt (start fc (ciphertext_stream fc p)) in
  1 <= bs ->
  length p mod bs <> 0 \/ hashsize_ fc < MACSIZE + bs ->
  fst r = Ok tt /\
  written (ostr (snd r)) = p /\
  opened (trace (snd r)) = with_nonces n0 chunks /\
  folded (trace (snd r)) = concat chunks.
Proof.
  intros bs n0 chunks r Hbs Hcase.
  pose proof (@decrypt_sealed_chunks _ _ fc p (trailer_of fc p) Hbs Hcase
                (generichash_length _ _ _)) as H.
  cbv zeta in H. rewrite data_eqb_refl in H. cbn [verdict] in H.
  unfold r. rewrite ciphertext_stream_eq by exact Hbs. exact H.
Qed.

Lemma decrypt_inverts_encrypt_witness :
  let fc := Toy.cryptor_of 4 32 in
  let p := [x41; x42; x43; x44; x45; x46; x47; x48; x49] in
  let r := decrypt (L := Toy.sodium)
             (start fc (ciphertext_stream (L := Toy.sodium) fc p)) in
  fst r = Ok tt /\ written (ostr (snd r)) = p.
Proof.
  pose proof (@decrypt_inverts_encrypt Toy.sodium ToyLaws.laws
                (Toy.cryptor_of 4 32)
                [x41; x42; x43; x44; x45; x46; x47; x48; x49]) as H.
  cbv zeta in H.
  specialize (H ltac:(vm_compute; lia) ltac:(left; vm_compute; lia)).
  destruct H as (H1 & H2 & _). split; [exact H1|exact H2].
Defined.

(** X2: a trailer that is not the digest of the chunks before it is
    reported by the comparison of the digests, which is the last thing
    [decrypt] does: by then the whole plaintext has been written. *)
Theorem tampered_trailer_detected `{LL : LibsodiumLaws} (fc : FileCryptor)
  (p trailer : data_t) :
  let bs := blocksize_ (cryptor fc) in
  let chunks :=
    seal_chunks (header_ (cryptor fc)) (key_ (cryptor fc))
      (nonce_ (cryptor fc)) (chunks_of bs p) in
  let r := decrypt (start fc (concat chunks ++ trailer)) in
  1 <= bs ->
  length p mod bs <> 0 \/ hashsize_ fc < MACSIZE + bs ->
  length trailer = hashsize_ fc ->
  trailer <> trailer_of fc p ->
  fst r = Throw Decrypt_hash_mismatch /\
  classify Decrypt_hash_mismatch = Some IntegrityFailure /\
  written (ostr (snd r)) = p.
Proof.
  intros bs chunks r Hbs Hcase Htr Hneq.
  destruct (@decrypt_sealed_chunks _ _ fc p trailer Hbs Hcase Htr)
    as (Hres & Hout & _).
  fold bs chunks r in Hres, Hout.
  replace (data_eqb (trailer_of fc p) trailer) with false in Hres
    by (symmetry; apply data_eqb_neq; congruence).
  repeat split; assumption.
Qed.

Lemma tampered_trailer_detected_witness :
  let fc := Toy.cryptor_of 4 32 in
  let p := [x41; x42; x43; x44; x45] in
  let chunks :=
    seal_chunks (L := Toy.sodium) [] (Key_readonly Toy.key) Toy.nonce
      (chunks_of 4 p) in
  let r := decrypt (L := Toy.sodium)
             (start fc (concat chunks ++ repeat x00 32)) in
  fst r = Throw Decrypt_hash_mismatch /\ written (ostr (snd r)) = p.
Proof.
  pose proof (@tampered_trailer_detected Toy.sodium ToyLaws.laws
                (Toy.cryptor_of 4 32) [x41; x42; x43; x44; x45]
                (repeat x00 32)) as H.
  cbv zeta in H.
  specialize (H ltac:(vm_compute; lia) ltac:(left; vm_compute; lia)
                ltac:(reflexivity) ltac:(vm_compute; discriminate)).
  destruct H as (H1 & _ & H2). split; [exact H1|exact H2].
Defined.

(** X3: a whole chunk that the primitive rejects ends the run with the
    authentication failure, wherever it stands before the trailer: the
    plaintext of the chunks before it has been written and stays written,
    nothing of the rejected chunk is written, and no byte after it is
    opened. *)
Theorem tampered_chunk_detected `{LL : LibsodiumLaws} (fc : FileCryptor)
  (blocks : list data_t) (bad rest o : data_t) :
  let bs := blocksize_ (cryptor fc) in
  let n0 := nonce_ (cryptor fc) in
  let chunks :=
    seal_chunks (header_ (cryptor fc)) (key_ (cryptor fc)) n0 blocks in
  let nk := increments (length blocks) n0 in
  Forall (fun b => length b = bs) blocks ->
  length bad = MACSIZE + bs ->
  hashsize_ fc <= length rest ->
  aead_open (header_ (cryptor fc)) bad (keydata (key_ (cryptor fc))) nk = None ->
  observe
    (decrypt (mkWorld fc (fresh_istream (concat chunks ++ bad ++ rest))
                (mkOstream o None false) [])) =
  (Throw CryptorAEAD_decrypt_failed, o ++ concat blocks,
   decrypt_events n0 chunks ++ [EvOpen nk bad]).
Proof.
  destruct fc as [[key n0 header bs] hashkey hs].
  cbn [cryptor blocksize_ header_ key_ nonce_ hashkey_ hashsize_].
  set (fc := mkFileCryptor (mkStreamCryptor key n0 header bs) hashkey hs).
  set (C := MACSIZE + bs).
  set (chunks := seal_chunks header key n0 blocks).
  set (E := concat chunks).
  set (nk := increments (length blocks) n0).
  set (c := E ++ bad ++ rest).
  intros Hb Hbad Hrest Hopen.
  pose proof MACSIZE_pos as Hmac.
  assert (HC : 1 <= C) by (unfold C; lia).
  assert (HE : length E = length blocks * C)
    by (apply sealed_length; exact Hb).
  assert (Hc : length c = length E + C + length rest)
    by (unfold c; rewrite !length_app; lia).
  set (h := length c - hs).
  unfold decrypt.
  erewrite bind_ok by reflexivity. cbv beta zeta.
  cbn [self fc cryptor blocksize_ header_ key_ nonce_ hashkey_ hashsize_].
  fold fc C.
  erewrite bind_ok by reflexivity. cbv beta.
  unfold istream_seekg_end, istream_seekg_to, fresh_istream.
  cbn [self istr ostr trace failbit content gpos gcount_].
  fold c.
  replace (Z.of_nat (length c) + - Z.of_nat hs <? 0)%Z with false
    by (symmetry; apply Z.ltb_ge; lia).
  replace (Z.to_nat (Z.of_nat (length c) + - Z.of_nat hs)) with h
    by (unfold h; lia).
  cbn [failbit negb].
  erewrite bind_ok by (apply tellg_good; reflexivity).
  cbv beta. cbn [istr gpos].
  rewrite repeat_length.
  erewrite bind_ok
    by (apply read_full; cbn [self istr content gpos];
        [reflexivity|unfold h; lia|apply repeat_length]).
  cbv beta iota. cbn [negb istr content gpos self ostr trace].
  rewrite bind_ret_l.
  erewrite bind_ok by reflexivity. cbv beta.
  cbn [seekg_beg istream_seekg_beg istream_seekg_to istr self ostr trace
       failbit content gpos gcount_ Z.ltb Z.compare Z.to_nat].
  erewrite bind_ok by (apply tellg_good; reflexivity).
  cbv beta. cbn [istr gpos].
  erewrite bind_ok by reflexivity. cbv beta.
  cbn [istr content].
  destruct (@decrypt_loop_blocks _ _ h c blocks (S (length c) - length blocks)
              fc 0 hs o [] (crypto_generichash_init (keydata hashkey) hs)
              (repeat x00 C) n0 (Z.of_nat 0) (bad ++ rest))
    as (g' & ct' & cur' & Hct' & Heq).
  { exact Hb. }
  { reflexivity. }
  { cbn [fc cryptor blocksize_]. fold C. unfold h. lia. }
  { apply repeat_length. }
  replace (length blocks + (S (length c) - length blocks)) with (S (length c))
    in Heq by nia.
  cbn [fc cryptor blocksize_ header_ key_ nonce_ hashkey_ hashsize_]
    in Heq, Hct'.
  fold C in Hct'.
  fold fc C chunks E nk in Heq.
  unfold bind at 1. rewrite Heq. clear Heq.
  cbn [crypto_generichash_init hs_key hs_outlen hs_fed app Nat.add].
  rewrite <- HE.
  assert (Hskip : skipn (length E) c = bad ++ rest)
    by (unfold c; now apply skipn_exact).
  assert (Hfuel : S (length c) - length blocks = S (length c - length blocks))
    by nia.
  rewrite Hfuel. cbn [decrypt_loop].
  erewrite bind_ok by reflexivity. cbv beta. cbn [self fc cryptor blocksize_].
  fold fc C.
  erewrite bind_ok
    by (apply read_full; cbn [istr content gpos igood eofbit failbit negb andb];
        [reflexivity|lia|assumption]).
  cbv beta iota. cbn [andb negb istr content gpos self ostr trace].
  erewrite bind_ok by (apply tellg_good; reflexivity).
  cbv beta. cbn [istr gpos].
  replace (Z.of_nat (length E + C) >? Z.of_nat h)%Z with false
    by (symmetry; rewrite Z.gtb_ltb; apply Z.ltb_ge; unfold h; lia).
  rewrite bind_ret_l. cbv beta iota zeta.
  rewrite Hskip, (firstn_exact _ _ Hbad).
  rewrite sc_aead_decrypt_eq_bind.
  cbn [self istr ostr trace fc cryptor header_ key_].
  rewrite Hopen. reflexivity.
Qed.

Lemma tampered_chunk_detected_witness :
  let fc := Toy.cryptor_of 4 8 in
  let blocks := [[x41; x42; x43; x44]] in
  let chunks :=
    seal_chunks (L := Toy.sodium) [] (Key_readonly Toy.key) Toy.nonce blocks in
  let r := decrypt (L := Toy.sodium)
             (start fc (concat chunks ++ repeat x00 20 ++ repeat x00 8)) in
  fst r = Throw CryptorAEAD_decrypt_failed /\
  written (ostr (snd r)) = [x41; x42; x43; x44].
Proof.
  pose proof (@tampered_chunk_detected Toy.sodium ToyLaws.laws
                (Toy.cryptor_of 4 8) [[x41; x42; x43; x44]]
                (repeat x00 20) (repeat x00 8) []) as H.
  cbv zeta in H.
  specialize (H ltac:(repeat constructor) ltac:(reflexivity)
                ltac:(vm_compute; lia) ltac:(vm_compute; reflexivity)).
  unfold observe in H.
  apply pair_equal_spec in H as [H _].
  apply pair_equal_spec in H as [H1 H2].
  split; [exact H1|exact H2].
Defined.

(** X5: [decrypt] starts by seeking to the trailer; on a stream that has
    failed, or that holds fewer bytes than a digest, it throws the seek
    error before it reads, opens or writes anything: in particular the
    empty file is never accepted when the digest has a size. *)
Theorem decrypt_refuses_short_input `{L : Libsodium} (fc : FileCryptor)
  (s : istream) (o : ostream) (t : list event) :
  let r := decrypt (mkWorld fc s o t) in
  failbit s = true \/ length (content s) < hashsize_ fc ->
  fst r = Throw Decrypt_seek_hash /\
  classify Decrypt_seek_hash = Some IOFailure /\
  ostr (snd r) = o /\
  trace (snd r) = t /\
  gpos (istr (snd r)) = gpos s.
Proof.
  intros r Hcase. unfold r, decrypt, bind, this, seekg_end, istream_seekg_end,
    istream_seekg_to, throw.
  cbn [self istr ostr trace].
  destruct (failbit s) eqn:Ef.
  - cbn. repeat split.
  - destruct Hcase as [Hcase|Hcase]; [discriminate|].
    replace (Z.of_nat (length (content s)) + - Z.of_nat (hashsize_ fc) <? 0)%Z
      with true by (symmetry; apply Z.ltb_lt; lia).
    cbn. repeat split.
Qed.

Lemma decrypt_refuses_short_input_witness :
  fst (decrypt (L := Toy.sodium) (start (Toy.cryptor_of 4 32) [])) =
    Throw Decrypt_seek_hash.
Proof.
  exact (proj1 (@decrypt_refuses_short_input Toy.sodium (Toy.cryptor_of 4 32)
                  (fresh_istream []) fresh_ostream []
                  ltac:(right; vm_compute; lia))).
Defined.

(** X6: [decrypt] rewinds its input: what it returns, writes and logs does
    not depend on the get position, on the end-of-file bit or on the count
    of the last read that the stream has when the method is called; only a
    stream that has failed is treated otherwise. *)
Theorem decrypt_rewinds `{L : Libsodium} (fc : FileCryptor) (c : data_t)
  (q : nat) (e : bool) (g : nat) (o : ostream) (t : list event) :
  observe (decrypt (mkWorld fc (mkIstream c q e false g) o t)) =
  observe (decrypt (mkWorld fc (fresh_istream c) o t)).
Proof.
  unfold observe, decrypt, bind, this, seekg_end, istream_seekg_end,
    istream_seekg_to, fresh_istream, throw.
  cbn [self istr ostr trace failbit content gpos gcount_].
  destruct (Z.of_nat (length c) + - Z.of_nat (hashsize_ fc) <? 0)%Z;
    cbn [failbit negb]; [reflexivity|].
  unfold tellg, istream_tellg, read, istream_read, igood.
  cbn [self istr ostr trace failbit eofbit content gpos gcount_ negb andb].
  reflexivity.
Qed.

(** X9: the number of bytes [encrypt] writes depends on the plaintext
    through its length only: the plaintext, a tag for each chunk and the
    digest. *)
Theorem ciphertext_stream_length `{LL : LibsodiumLaws} (fc : FileCryptor)
  (p : data_t) :
  let bs := blocksize_ (cryptor fc) in
  1 <= bs ->
  length (ciphertext_stream fc p) =
  length p +
  MACSIZE * (length p / bs + (if length p mod bs =? 0 then 0 else 1)) +
  hashsize_ fc.
Proof.
  intros bs Hbs. rewrite ciphertext_stream_eq by exact Hbs.
  rewrite length_app, generichash_length, seal_chunks_bytes.
  fold bs. rewrite chunks_of_length, chunks_of_concat by exact Hbs. lia.
Qed.

Lemma ciphertext_stream_length_witness :
  length (ciphertext_stream (L := Toy.sodium) (Toy.cryptor_of 4 32)
            [x41; x42; x43; x44; x45; x46; x47; x48; x49]) =
  9 + 16 * 3 + 32.
Proof.
  exact (@ciphertext_stream_length Toy.sodium ToyLaws.laws
           (Toy.cryptor_of 4 32)
           [x41; x42; x43; x44; x45; x46; x47; x48; x49]
           ltac:(vm_compute; lia)).
Defined.

(** X10: with a blocksize of at least 1 both methods end on every input, in
    every state of the input stream and of the sink: each turn of their
    loops consumes input, so that the bound of the loops of the embedding is
    never reached. *)
Theorem encrypt_and_decrypt_end `{L : Libsodium} (w : world) :
  1 <= blocksize_ (cryptor (self w)) ->
  fst (encrypt w) <> Diverge /\ fst (decrypt w) <> Diverge.
Proof.
  intros Hbs. split; [now apply encrypt_total|apply decrypt_total; lia].
Qed.

Lemma encrypt_and_decrypt_end_witness :
  let w := mkWorld (Toy.cryptor_of 1 0)
             (mkIstream [x41; x42; x43] 1 false false 0)
             (mkOstream [] (Some 2) false) [] in
  fst (encrypt (L := Toy.sodium) w) <> Diverge /\
  fst (decrypt (L := Toy.sodium) w) <> Diverge.
Proof.
  exact (@encrypt_and_decrypt_end Toy.sodium
           (mkWorld (Toy.cryptor_of 1 0)
              (mkIstream [x41; x42; x43] 1 false false 0)
              (mkOstream [] (Some 2) false) [])
           ltac:(vm_compute; lia)).
Defined.

Lemma truncation_detected_by_digest_witness :
  let fc := Toy.cryptor_of 4 16 in
  let p := [x41; x42; x43; x44; x45; x46; x47; x48; x49] in
  let chunks :=
    seal_chunks (L := Toy.sodium) [] (Key_readonly Toy.key) Toy.nonce
      (chunks_of 4 p) in
  fst (decrypt (L := Toy.sodium)
         (start fc (drop_last_chunk chunks (trailer_of (L := Toy.sodium) fc p)))) =
    Throw Decrypt_hash_mismatch.
Proof.
  pose proof (@truncation_detected_by_digest Toy.sodium ToyLaws.laws
                (Toy.cryptor_of 4 16)
                [x41; x42; x43; x44; x45; x46; x47; x48; x49]) as H.
  cbv zeta in H.
  specialize (H ltac:(vm_compute; lia) ltac:(vm_compute; lia)
                ltac:(vm_compute; discriminate)).
  destruct H as (H & _). exact H.
Defined.

(* ================================================================= *)
(** ** FileCryptor: the input position and the room of the sink *)

Section EncryptAt.
Context `{LL : LibsodiumLaws}.

(** [encrypt_body] on a stream that stands at the position [q]. *)
Lemma encrypt_body_at fc c q g o t :
  let bs := blocksize_ (cryptor fc) in
  let header := header_ (cryptor fc) in
  let key := key_ (cryptor fc) in
  let nonce := nonce_ (cryptor fc) in
  let p := skipn q c in
  let chunks := chunks_of bs p in
  let E := concat (seal_chunks header key nonce chunks) in
  1 <= bs ->
  q <= length c ->
  encrypt_body
    (mkWorld fc (mkIstream c q false false g) (mkOstream o None false) t) =
  (Ok (increments (length p / bs) nonce),
   mkWorld fc (mkIstream c (length c) true true (length p mod bs))
     (mkOstream
        (o ++ E ++ generichash (keydata (hashkey_ fc)) (hashsize_ fc) E)
        None false)
     (t ++ encrypt_events header key nonce chunks)).
Proof.
  destruct fc as [[key nonce header bs] hashkey hashsize].
  cbn [cryptor blocksize_ header_ key_ nonce_ hashkey_ hashsize_].
  intros Hbs Hq.
  set (p := skipn q c).
  assert (Hp : length p = length c - q) by apply length_skipn.
  destruct (div_mod_facts (length p) Hbs) as [Hdm Hr].
  unfold chunks_of.
  set (k := length p / bs) in *. set (r := length p mod bs) in *.
  set (fc := mkFileCryptor (mkStreamCryptor key nonce header bs) hashkey hashsize).
  unfold encrypt_body. unfold bind at 1. cbn [this self].
  unfold bind at 1. cbn [loop_bound istr content].
  unfold bind at 1.
  replace (S (length c)) with (k + S (length c - k)) by nia.
  destruct (@encrypt_loop_blocks _ k (S (length c - k)) fc c q g o t
              (crypto_generichash_init (keydata hashkey) hashsize)
              (repeat x00 bs) nonce)
    as (g' & buf' & Hb' & Heq).
  { cbn [fc cryptor blocksize_]. lia. }
  { apply repeat_length. }
  cbn [fc cryptor blocksize_ header_ key_ nonce_ hashkey_ hashsize_] in Heq, Hb'.
  fold fc p in Heq.
  cbn [fc cryptor blocksize_ header_ key_ nonce_ hashkey_ hashsize_].
  fold fc.
  rewrite Heq. clear Heq.
  cbn [hs_key hs_outlen hs_fed crypto_generichash_init app].
  set (blocks := blocks_of k bs p).
  set (Eb := concat (seal_chunks header key nonce blocks)).
  cbn [encrypt_loop]. unfold bind at 1. cbn [this self].
  unfold bind at 1.
  assert (Htail : skipn (q + k * bs) c = skipn (k * bs) p)
    by (unfold p; rewrite skipn_skipn; f_equal; lia).
  assert (Hrest : length (skipn (k * bs) p) = r)
    by (rewrite length_skipn; lia).
  rewrite read_short;
    cbn [istr content gpos igood eofbit failbit negb andb fc cryptor blocksize_];
    [|reflexivity|rewrite Htail; lia].
  rewrite Htail, Hrest.
  cbn [ret]. unfold bind at 1. cbn [gcount istr gcount_].
  unfold bind at 1.
  replace (q + k * bs + r) with (length c) by lia.
  destruct (r =? 0) eqn:Er; cbn [negb].
  - (* the input ends on a block boundary *)
    cbn [ret]. rewrite final_digest. cbn [hs_key hs_outlen hs_fed].
    cbn [self istr ostr trace hashsize_ fc]. unfold bind at 1.
    rewrite write_unbounded by (split; reflexivity).
    cbn [negb self istr ostr trace written ret].
    rewrite !app_nil_r. fold blocks Eb.
    rewrite <- app_assoc. reflexivity.
  - (* a partial block remains *)
    apply Nat.eqb_neq in Er.
    rewrite store_length, Hb'.
    replace (r =? bs) with false by (symmetry; apply Nat.eqb_neq; lia).
    cbn [negb].
    assert (Hcut : resize (store buf' (skipn (k * bs) p)) r = skipn (k * bs) p).
    { rewrite resize_firstn by (rewrite store_length; lia).
      rewrite <- Hrest at 1. apply store_prefix. lia. }
    rewrite Hcut.
    unfold sc_aead_encrypt, hash_update, log, bind, this, ret.
    cbn [self istr ostr trace].
    rewrite write_unbounded by (split; reflexivity).
    cbn [negb self istr ostr trace written].
    rewrite final_digest.
    cbn [crypto_generichash_update hs_key hs_outlen hs_fed].
    rewrite write_unbounded by (split; reflexivity).
    cbn [negb self istr ostr trace written
         fc cryptor blocksize_ header_ key_ nonce_ hashkey_ hashsize_].
    rewrite seal_chunks_app, encrypt_events_app, concat_app.
    replace (length blocks) with k by (symmetry; apply blocks_of_length).
    fold blocks. fold Eb.
    cbn [seal_chunks encrypt_events concat].
    rewrite (Nat.mul_comm bs k), !app_nil_r, <- !app_assoc.
    reflexivity.
Qed.
End EncryptAt.

Lemma sealed_app t1 t2 : sealed (t1 ++ t2) = sealed t1 ++ sealed t2.
Proof.
  induction t1 as [|e t1 IH]; [reflexivity|].
  destruct e; simpl; rewrite ?IH; reflexivity.
Qed.

(** X7: [encrypt] does not rewind its input: on a stream that stands at
    the position [q] it encrypts the bytes from [q] on and appends to the
    sink exactly the stream it writes for these bytes alone; the input is
    left at its end, with the end-of-file and fail bits set. *)
Theorem encrypt_from_position `{LL : LibsodiumLaws} (fc : FileCryptor)
  (c : data_t) (q g : nat) (o : data_t) (t : list event) :
  let r := encrypt (mkWorld fc (mkIstream c q false false g)
                      (mkOstream o None false) t) in
  1 <= blocksize_ (cryptor fc) ->
  q <= length c ->
  fst r = Ok tt /\
  written (ostr (snd r)) = o ++ ciphertext_stream fc (skipn q c) /\
  sealed (trace (snd r)) =
    sealed t ++
    with_nonces (nonce_ (cryptor fc))
      (chunks_of (blocksize_ (cryptor fc)) (skipn q c)) /\
  gpos (istr (snd r)) = length c /\
  eofbit (istr (snd r)) = true /\ failbit (istr (snd r)) = true.
Proof.
  intros r Hbs Hq. unfold r, encrypt.
  erewrite bind_ok by (apply encrypt_body_at; assumption).
  cbn [ret fst snd ostr istr trace written gpos eofbit failbit].
  rewrite ciphertext_stream_eq by exact Hbs.
  rewrite sealed_app, sealed_encrypt_events.
  repeat split.
Qed.

Lemma encrypt_from_position_witness :
  let fc := Toy.cryptor_of 4 32 in
  written (ostr (snd (encrypt (L := Toy.sodium)
                        (mkWorld fc
                           (mkIstream [x41; x42; x43; x44; x45] 3 false false 0)
                           (mkOstream [] None false) [])))) =
  ciphertext_stream (L := Toy.sodium) fc [x44; x45].
Proof.
  pose proof (@encrypt_from_position Toy.sodium ToyLaws.laws
                (Toy.cryptor_of 4 32) [x41; x42; x43; x44; x45] 3 0 [] []) as H.
  cbv zeta in H.
  specialize (H ltac:(vm_compute; lia) ltac:(vm_compute; lia)).
  destruct H as (_ & H & _). exact H.
Defined.

Section BoundedSink.
Context `{LL : LibsodiumLaws}.

Lemma write_fits w bytes o r :
  ostr w = mkOstream o (Some r) false ->
  length bytes <= r ->
  write bytes w =
  (Ok true,
   mkWorld (self w) (istr w)
     (mkOstream (o ++ bytes) (Some (r - length bytes)) false) (trace w)).
Proof.
  intros Ho Hfit. unfold write, ostream_write. rewrite Ho.
  cbn [obad room written].
  apply Nat.leb_le in Hfit. rewrite Hfit. reflexivity.
Qed.

Lemma write_overflows w bytes o r :
  ostr w = mkOstream o (Some r) false ->
  r < length bytes ->
  write bytes w =
  (Ok false,
   mkWorld (self w) (istr w)
     (mkOstream (o ++ firstn r bytes) (Some 0) true) (trace w)).
Proof.
  intros Ho Hfit. unfold write, ostream_write. rewrite Ho.
  cbn [obad room written].
  apply Nat.leb_gt in Hfit. rewrite Hfit. reflexivity.
Qed.

Lemma firstn_app_whole {A} (a b : list A) r :
  length a <= r -> firstn r (a ++ b) = a ++ firstn (r - length a) b.
Proof.
  intros H. rewrite firstn_app. f_equal. apply firstn_all2. exact H.
Qed.

Lemma firstn_app_within {A} (a b : list A) r :
  r <= length a -> firstn r (a ++ b) = firstn r a.
Proof.
  intros H. rewrite firstn_app. replace (r - length a) with 0 by lia.
  simpl. apply app_nil_r.
Qed.

Lemma blocks_of_split bs : forall j m p,
  blocks_of (j + S m) bs p =
  blocks_of j bs p ++
  firstn bs (skipn (j * bs) p) :: blocks_of m bs (skipn (j * bs + bs) p).
Proof.
  induction j as [|j IH]; intros m p.
  - reflexivity.
  - cbn [Nat.add blocks_of app]. rewrite IH. rewrite !skipn_skipn.
    replace (S j * bs) with (j * bs + bs) by (simpl; lia).
    reflexivity.
Qed.

(** The whole blocks, as long as the sink has room for their chunks. *)
Lemma encrypt_loop_blocks_room k : forall fuel fc c q g o r t st buf n,
  let bs := blocksize_ (cryptor fc) in
  let C := MACSIZE + bs in
  let blocks := blocks_of k bs (skipn q c) in
  let E :=
    concat (seal_chunks (header_ (cryptor fc)) (key_ (cryptor fc)) n blocks) in
  q + k * bs <= length c ->
  length buf = bs ->
  k * C <= r ->
  exists g' buf', length buf' = bs /\
  encrypt_loop (k + fuel) st buf n
    (mkWorld fc (mkIstream c q false false g) (mkOstream o (Some r) false) t) =
  encrypt_loop fuel (mkHash (hs_key st) (hs_outlen st) (hs_fed st ++ E))
    buf' (increments k n)
    (mkWorld fc (mkIstream c (q + k * bs) false false g')
       (mkOstream (o ++ E) (Some (r - k * C)) false)
       (t ++ encrypt_events (header_ (cryptor fc)) (key_ (cryptor fc)) n blocks)).
Proof.
  induction k as [|k IH];
    intros fuel fc c q g o r t st buf n bs C blocks E Hq Hb Hr.
  - exists g, buf. split; [exact Hb|]. subst E blocks. simpl.
    rewrite !app_nil_r, Nat.add_0_r, Nat.sub_0_r. now destruct st.
  - subst E blocks. cbn [Nat.add encrypt_loop].
    unfold bind at 1. cbn [this self].
    unfold bind at 1.
    rewrite read_full;
      cbn [istr content gpos igood eofbit failbit negb andb];
      try reflexivity; try (simpl in Hq; lia); try assumption.
    cbn [self ostr trace].
    unfold sc_aead_encrypt, hash_update, log, bind, this, ret.
    cbn [self istr ostr trace].
    set (block := firstn (blocksize_ (cryptor fc)) (skipn q c)).
    set (chunk := CryptorAEAD_encrypt (header_ (cryptor fc)) block
                    (key_ (cryptor fc)) n).
    assert (Hblock : length block = bs)
      by (unfold block; rewrite length_firstn, length_skipn;
          simpl in Hq; fold bs in Hq |- *; lia).
    assert (Hchunk : length chunk = C)
      by (unfold chunk, CryptorAEAD_encrypt;
          rewrite aead_seal_length, Hblock; reflexivity).
    rewrite (@write_fits _ chunk o r) by first [reflexivity|rewrite Hchunk; simpl in Hr; lia].
    cbn [negb self istr ostr trace written].
    fold bs.
    destruct (IH fuel fc c (q + bs) bs (o ++ chunk) (r - length chunk)
                ((t ++ [EvSeal n block]) ++ [EvUpdate chunk])
                (crypto_generichash_update st chunk) block (increment n))
      as (g' & buf' & Hb' & Heq).
    { fold bs. simpl in Hq. lia. }
    { fold bs. exact Hblock. }
    { fold bs C. simpl in Hr. lia. }
    exists g', buf'. split; [exact Hb'|].
    fold bs C in Heq. rewrite Heq. clear Heq.
    cbn [blocks_of seal_chunks concat encrypt_events increments
         crypto_generichash_update hs_key hs_outlen hs_fed].
    rewrite skipn_skipn, (Nat.add_comm bs q).
    fold bs block chunk.
    rewrite <- !app_assoc. cbn [app].
    replace (q + bs + k * bs) with (q + S k * bs) by (simpl; lia).
    replace (r - length chunk - k * C) with (r - S k * C) by (simpl; lia).
    reflexivity.
Qed.

(** [encrypt_body] into a sink that has room for [r] bytes. *)
Lemma encrypt_body_room fc p o r t :
  let bs := blocksize_ (cryptor fc) in
  let C := MACSIZE + bs in
  let k := length p / bs in
  let E :=
    concat (seal_chunks (header_ (cryptor fc)) (key_ (cryptor fc))
              (nonce_ (cryptor fc)) (chunks_of bs p)) in
  let stream := E ++ generichash (keydata (hashkey_ fc)) (hashsize_ fc) E in
  let e :=
    if r <? k * C then Encrypt_write_full_chunk
    else if r <? length E then Encrypt_write_final_chunk
    else Encrypt_write_hash in
  1 <= bs ->
  exists w',
    encrypt_body
      (mkWorld fc (fresh_istream p) (mkOstream o (Some r) false) t) =
    (if length stream <=? r
     then Ok (increments k (nonce_ (cryptor fc))) else Throw e, w') /\
    written (ostr w') = o ++ firstn r stream.
Proof.
  destruct fc as [[key nonce header bs] hashkey hashsize].
  cbn [cryptor blocksize_ header_ key_ nonce_ hashkey_ hashsize_].
  intros Hbs.
  destruct (div_mod_facts (length p) Hbs) as [Hdm Hrem].
  pose proof MACSIZE_pos as Hmac.
  set (C := MACSIZE + bs).
  set (k := length p / bs) in *. set (rem := length p mod bs) in *.
  set (fc := mkFileCryptor (mkStreamCryptor key nonce header bs) hashkey hashsize).
  set (blocks := blocks_of k bs p).
  set (Eb := concat (seal_chunks header key nonce blocks)).
  assert (HEb : length Eb = k * C).
  { unfold Eb. rewrite (@sealed_length _ _ header key bs blocks nonce).
    - unfold blocks. now rewrite blocks_of_length.
    - apply blocks_of_whole. lia. }
  set (tail := skipn (k * bs) p).
  assert (Htl : length tail = rem) by (unfold tail; rewrite length_skipn; lia).
  set (last := CryptorAEAD_encrypt header tail key (increments k nonce)).
  assert (Hlast : length last = MACSIZE + rem)
    by (unfold last, CryptorAEAD_encrypt; rewrite aead_seal_length, Htl;
        reflexivity).
  assert (HE : concat (seal_chunks header key nonce (chunks_of bs p)) =
               Eb ++ (if rem =? 0 then [] else last)).
  { unfold chunks_of. fold k rem blocks.
    rewrite seal_chunks_app, concat_app. fold Eb. f_equal.
    replace (length blocks) with k by (symmetry; apply blocks_of_length).
    rewrite (Nat.mul_comm bs k). fold tail.
    destruct (rem =? 0); cbn [seal_chunks concat]; [reflexivity|].
    fold last. now rewrite app_nil_r. }
  rewrite HE. clear HE.
  set (hash := fun E => generichash (keydata hashkey) hashsize E).
  assert (Hhash : forall E, length (hash E) = hashsize)
    by (intros E; apply generichash_length).
  fold (hash (Eb ++ (if rem =? 0 then [] else last))).
  unfold encrypt_body. unfold bind at 1. cbn [this self].
  unfold bind at 1. cbn [loop_bound istr fresh_istream content].
  unfold bind at 1.
  cbn [fc cryptor blocksize_ header_ key_ nonce_ hashkey_ hashsize_].
  fold fc.
  destruct (r <? k * C) eqn:Efull.
  - (* the chunk of a whole block does not fit *)
    apply Nat.ltb_lt in Efull.
    assert (HC : 1 <= C) by (unfold C; lia).
    set (j := r / C).
    assert (Hj : j * C <= r /\ r < j * C + C).
    { unfold j. pose proof (Nat.div_mod_eq r C) as Hd.
      pose proof (Nat.mod_upper_bound r C ltac:(lia)) as Hm. nia. }
    assert (Hjk : j < k) by nia.
    replace (S (length p)) with (j + S (length p - j)) by nia.
    destruct (@encrypt_loop_blocks_room j (S (length p - j)) fc p 0 0 o r t
                (crypto_generichash_init (keydata hashkey) hashsize)
                (repeat x00 bs) nonce)
      as (g' & buf' & Hb' & Heq).
    { cbn [fc cryptor blocksize_]. nia. }
    { apply repeat_length. }
    { cbn [fc cryptor blocksize_]. fold C. lia. }
    cbn [fc cryptor blocksize_ header_ key_ nonce_ hashkey_ hashsize_]
      in Heq, Hb'.
    fold fc C in Heq. unfold fresh_istream. rewrite Heq. clear Heq.
    cbn [skipn Nat.add hs_key hs_outlen hs_fed crypto_generichash_init app].
    set (Ej := concat (seal_chunks header key nonce (blocks_of j bs p))).
    assert (HEj : length Ej = j * C).
    { unfold Ej.
      rewrite (@sealed_length _ _ header key bs (blocks_of j bs p) nonce).
      - now rewrite blocks_of_length.
      - apply blocks_of_whole. nia. }
    cbn [encrypt_loop]. unfold bind at 1. cbn [this self].
    unfold bind at 1.
    rewrite read_full;
      cbn [istr content gpos igood eofbit failbit negb andb fc cryptor
           blocksize_];
      [|reflexivity|nia|assumption].
    cbn [self ostr trace].
    set (block := firstn bs (skipn (j * bs) p)).
    set (chunk := CryptorAEAD_encrypt header block key (increments j nonce)).
    assert (Hchunk : length chunk = C).
    { unfold chunk, CryptorAEAD_encrypt. rewrite aead_seal_length.
      unfold block. rewrite length_firstn, length_skipn. unfold C. nia. }
    unfold sc_aead_encrypt, log, bind, this, ret.
    cbn [self istr ostr trace fc cryptor header_ key_]. fold chunk.
    rewrite (@write_overflows _ chunk (o ++ Ej) (r - j * C))
      by first [reflexivity|rewrite Hchunk; lia].
    cbn [negb throw].
    assert (Hsplit : Eb = Ej ++ chunk ++
              concat (seal_chunks header key (increment (increments j nonce))
                        (blocks_of (k - S j) bs (skipn (j * bs + bs) p)))).
    { unfold Eb, blocks. replace k with (j + S (k - S j)) at 1 by lia.
      rewrite blocks_of_split, seal_chunks_app, concat_app.
      rewrite blocks_of_length. cbn [seal_chunks concat]. reflexivity. }
    replace (length ((Eb ++ (if rem =? 0 then [] else last)) ++
                     hash (Eb ++ (if rem =? 0 then [] else last))) <=? r)
      with false
      by (symmetry; apply Nat.leb_gt; rewrite !length_app, HEb; lia).
    eexists. split; [reflexivity|]. cbn [ostr written].
    rewrite <- app_assoc. f_equal.
    rewrite Hsplit, <- !app_assoc.
    rewrite firstn_app_whole by lia. rewrite HEj. f_equal.
    rewrite firstn_app_within by lia. reflexivity.
  - (* the chunks of the whole blocks fit *)
    apply Nat.ltb_ge in Efull.
    replace (S (length p)) with (k + S (length p - k)) by nia.
    destruct (@encrypt_loop_blocks_room k (S (length p - k)) fc p 0 0 o r t
                (crypto_generichash_init (keydata hashkey) hashsize)
                (repeat x00 bs) nonce)
      as (g' & buf' & Hb' & Heq).
    { cbn [fc cryptor blocksize_]. lia. }
    { apply repeat_length. }
    { cbn [fc cryptor blocksize_]. fold C. lia. }
    cbn [fc cryptor blocksize_ header_ key_ nonce_ hashkey_ hashsize_]
      in Heq, Hb'.
    fold fc C in Heq. unfold fresh_istream. rewrite Heq. clear Heq.
    cbn [skipn Nat.add hs_key hs_outlen hs_fed crypto_generichash_init app].
    fold blocks Eb.
    cbn [encrypt_loop]. unfold bind at 1. cbn [this self].
    unfold bind at 1.
    rewrite read_short;
      cbn [istr content gpos igood eofbit failbit negb andb fc cryptor
           blocksize_];
      [|reflexivity|fold tail; lia].
    fold tail. rewrite Htl.
    cbn [ret]. unfold bind at 1. cbn [gcount istr gcount_].
    unfold bind at 1.
    destruct (rem =? 0) eqn:Er; cbn [negb].
    + (* the input ends on a block boundary *)
      rewrite !app_nil_r.
      replace (r <? length Eb) with false
        by (symmetry; apply Nat.ltb_ge; lia).
      cbn [ret]. rewrite final_digest. cbn [hs_key hs_outlen hs_fed].
      fold (hash Eb). unfold bind at 1.
      rewrite length_app, HEb, Hhash.
      destruct (k * C + hashsize <=? r) eqn:Efit.
      * apply Nat.leb_le in Efit.
        rewrite (@write_fits _ (hash Eb) (o ++ Eb) (r - k * C))
          by first [reflexivity|rewrite Hhash; lia].
        cbn [negb ret]. eexists. split; [reflexivity|]. cbn [ostr written].
        rewrite <- app_assoc. f_equal. symmetry. apply firstn_all2.
        rewrite length_app, HEb, Hhash. lia.
      * apply Nat.leb_gt in Efit.
        rewrite (@write_overflows _ (hash Eb) (o ++ Eb) (r - k * C))
          by first [reflexivity|rewrite Hhash; lia].
        cbn [negb throw]. eexists. split; [reflexivity|]. cbn [ostr written].
        rewrite <- app_assoc. f_equal.
        rewrite firstn_app_whole by lia. now rewrite HEb.
    + (* a partial block remains *)
      apply Nat.eqb_neq in Er.
      rewrite store_length, Hb'.
      replace (rem =? bs) with false by (symmetry; apply Nat.eqb_neq; lia).
      cbn [negb].
      assert (Hcut : resize (store buf' tail) rem = tail).
      { rewrite resize_firstn by (rewrite store_length; lia).
        rewrite <- Htl at 1. apply store_prefix. lia. }
      rewrite Hcut.
      unfold sc_aead_encrypt at 1. unfold log, this.
      unfold bind at 1. unfold bind at 1. unfold bind at 1. unfold bind at 1.
      cbn [self istr ostr trace ret fc cryptor header_ key_]. fold last.
      rewrite !length_app, HEb, Hlast, Hhash.
      unfold bind at 1.
      destruct (r <? k * C + (MACSIZE + rem)) eqn:Elast.
      * (* the final chunk does not fit *)
        apply Nat.ltb_lt in Elast.
        rewrite (@write_overflows _ last (o ++ Eb) (r - k * C))
          by first [reflexivity|rewrite Hlast; lia].
        cbn [negb throw].
        replace (k * C + (MACSIZE + rem) + hashsize <=? r) with false
          by (symmetry; apply Nat.leb_gt; lia).
        eexists. split; [reflexivity|]. cbn [ostr written].
        rewrite <- !app_assoc. f_equal.
        rewrite firstn_app_whole by lia. rewrite HEb. f_equal.
        rewrite firstn_app_within by lia. reflexivity.
      * apply Nat.ltb_ge in Elast.
        rewrite (@write_fits _ last (o ++ Eb) (r - k * C))
          by first [reflexivity|rewrite Hlast; lia].
        cbv beta iota delta [negb]. cbn [self istr ostr trace].
        unfold hash_update, log, ret, bind.
        cbn [self istr ostr trace].
        rewrite final_digest.
        cbn [crypto_generichash_update hs_key hs_outlen hs_fed].
        fold (hash (Eb ++ last)).
        destruct (k * C + (MACSIZE + rem) + hashsize <=? r) eqn:Efit.
        -- apply Nat.leb_le in Efit.
           rewrite (@write_fits _ (hash (Eb ++ last)) ((o ++ Eb) ++ last)
                      (r - k * C - length last))
             by first [reflexivity|rewrite Hhash; lia].
           cbn [negb ret]. eexists. split; [reflexivity|]. cbn [ostr written].
           rewrite <- !app_assoc. do 3 f_equal. symmetry.
           rewrite !app_assoc. apply firstn_all2.
           rewrite !length_app, HEb, Hlast, Hhash. lia.
        -- apply Nat.leb_gt in Efit.
           rewrite (@write_overflows _ (hash (Eb ++ last)) ((o ++ Eb) ++ last)
                      (r - k * C - length last))
             by first [reflexivity|rewrite Hhash; lia].
           cbn [negb throw]. eexists. split; [reflexivity|]. cbn [ostr written].
           rewrite <- !app_assoc. f_equal.
           rewrite (app_assoc Eb last (hash _)).
           rewrite firstn_app_whole by (rewrite length_app; lia).
           rewrite <- app_assoc. do 3 f_equal.
           rewrite length_app, HEb, Hlast. lia.
Qed.
End BoundedSink.

(** X8: [encrypt] tests the sink after each write and stops at the first
    write that leaves it bad.  On a sink that no write leaves bad (one that
    never fills up, or a buffered file stream whose failure shows only when
    it is flushed) it returns normally with the whole stream written.  On a
    sink that turns bad at the write that takes it beyond [r] bytes it
    returns normally exactly when the stream has at most [r] bytes;
    otherwise it throws the error of the write at which the sink turned bad,
    that of a whole chunk, of the final chunk or of the digest, and the sink
    holds the first [r] bytes of the stream: what was written before the
    failure is not taken back. *)
Theorem encrypt_stops_at_failed_write `{LL : LibsodiumLaws} (fc : FileCryptor)
  (p o : data_t) (limit : option nat) :
  let bs := blocksize_ (cryptor fc) in
  let stream := ciphertext_stream fc p in
  let run :=
    encrypt (mkWorld fc (fresh_istream p) (mkOstream o limit false) []) in
  1 <= bs ->
  match limit with
  | None => fst run = Ok tt /\ written (ostr (snd run)) = o ++ stream
  | Some r =>
      written (ostr (snd run)) = o ++ firstn r stream /\
      (length stream <= r -> fst run = Ok tt) /\
      (r < length stream ->
       fst run =
       Throw (if r <? length p / bs * (MACSIZE + bs)
              then Encrypt_write_full_chunk
              else if r <? length stream - hashsize_ fc
                   then Encrypt_write_final_chunk
                   else Encrypt_write_hash))
  end.
Proof.
  intros bs stream run Hbs.
  assert (Hs : stream =
               concat (seal_chunks (header_ (cryptor fc)) (key_ (cryptor fc))
                         (nonce_ (cryptor fc)) (chunks_of bs p)) ++
               generichash (keydata (hashkey_ fc)) (hashsize_ fc)
                 (concat (seal_chunks (header_ (cryptor fc))
                            (key_ (cryptor fc)) (nonce_ (cryptor fc))
                            (chunks_of bs p))))
    by (apply ciphertext_stream_eq; exact Hbs).
  destruct limit as [r|].
  - destruct (@encrypt_body_room _ _ fc p o r [] Hbs) as (w' & Hrun & Hw).
    fold bs in Hrun, Hw.
    rewrite <- Hs in Hrun, Hw.
    assert (Hlen : length (concat (seal_chunks (header_ (cryptor fc))
                                     (key_ (cryptor fc)) (nonce_ (cryptor fc))
                                     (chunks_of bs p))) =
                   length stream - hashsize_ fc)
      by (rewrite Hs, length_app, generichash_length; lia).
    rewrite Hlen in Hrun.
    unfold run, encrypt, bind. rewrite Hrun. clear Hrun.
    destruct (length stream <=? r) eqn:Efit; cbn [fst snd ret].
    + apply Nat.leb_le in Efit.
      split; [exact Hw|]. split; [reflexivity|]. lia.
    + apply Nat.leb_gt in Efit.
      split; [exact Hw|]. split; [lia|]. reflexivity.
  - unfold run, encrypt, bind.
    rewrite (encrypt_body_spec fc p o [] Hbs).
    cbn [fst snd ret ostr written]. fold bs. rewrite <- Hs.
    split; reflexivity.
Qed.

Lemma encrypt_stops_at_failed_write_witness :
  let fc := Toy.cryptor_of 4 32 in
  let p := [x41; x42; x43; x44; x45] in
  let run :=
    encrypt (L := Toy.sodium)
      (mkWorld fc (fresh_istream p) (mkOstream [] (Some 10) false) []) in
  written (ostr (snd run)) =
    firstn 10 (ciphertext_stream (L := Toy.sodium) fc p) /\
  fst run = Throw Encrypt_write_full_chunk.
Proof.
  pose proof (@encrypt_stops_at_failed_write Toy.sodium ToyLaws.laws
                (Toy.cryptor_of 4 32) [x41; x42; x43; x44; x45] [] (Some 10))
    as H.
  cbv zeta in H.
  specialize (H ltac:(vm_compute; lia)).
  destruct H as (H1 & _ & H2).
  split; [exact H1|]. apply H2. vm_compute. lia.
Defined.

(** X23: the stored nonce never advances, so an object that encrypts a
    second input starts again from the base nonce.  Both streams are made
    of the chunks that the AEAD construction answers under the base nonce
    and its successors, followed by their digest: the i-th chunk of the
    second stream is made under the same nonce as the i-th chunk of the
    first, the base nonce incremented i times. *)
Theorem encrypt_again_reuses_nonces `{LL : LibsodiumLaws} (fc : FileCryptor)
  (p1 p2 : data_t) :
  let bs := blocksize_ (cryptor fc) in
  let n0 := nonce_ (cryptor fc) in
  let header := header_ (cryptor fc) in
  let keybytes := keydata (key_ (cryptor fc)) in
  let digest := generichash (keydata (hashkey_ fc)) (hashsize_ fc) in
  let w1 := snd (encrypt (start fc p1)) in
  let w2 := snd (encrypt (start (self w1) p2)) in
  1 <= bs ->
  sealed (trace w1) = with_nonces n0 (chunks_of bs p1) /\
  sealed (trace w2) = with_nonces n0 (chunks_of bs p2) /\
  (forall i n1 c1 n2 c2,
     nth_error (sealed (trace w1)) i = Some (n1, c1) ->
     nth_error (sealed (trace w2)) i = Some (n2, c2) ->
     n1 = increments i n0 /\ n2 = n1) /\
  written (ostr w1) =
    concat (aead_chunks header keybytes n0 (chunks_of bs p1)) ++
    digest (concat (aead_chunks header keybytes n0 (chunks_of bs p1))) /\
  written (ostr w2) =
    concat (aead_chunks header keybytes n0 (chunks_of bs p2)) ++
    digest (concat (aead_chunks header keybytes n0 (chunks_of bs p2))) /\
  (forall p i, i < length (chunks_of bs p) ->
     nth i (aead_chunks header keybytes n0 (chunks_of bs p)) [] =
     aead_seal header (nth i (chunks_of bs p) []) keybytes (increments i n0)).
Proof.
  intros bs n0 header keybytes digest w1 w2 Hbs.
  assert (Hself : self w1 = fc) by (unfold w1; apply frames_encrypt).
  assert (H1 : w1 = snd (encrypt (start fc p1))) by reflexivity.
  assert (H2 : w2 = snd (encrypt (start fc p2)))
    by (unfold w2; now rewrite Hself).
  rewrite (encrypt_spec fc p1 Hbs) in H1.
  rewrite (encrypt_spec fc p2 Hbs) in H2.
  cbn [snd] in H1, H2. rewrite H1, H2.
  cbn [trace ostr written]. rewrite !sealed_encrypt_events, !seal_chunks_aead.
  split; [reflexivity|]. split; [reflexivity|]. split; [|split; [|split]].
  - intros i n1 c1 n2 c2 Hn1 Hn2.
    apply with_nonces_nth in Hn1 as [-> _].
    apply with_nonces_nth in Hn2 as [-> _].
    split; reflexivity.
  - reflexivity.
  - reflexivity.
  - intros p i Hi. now apply aead_chunks_nth.
Qed.

Lemma encrypt_again_reuses_nonces_witness :
  let fc := Toy.cryptor_of 4 32 in
  let keybytes := keydata Toy.key in
  let w1 := snd (encrypt (L := Toy.sodium) (start fc [x41])) in
  let w2 := snd (encrypt (L := Toy.sodium) (start (self w1) [x42; x43])) in
  firstn 17 (written (ostr w1)) =
    @aead_seal Toy.sodium [] [x41] keybytes Toy.nonce /\
  firstn 18 (written (ostr w2)) =
    @aead_seal Toy.sodium [] [x42; x43] keybytes Toy.nonce.
Proof.
  pose proof (@encrypt_again_reuses_nonces Toy.sodium ToyLaws.laws
                (Toy.cryptor_of 4 32) [x41] [x42; x43]) as H.
  cbv zeta in H. specialize (H ltac:(vm_compute; lia)).
  destruct H as (_ & _ & _ & H1 & H2 & _).
  split; [rewrite H1|rewrite H2]; vm_compute; reflexivity.
Defined.

(* ================================================================= *)
(** ** The driver of the CryptorAEAD tests *)

Lemma incr_first_length (v : data_t) : length (incr_first v) = length v.
Proof. now destruct v. Qed.

(** X11: what [test_of_correctness] of test_CryptorAEAD.cpp answers.  The
    size it reports is that of the plaintext plus [MACSIZE], whatever is
    falsified.  It answers [true] when nothing is falsified; a request to
    falsify an empty header changes nothing, so that it answers [true] then
    as well.  It answers [false] whenever the primitive rejects what is
    handed to it after the falsification. *)
Theorem test_of_correctness_checks `{LL : LibsodiumLaws} (key : Key)
  (nonce : nonce_type) (header plaintext : data_t)
  (falsify_header falsify_ciphertext : bool) :
  let run :=
    test_of_correctness key nonce header plaintext falsify_header
      falsify_ciphertext in
  let sealed := aead_seal header plaintext (keydata key) nonce in
  snd run = length plaintext + MACSIZE /\
  (falsify_ciphertext = false ->
   falsify_header = false \/ header = [] ->
   fst run = true) /\
  (aead_open (if falsify_header then incr_first header else header)
     (if falsify_ciphertext then incr_first sealed else sealed)
     (keydata key) nonce = None ->
   fst run = false).
Proof.
  intros run sealed. unfold run, test_of_correctness, CryptorAEAD_encrypt.
  fold sealed. cbv zeta.
  pose proof MACSIZE_pos as Hmac.
  assert (Hlen : length sealed = MACSIZE + length plaintext)
    by apply aead_seal_length.
  assert (Hne : negb (length sealed =? 0) = true)
    by (apply negb_true_iff, Nat.eqb_neq; lia).
  rewrite Hne, andb_true_r.
  assert (Hh : (if falsify_header && negb (length header =? 0)
                then incr_first header else header) =
               (if falsify_header then incr_first header else header)).
  { destruct falsify_header; [|reflexivity].
    destruct header; reflexivity. }
  rewrite Hh. clear Hh.
  split; [|split].
  - assert (Hsize : length (if falsify_ciphertext then incr_first sealed
                            else sealed) = length plaintext + MACSIZE)
      by (destruct falsify_ciphertext; rewrite ?incr_first_length; lia).
    destruct (CryptorAEAD_decrypt _ _ key nonce); exact Hsize.
  - intros -> Hcase.
    assert (Hsame : (if falsify_header then incr_first header else header) =
                    header)
      by (destruct Hcase as [->| ->]; [reflexivity|now destruct falsify_header]).
    rewrite Hsame. unfold CryptorAEAD_decrypt, sealed.
    rewrite aead_open_seal. cbn [fst]. apply data_eqb_refl.
  - intros Hrej. unfold CryptorAEAD_decrypt. rewrite Hrej. reflexivity.
Qed.

Lemma test_of_correctness_checks_witness :
  fst (test_of_correctness (L := Toy.sodium) Toy.key Toy.nonce []
         [x41; x42] true false) = true /\
  snd (test_of_correctness (L := Toy.sodium) Toy.key Toy.nonce []
         [x41; x42] true false) = 2 + 16.
Proof.
  destruct (@test_of_correctness_checks Toy.sodium ToyLaws.laws Toy.key
              Toy.nonce [] [x41; x42] true false) as (Hs & Ht & _).
  split; [exact (Ht eq_refl (or_intror eq_refl))|exact Hs].
Defined.

(* ================================================================= *)
(** ** Auth: message authentication codes *)

(** X12: [Auth::auth] returns exactly for the keys of [KEYSIZE_AUTH] bytes
    and throws the key-size error for all others; the MAC it returns has
    [MACSIZE] bytes, whatever the primitive stores. *)
Theorem Auth_auth_mac_size `{P : Auth.Primitives} (plaintext : data_t)
  (key : Key) :
  (length (keydata key) = Auth.KEYSIZE_AUTH <->
   exists mac, Auth.auth plaintext key = Returns mac) /\
  (length (keydata key) <> Auth.KEYSIZE_AUTH <->
   Auth.auth plaintext key = Raises Auth_auth_key_wrong_size) /\
  (forall mac, Auth.auth plaintext key = Returns mac ->
   length mac = Auth.MACSIZE).
Proof.
  unfold Auth.auth.
  destruct (length (keydata key) =? Auth.KEYSIZE_AUTH) eqn:E; cbn [negb].
  - apply Nat.eqb_eq in E. repeat split; try easy.
    + intros _. eexists. reflexivity.
    + intros mac [= <-]. now rewrite store_length, repeat_length.
  - apply Nat.eqb_neq in E. repeat split; try easy.
    intros [mac Hm]. discriminate.
Qed.

(** X13: a MAC computed by [Auth::auth] is accepted by [Auth::verify] for the
    same message and key: neither size check of [verify] refuses it, and the
    answer is [true] when the primitive verifies the MAC it computes. *)
Theorem Auth_verify_auth `{P : Auth.Primitives} (plaintext : data_t)
  (key : Key) :
  length (keydata key) = Auth.KEYSIZE_AUTH ->
  length (Auth.crypto_auth plaintext (keydata key)) = Auth.MACSIZE ->
  Auth.crypto_auth_verify (Auth.crypto_auth plaintext (keydata key))
    plaintext (keydata key) = 0%Z ->
  exists mac,
    Auth.auth plaintext key = Returns mac /\
    Auth.verify plaintext mac key = Returns true.
Proof.
  intros Hk Hlen Hok. unfold Auth.auth.
  rewrite Hk, Nat.eqb_refl. cbn [negb].
  eexists. split; [reflexivity|].
  rewrite store_whole by now rewrite repeat_length.
  unfold Auth.verify. rewrite Hlen, Hk, !Nat.eqb_refl. cbn [negb].
  now rewrite Hok.
Qed.

Lemma Auth_verify_auth_witness :
  Auth.verify (P := ToyWrappers.auth) [x41; x42; x43]
    (Toy.hash (keydata Toy.key) 32 [x41; x42; x43]) Toy.key = Returns true.
Proof.
  destruct (@Auth_verify_auth ToyWrappers.auth [x41; x42; x43] Toy.key
              ltac:(reflexivity) ltac:(reflexivity) ltac:(reflexivity))
    as (mac & Ha & Hv).
  injection Ha as <-. exact Hv.
Defined.

(** X14: [Auth::verify] answers only for a MAC of [MACSIZE] bytes and a key
    of [KEYSIZE_AUTH] bytes, and then what the primitive answers; a MAC of
    another size is an exception, not the answer [false], and it is reported
    before the size of the key is looked at. *)
Theorem Auth_verify_size_checks `{P : Auth.Primitives} (plaintext mac : data_t)
  (key : Key) :
  (length mac <> Auth.MACSIZE <->
   Auth.verify plaintext mac key = Raises Auth_verify_mac_wrong_size) /\
  (length mac = Auth.MACSIZE /\ length (keydata key) <> Auth.KEYSIZE_AUTH <->
   Auth.verify plaintext mac key = Raises Auth_verify_key_wrong_size) /\
  (length mac = Auth.MACSIZE /\ length (keydata key) = Auth.KEYSIZE_AUTH <->
   Auth.verify plaintext mac key =
   Returns (Auth.crypto_auth_verify mac plaintext (keydata key) =? 0)%Z).
Proof.
  unfold Auth.verify.
  destruct (length mac =? Auth.MACSIZE) eqn:Em; cbn [negb];
    [apply Nat.eqb_eq in Em|apply Nat.eqb_neq in Em];
    (destruct (length (keydata key) =? Auth.KEYSIZE_AUTH) eqn:Ek; cbn [negb];
     [apply Nat.eqb_eq in Ek|apply Nat.eqb_neq in Ek]);
    repeat split; try easy; intros [? ?]; easy.
Qed.

(* ================================================================= *)
(** ** SignorPK: signatures *)

(** X15: what [SignorPK::sign] returns has [SIGNATURE_SIZE] bytes more than
    the message, and what [SignorPK::sign_detached] returns has
    [SIGNATURE_SIZE] bytes, whatever the primitives store. *)
Theorem SignorPK_signature_sizes `{P : SignorPK.Primitives}
  (plaintext : data_t) (privkey : Key) :
  (forall signed, SignorPK.sign plaintext privkey = Returns signed ->
   length signed = SignorPK.SIGNATURE_SIZE + length plaintext) /\
  (forall signature,
   SignorPK.sign_detached plaintext privkey = Returns signature ->
   length signature = SignorPK.SIGNATURE_SIZE /\
   signature = snd (SignorPK.crypto_sign_detached plaintext (keydata privkey))).
Proof.
  split.
  - intros signed. unfold SignorPK.sign.
    destruct (SignorPK.crypto_sign plaintext (keydata privkey)) as [rc sm].
    destruct (rc =? -1)%Z; [discriminate|].
    intros [= <-]. now rewrite store_length, repeat_length.
  - intros signature. unfold SignorPK.sign_detached.
    destruct (SignorPK.crypto_sign_detached plaintext (keydata privkey))
      as [rc sig].
    destruct (rc =? -1)%Z; [discriminate|].
    destruct (length sig =? SignorPK.SIGNATURE_SIZE) eqn:E; cbn [negb];
      [|discriminate].
    apply Nat.eqb_eq in E. intros [= <-]. cbn [snd].
    rewrite store_whole by now rewrite repeat_length.
    split; [exact E|reflexivity].
Qed.

(** X16: [SignorPK::verify] gives back the message that [SignorPK::sign]
    signed, when the primitive signs with a signature of [SIGNATURE_SIZE]
    bytes and opens what it signed. *)
Theorem SignorPK_verify_sign `{P : SignorPK.Primitives}
  (plaintext : data_t) (privkey : Key) (pubkey sm : data_t) (rc rc' : Z) :
  length pubkey = SignorPK.KEYSIZE_PUBKEY ->
  SignorPK.crypto_sign plaintext (keydata privkey) = (rc, sm) ->
  rc <> (-1)%Z ->
  length sm = SignorPK.SIGNATURE_SIZE + length plaintext ->
  SignorPK.crypto_sign_open sm pubkey = (rc', plaintext) ->
  rc' <> (-1)%Z ->
  exists signed,
    SignorPK.sign plaintext privkey = Returns signed /\
    SignorPK.verify signed pubkey = Returns plaintext.
Proof.
  intros Hpk Hsign Hrc Hlen Hopen Hrc'.
  apply Z.eqb_neq in Hrc, Hrc'.
  unfold SignorPK.sign. rewrite Hsign, Hrc.
  eexists. split; [reflexivity|].
  rewrite store_whole by (rewrite repeat_length; exact Hlen).
  unfold SignorPK.verify. rewrite Hpk, Nat.eqb_refl. cbn [negb].
  replace (length sm <? SignorPK.SIGNATURE_SIZE) with false
    by (symmetry; apply Nat.ltb_ge; lia).
  rewrite Hopen, Hrc'.
  replace (length plaintext =? length sm - SignorPK.SIGNATURE_SIZE) with true
    by (symmetry; apply Nat.eqb_eq; lia).
  cbn [negb]. rewrite store_whole by (rewrite repeat_length; lia).
  reflexivity.
Qed.

Lemma SignorPK_verify_sign_witness :
  exists signed,
    SignorPK.sign (P := ToyWrappers.sign) [x41; x42; x43]
      ToyWrappers.signing_key = Returns signed /\
    SignorPK.verify (P := ToyWrappers.sign) signed
      (keydata ToyWrappers.signing_key) = Returns [x41; x42; x43].
Proof.
  exact (@SignorPK_verify_sign ToyWrappers.sign [x41; x42; x43]
           ToyWrappers.signing_key (keydata ToyWrappers.signing_key)
           (ToyWrappers.signature [x41; x42; x43]
              (keydata ToyWrappers.signing_key) ++ [x41; x42; x43])
           0%Z 0%Z
           ltac:(reflexivity) ltac:(reflexivity) ltac:(discriminate)
           ltac:(reflexivity) ltac:(vm_compute; reflexivity)
           ltac:(discriminate)).
Defined.

(** X17: a detached signature made by [SignorPK::sign_detached] passes
    [SignorPK::verify_detached] for the same message, when the primitive
    stores [SIGNATURE_SIZE] bytes and verifies what it signed. *)
Theorem SignorPK_verify_detached_sign_detached `{P : SignorPK.Primitives}
  (plaintext : data_t) (privkey : Key) (pubkey sig : data_t) (rc : Z) :
  length pubkey = SignorPK.KEYSIZE_PUBKEY ->
  SignorPK.crypto_sign_detached plaintext (keydata privkey) = (rc, sig) ->
  rc <> (-1)%Z ->
  length sig = SignorPK.SIGNATURE_SIZE ->
  SignorPK.crypto_sign_verify_detached sig plaintext pubkey <> (-1)%Z ->
  SignorPK.sign_detached plaintext privkey = Returns sig /\
  SignorPK.verify_detached plaintext sig pubkey = Returns true.
Proof.
  intros Hpk Hsign Hrc Hlen Hok.
  apply Z.eqb_neq in Hrc, Hok.
  unfold SignorPK.sign_detached, SignorPK.verify_detached.
  rewrite Hsign, Hrc, Hlen, Hpk, !Nat.eqb_refl, Hok. cbn [negb].
  rewrite store_whole by (rewrite repeat_length; exact Hlen).
  split; reflexivity.
Qed.

Lemma SignorPK_verify_detached_sign_detached_witness :
  let sig :=
    ToyWrappers.signature [x41; x42; x43] (keydata ToyWrappers.signing_key) in
  SignorPK.sign_detached (P := ToyWrappers.sign) [x41; x42; x43]
    ToyWrappers.signing_key = Returns sig /\
  SignorPK.verify_detached (P := ToyWrappers.sign) [x41; x42; x43] sig
    (keydata ToyWrappers.signing_key) = Returns true.
Proof.
  exact (@SignorPK_verify_detached_sign_detached ToyWrappers.sign
           [x41; x42; x43] ToyWrappers.signing_key
           (keydata ToyWrappers.signing_key)
           (ToyWrappers.signature [x41; x42; x43]
              (keydata ToyWrappers.signing_key))
           0%Z
           ltac:(reflexivity) ltac:(reflexivity) ltac:(discriminate)
           ltac:(reflexivity) ltac:(vm_compute; discriminate)).
Defined.

(** X18: [SignorPK::verify] returns only for a public key of
    [KEYSIZE_PUBKEY] bytes and an input of at least [SIGNATURE_SIZE] bytes
    that the primitive accepts; the message it returns is the one the
    primitive stored and is [SIGNATURE_SIZE] bytes shorter than the input.
    An input shorter than a signature is refused before the primitive is
    asked. *)
Theorem SignorPK_verify_returns `{P : SignorPK.Primitives}
  (plaintext_with_signature pubkey plaintext : data_t) :
  SignorPK.verify plaintext_with_signature pubkey = Returns plaintext ->
  length pubkey = SignorPK.KEYSIZE_PUBKEY /\
  SignorPK.SIGNATURE_SIZE <= length plaintext_with_signature /\
  length plaintext =
    length plaintext_with_signature - SignorPK.SIGNATURE_SIZE /\
  fst (SignorPK.crypto_sign_open plaintext_with_signature pubkey) <> (-1)%Z /\
  snd (SignorPK.crypto_sign_open plaintext_with_signature pubkey) = plaintext.
Proof.
  unfold SignorPK.verify.
  destruct (length pubkey =? SignorPK.KEYSIZE_PUBKEY) eqn:Ek; cbn [negb];
    [|discriminate].
  destruct (length plaintext_with_signature <? SignorPK.SIGNATURE_SIZE) eqn:El;
    [discriminate|].
  destruct (SignorPK.crypto_sign_open plaintext_with_signature pubkey)
    as [rc m].
  destruct (rc =? -1)%Z eqn:Er; [discriminate|].
  destruct (length m =?
            length plaintext_with_signature - SignorPK.SIGNATURE_SIZE) eqn:Em;
    cbn [negb]; [|discriminate].
  apply Nat.eqb_eq in Ek, Em. apply Nat.ltb_ge in El. apply Z.eqb_neq in Er.
  intros [= <-].
  rewrite store_whole by (rewrite repeat_length; exact Em).
  repeat split; assumption.
Qed.

Lemma SignorPK_verify_returns_witness :
  let signed :=
    ToyWrappers.signature [x41] (keydata ToyWrappers.signing_key) ++ [x41] in
  SignorPK.verify (P := ToyWrappers.sign) signed
    (keydata ToyWrappers.signing_key) = Returns [x41] /\
  length [x41] = length signed - 8.
Proof.
  split; [vm_compute; reflexivity|].
  exact (proj1 (proj2 (proj2
           (@SignorPK_verify_returns ToyWrappers.sign
              (ToyWrappers.signature [x41] (keydata ToyWrappers.signing_key)
               ++ [x41])
              (keydata ToyWrappers.signing_key) [x41]
              ltac:(vm_compute; reflexivity))))).
Defined.

(* ================================================================= *)
(** ** KeyPair: key pairs *)

(** X19: [KeyPair::KeyPair(seed)] throws exactly for the seeds that do not
    have [KEYSIZE_SEEDBYTES] bytes; a key pair it returns has a public key
    of [KEYSIZE_PUBKEY] bytes and a private key of [KEYSIZE_PRIVKEY] bytes
    that is read-only. *)
Theorem KeyPair_from_seed_checks `{P : KeyPair.Primitives} (seed : data_t) :
  (length seed <> KeyPair.KEYSIZE_SEEDBYTES <->
   KeyPair.from_seed seed = Raises KeyPair_wrong_seed_size) /\
  (length seed = KeyPair.KEYSIZE_SEEDBYTES <->
   exists kp, KeyPair.from_seed seed = Returns kp) /\
  (forall kp, KeyPair.from_seed seed = Returns kp ->
   length (KeyPair.pubkey kp) = KeyPair.KEYSIZE_PUBKEY /\
   length (keydata (KeyPair.privkey kp)) = KeyPair.KEYSIZE_PRIVKEY /\
   prot (KeyPair.privkey kp) = ReadOnly).
Proof.
  unfold KeyPair.from_seed.
  destruct (KeyPair.crypto_box_seed_keypair seed) as [pk sk].
  destruct (length seed =? KeyPair.KEYSIZE_SEEDBYTES) eqn:E; cbn [negb].
  - apply Nat.eqb_eq in E. repeat split; try easy.
    + intros _. eexists. reflexivity.
    + injection H as <-.
      cbn [KeyPair.members KeyPair.pubkey KeyPair.pubkey_].
      now rewrite store_length, repeat_length.
    + injection H as <-.
      cbn [KeyPair.members KeyPair.privkey KeyPair.privkey_
           KeyPair.Key_setdata keydata Key_readonly].
      now rewrite store_length, repeat_length.
    + injection H as <-. reflexivity.
  - apply Nat.eqb_neq in E. repeat split; try easy.
    intros [kp Hk]. discriminate.
Qed.

(** X20: a key pair made from a seed is made again from its private key
    alone: [KeyPair(privkey_data, privkey_size)] on the bytes of the private
    key returns the same public and private key, when the primitive makes
    keys of the announced sizes and the public key is the one derived from
    the private key. *)
Theorem KeyPair_from_privkey_of_seed `{P : KeyPair.Primitives}
  (seed pk sk : data_t) (kp : KeyPair.KeyPair) :
  KeyPair.crypto_box_seed_keypair seed = (pk, sk) ->
  length pk = KeyPair.KEYSIZE_PUBKEY ->
  length sk = KeyPair.KEYSIZE_PRIVKEY ->
  KeyPair.crypto_scalarmult_base sk = pk ->
  KeyPair.from_seed seed = Returns kp ->
  KeyPair.from_privkey (keydata (KeyPair.privkey kp))
    (length (keydata (KeyPair.privkey kp))) = Returns kp /\
  KeyPair.pubkey kp = pk /\ keydata (KeyPair.privkey kp) = sk.
Proof.
  intros Hgen Hpk Hsk Hbase. unfold KeyPair.from_seed.
  destruct (length seed =? KeyPair.KEYSIZE_SEEDBYTES); cbn [negb];
    [|discriminate].
  rewrite Hgen. cbv zeta. unfold KeyPair.Key_setdata, Key_readonly.
  cbn [KeyPair.members KeyPair.pubkey_ KeyPair.privkey_ KeyPair.Key_setdata
       keydata prot Key_readonly].
  rewrite !store_whole by now rewrite repeat_length.
  intros [= <-].
  cbn [KeyPair.privkey KeyPair.pubkey KeyPair.pubkey_ KeyPair.privkey_ keydata].
  split; [|split; reflexivity].
  unfold KeyPair.from_privkey. rewrite Hsk, Nat.eqb_refl. cbn [negb].
  cbv zeta. unfold KeyPair.Key_setdata, Key_readonly.
  cbn [KeyPair.members KeyPair.pubkey_ KeyPair.privkey_ KeyPair.Key_setdata
       keydata prot Key_readonly].
  rewrite <- Hsk at 2 4. rewrite firstn_all.
  rewrite (store_whole _ sk) by now rewrite repeat_length.
  rewrite Hbase, store_whole by now rewrite repeat_length.
  reflexivity.
Qed.

Lemma KeyPair_from_privkey_of_seed_witness :
  exists kp,
    KeyPair.from_seed (P := ToyWrappers.box) [x07; x09] = Returns kp /\
    KeyPair.from_privkey (P := ToyWrappers.box)
      (keydata (KeyPair.privkey kp)) 4 = Returns kp.
Proof.
  eexists. split; [reflexivity|].
  exact (proj1 (@KeyPair_from_privkey_of_seed ToyWrappers.box [x07; x09]
                  _ _ _
                  ltac:(reflexivity) ltac:(reflexivity) ltac:(reflexivity)
                  ltac:(reflexivity) ltac:(reflexivity))).
Defined.

(** X21: a [KeyPair] is made from a private key only if [privkey_size] is
    [KEYSIZE_PRIVKEY]; the key pair then holds the first [privkey_size]
    bytes at [privkey_data], read-only, and a public key of
    [KEYSIZE_PUBKEY] bytes. *)
Theorem KeyPair_from_privkey_checks `{P : KeyPair.Primitives}
  (privkey_data : data_t) (privkey_size : nat) :
  (privkey_size <> KeyPair.KEYSIZE_PRIVKEY <->
   KeyPair.from_privkey privkey_data privkey_size =
   Raises KeyPair_wrong_privkey_size) /\
  (forall kp, KeyPair.from_privkey privkey_data privkey_size = Returns kp ->
   privkey_size = KeyPair.KEYSIZE_PRIVKEY /\
   length (KeyPair.pubkey kp) = KeyPair.KEYSIZE_PUBKEY /\
   prot (KeyPair.privkey kp) = ReadOnly /\
   (privkey_size <= length privkey_data ->
    keydata (KeyPair.privkey kp) = firstn privkey_size privkey_data)).
Proof.
  unfold KeyPair.from_privkey.
  destruct (privkey_size =? KeyPair.KEYSIZE_PRIVKEY) eqn:E; cbn [negb].
  - apply Nat.eqb_eq in E. split; [split; [contradiction|discriminate]|].
    intros kp [= <-].
    cbn [KeyPair.members KeyPair.pubkey KeyPair.privkey KeyPair.pubkey_
         KeyPair.privkey_ KeyPair.Key_setdata keydata prot Key_readonly].
    rewrite store_length, repeat_length.
    repeat split; try assumption.
    intros Hlen. apply store_whole.
    rewrite length_firstn, repeat_length. lia.
  - apply Nat.eqb_neq in E. split; [split; auto|]. intros kp; discriminate.
Qed.

(* ================================================================= *)
(** ** StreamVerifierPK: construction *)

(** X22: [StreamVerifierPK(pubkey, blocksize)] returns an object exactly when
    the public key has [KEYSIZE_PUBKEY] bytes and the blocksize is at least
    1; the object holds the key and the blocksize and a signature state
    into which nothing was folded.  When both arguments are wrong the size
    of the key is the error reported. *)
Theorem StreamVerifierPK_ctor_checks `{P : SignorPK.Primitives}
  (pubkey : data_t) (blocksize : nat) :
  (length pubkey <> SignorPK.KEYSIZE_PUBKEY <->
   StreamVerifierPK.ctor pubkey blocksize =
   Raises StreamVerifierPK_wrong_key_size) /\
  (length pubkey = SignorPK.KEYSIZE_PUBKEY /\ blocksize < 1 <->
   StreamVerifierPK.ctor pubkey blocksize =
   Raises StreamVerifierPK_wrong_blocksize) /\
  (length pubkey = SignorPK.KEYSIZE_PUBKEY /\ 1 <= blocksize <->
   StreamVerifierPK.ctor pubkey blocksize =
   Returns (StreamVerifierPK.mkStreamVerifierPK pubkey blocksize [])).
Proof.
  unfold StreamVerifierPK.ctor.
  destruct (length pubkey =? SignorPK.KEYSIZE_PUBKEY) eqn:Ek; cbn [negb];
    [apply Nat.eqb_eq in Ek|apply Nat.eqb_neq in Ek];
    (destruct (blocksize <? 1) eqn:Eb;
     [apply Nat.ltb_lt in Eb|apply Nat.ltb_ge in Eb]);
    repeat split; try easy; try lia; intros [? ?]; try easy; lia.
Qed.
